(** * CRM platform: database schema and client utilities

    Two parts of the repository are embedded here.

    - [utils.js]: the string and array helpers [truncateText] and [sortBy].
      JavaScript strings are sequences of code units, arrays are mutable
      objects living in a store and are passed by reference.
    - [01_init_database.sql]: the PostgreSQL schema.  The DDL is embedded as
      a value of type [list table] that follows the script line by line, and
      the data-manipulation statements INSERT, UPDATE and DELETE are given
      the meaning PostgreSQL gives them under that schema: type coercion,
      defaults and sequences, NOT NULL, UNIQUE / PRIMARY KEY, REFERENCES
      (with the default NO ACTION) and the BEFORE UPDATE triggers. *)

From Stdlib Require Import ZArith String Ascii Lia Sorted.
From stdpp Require Import base option list gmap strings pretty.

Set Warnings "-register-all".

Open Scope string_scope.
Open Scope list_scope.
Open Scope Z_scope.

(* ===================================================================== *)
(** * Part I: utils.js *)
(* ===================================================================== *)

(** ** Strings *)

(** [text.length] *)
Definition js_length (s : string) : Z := Z.of_nat (String.length s).

(** [String.prototype.slice(start, end)] for integer arguments: negative
    indices count from the end of the string, and both are clamped to
    [0, length]. *)
Definition js_slice (s : string) (start end_ : Z) : string :=
  let len := js_length s in
  let from := if start <? 0 then Z.max (len + start) 0 else Z.min start len in
  let to := if end_ <? 0 then Z.max (len + end_) 0 else Z.min end_ len in
  substring (Z.to_nat from) (Z.to_nat (Z.max (to - from) 0)) s.

(** [export function truncateText(text, maxLength = 50)].  An omitted
    argument is [None] and takes the default. *)
Definition truncateText (text : string) (maxLength : option Z) : string :=
  let maxLength := default 50 maxLength in
  if js_length text <=? maxLength then text
  else js_slice text 0 maxLength +:+ "...".

(** ** Values, property access and key paths *)

(** The values [sortBy] is applied to: JSON-like data.  Numbers are
    restricted to integers; objects are plain records of own properties;
    an array nested in an element is read, never written. *)
Inductive jsval :=
| JUndefined
| JNull
| JBool (b : bool)
| JNum (z : Z)
| JStr (s : string)
| JArr (elems : list jsval)
| JObj (props : list (string * jsval)).

Definition is_undefined (v : jsval) : bool :=
  match v with JUndefined => true | _ => false end.

Fixpoint assoc (k : string) (props : list (string * jsval)) : option jsval :=
  match props with
  | [] => None
  | (k', v) :: rest => if String.eqb k k' then Some v else assoc k rest
  end.

Definition digit (c : ascii) : option nat :=
  let n := nat_of_ascii c in
  if ((48 <=? n) && (n <=? 57))%nat then Some (n - 48)%nat else None.

Fixpoint digits (acc : nat) (s : string) : option nat :=
  match s with
  | EmptyString => Some acc
  | String c rest =>
      match digit c with
      | Some n => digits (10 * acc + n) rest
      | None => None
      end
  end.

(** A property key that is an array index: a decimal numeral without
    leading zeros. *)
Definition array_index (k : string) : option nat :=
  match k with
  | EmptyString => None
  | String c rest =>
      if Ascii.eqb c "0"%char && negb (String.eqb rest "") then None
      else digits 0 k
  end.

(** [obj?.[k]]: optional chaining yields [undefined] on [undefined] and
    [null]; a missing property reads as [undefined]; strings and arrays
    have their [length] and their indexed elements.  Members inherited
    from prototypes are functions, which the data do not contain. *)
Definition get_prop (obj : jsval) (k : string) : jsval :=
  match obj with
  | JUndefined | JNull => JUndefined
  | JObj props => default JUndefined (assoc k props)
  | JStr s =>
      if String.eqb k "length" then JNum (js_length s)
      else match array_index k with
           | Some i =>
               match String.get i s with
               | Some c => JStr (String c "")
               | None => JUndefined
               end
           | None => JUndefined
           end
  | JArr elems =>
      if String.eqb k "length" then JNum (Z.of_nat (length elems))
      else match array_index k with
           | Some i => default JUndefined (elems !! i)
           | None => JUndefined
           end
  | JBool _ | JNum _ => JUndefined
  end.

(** [key.split('.')] *)
Fixpoint split_dot_aux (cur : string) (s : string) : list string :=
  match s with
  | EmptyString => [cur]
  | String c rest =>
      if Ascii.eqb c "."%char then cur :: split_dot_aux "" rest
      else split_dot_aux (cur +:+ String c "") rest
  end.

Definition split_dot (key : string) : list string := split_dot_aux "" key.

(** [key.split('.').reduce((obj, k) => obj?.[k], a)] *)
Definition path_value (key : string) (a : jsval) : jsval :=
  fold_left get_prop (split_dot key) a.

(** ** Arrays in the store *)

Definition loc := positive.
Abbreviation heap := (gmap loc (list jsval)).

Section SortBy.

(** The language's relational comparison [x < y] on the values above.  It
    is part of JavaScript, not of this repository, and the helpers below
    are defined for whatever it answers; [x > y] is [y < x]. *)
Variable js_lt : jsval -> jsval -> bool.

(** The comparator passed to [sort]:
    [(a, b) => { ...; if (aVal < bVal) return direction === 'asc' ? -1 : 1;
                      if (aVal > bVal) return direction === 'asc' ? 1 : -1;
                      return 0 }] *)
Definition comparator (key direction : string) (a b : jsval) : Z :=
  let aVal := path_value key a in
  let bVal := path_value key b in
  if js_lt aVal bVal then (if String.eqb direction "asc" then -1 else 1)
  else if js_lt bVal aVal then (if String.eqb direction "asc" then 1 else -1)
  else 0.

(** [Array.prototype.sort(comparefn)].  The language fixes the result for
    a consistent comparator (sorted, stable, [undefined] elements last
    without being compared) and leaves the sequence of comparisons to
    the engine.  The model is a stable insertion: each element goes in
    front of the first element it compares below. *)
Fixpoint sort_insert (cmp : jsval -> jsval -> Z) (x : jsval) (sorted : list jsval)
  : list jsval :=
  match sorted with
  | [] => [x]
  | y :: rest =>
      if cmp x y <? 0 then x :: y :: rest else y :: sort_insert cmp x rest
  end.

Definition insertion_sort (cmp : jsval -> jsval -> Z) (l : list jsval) : list jsval :=
  fold_left (fun acc x => sort_insert cmp x acc) l [].

Definition js_sort (cmp : jsval -> jsval -> Z) (l : list jsval) : list jsval :=
  insertion_sort cmp (filter (fun v => ¬ is_undefined v) l)
    ++ filter (fun v => is_undefined v) l.

(** [[...array]]: a new array object holding the same elements. *)
Definition spread (h : heap) (array : loc) : option (heap * loc) :=
  match h !! array with
  | Some elems => let copy := fresh (dom h) in Some (<[copy := elems]> h, copy)
  | None => None
  end.

(** [a.sort(cmp)] sorts the array object [a] in place and returns [a]. *)
Definition array_sort (cmp : jsval -> jsval -> Z) (h : heap) (a : loc)
  : option (heap * loc) :=
  match h !! a with
  | Some elems => Some (<[a := js_sort cmp elems]> h, a)
  | None => None
  end.

(** [export function sortBy(array, key, direction = 'asc')] *)
Definition sortBy (h : heap) (array : loc) (key : string) (direction : option string)
  : option (heap * loc) :=
  let direction := default "asc" direction in
  match spread h array with
  | Some (h1, copy) => array_sort (comparator key direction) h1 copy
  | None => None
  end.

End SortBy.

(** The comparison of two numbers, enough to run [sortBy] on an example. *)
Definition lt_numbers (a b : jsval) : bool :=
  match a, b with
  | JNum x, JNum y => x <? y
  | _, _ => false
  end.

Definition two_rows : list jsval :=
  [JObj [("n", JNum 2)]; JObj [("n", JNum 1)]].

Definition example_heap : heap := {[1%positive := two_rows]}.

(* ===================================================================== *)
(** * Part II: 01_init_database.sql *)
(* ===================================================================== *)

(** ** Values and column types *)

(** SQL values.  A UUID is an opaque number; TIMESTAMP and DATE values are
    integers (microseconds, days); a DECIMAL(p,s) value is the integer
    count of its smallest unit 10^-s; JSONB and INET carry their text. *)
Inductive value :=
| VNull
| VInt (z : Z)
| VStr (s : string)
| VBool (b : bool)
| VUuid (u : N)
| VArr (l : list string).

#[global] Instance value_eq_dec : EqDecision value.
Proof. solve_decision. Defined.

Inductive sqltype :=
| SERIAL
| INTEGER
| BIGINT
| UUID
| VARCHAR (n : nat)
| TEXT
| TEXT_ARRAY
| JSONB
| INET
| TIMESTAMP
| DATE
| BOOLEAN
| DECIMAL (p s : nat).

(** The expressions the script uses after DEFAULT. *)
Inductive default_expr :=
| uuid_generate_v4
| CURRENT_TIMESTAMP
| CURRENT_DATE
| Lit (v : value).

(** Column constraints as the script writes them. *)
Inductive constraint :=
| PRIMARY_KEY
| UNIQUE
| NOT_NULL
| DEFAULT (e : default_expr)
| REFERENCES (t c : string).

#[global] Instance default_expr_eq_dec : EqDecision default_expr.
Proof. solve_decision. Defined.
#[global] Instance constraint_eq_dec : EqDecision constraint.
Proof. solve_decision. Defined.

Record column := Col {
  col_name : string;
  col_type : sqltype;
  col_constraints : list constraint
}.

Record table := Table {
  tbl_name : string;
  tbl_columns : list column
}.

(** [CREATE TRIGGER name BEFORE UPDATE ON table FOR EACH ROW
    EXECUTE FUNCTION update_updated_at_column()] *)
Record trigger := BEFORE_UPDATE {
  trg_name : string;
  trg_table : string
}.

(** ** The schema, table by table *)

Definition audit_logs_table : table :=
  Table "audit_logs" [
    Col "id" SERIAL [PRIMARY_KEY];
    Col "uuid" UUID [DEFAULT uuid_generate_v4; UNIQUE];
    Col "entity_type" (VARCHAR 100) [NOT_NULL];
    Col "entity_id" UUID [NOT_NULL];
    Col "action" (VARCHAR 50) [NOT_NULL];
    Col "old_values" JSONB [];
    Col "new_values" JSONB [];
    Col "user_id" UUID [];
    Col "tenant_id" UUID [NOT_NULL];
    Col "ip_address" INET [];
    Col "user_agent" TEXT [];
    Col "created_at" TIMESTAMP [DEFAULT CURRENT_TIMESTAMP];
    Col "created_by" (VARCHAR 100) [];
    Col "updated_at" TIMESTAMP [DEFAULT CURRENT_TIMESTAMP];
    Col "updated_by" (VARCHAR 100) [];
    Col "is_active" BOOLEAN [DEFAULT (Lit (VBool true))]
  ].

Definition tenants_table : table :=
  Table "tenants" [
    Col "id" SERIAL [PRIMARY_KEY];
    Col "uuid" UUID [DEFAULT uuid_generate_v4; UNIQUE];
    Col "name" (VARCHAR 255) [NOT_NULL];
    Col "slug" (VARCHAR 100) [UNIQUE; NOT_NULL];
    Col "domain" (VARCHAR 255) [];
    Col "settings" JSONB [DEFAULT (Lit (VStr "{}"))];
    Col "subscription_plan" (VARCHAR 50) [DEFAULT (Lit (VStr "basic"))];
    Col "subscription_status" (VARCHAR 50) [DEFAULT (Lit (VStr "active"))];
    Col "created_at" TIMESTAMP [DEFAULT CURRENT_TIMESTAMP];
    Col "updated_at" TIMESTAMP [DEFAULT CURRENT_TIMESTAMP];
    Col "created_by" (VARCHAR 100) [];
    Col "updated_by" (VARCHAR 100) [];
    Col "is_active" BOOLEAN [DEFAULT (Lit (VBool true))]
  ].

Definition auth_users_table : table :=
  Table "auth.users" [
    Col "id" SERIAL [PRIMARY_KEY];
    Col "uuid" UUID [DEFAULT uuid_generate_v4; UNIQUE];
    Col "email" (VARCHAR 255) [UNIQUE; NOT_NULL];
    Col "password_hash" (VARCHAR 255) [NOT_NULL];
    Col "first_name" (VARCHAR 100) [];
    Col "last_name" (VARCHAR 100) [];
    Col "phone" (VARCHAR 20) [];
    Col "language" (VARCHAR 10) [DEFAULT (Lit (VStr "en"))];
    Col "timezone" (VARCHAR 50) [DEFAULT (Lit (VStr "UTC"))];
    Col "last_login" TIMESTAMP [];
    Col "email_verified" BOOLEAN [DEFAULT (Lit (VBool false))];
    Col "phone_verified" BOOLEAN [DEFAULT (Lit (VBool false))];
    Col "is_active" BOOLEAN [DEFAULT (Lit (VBool true))];
    Col "tenant_id" UUID [NOT_NULL; REFERENCES "tenants" "uuid"];
    Col "created_at" TIMESTAMP [DEFAULT CURRENT_TIMESTAMP];
    Col "updated_at" TIMESTAMP [DEFAULT CURRENT_TIMESTAMP];
    Col "created_by" (VARCHAR 100) [];
    Col "updated_by" (VARCHAR 100) []
  ].

Definition auth_user_roles_table : table :=
  Table "auth.user_roles" [
    Col "id" SERIAL [PRIMARY_KEY];
    Col "user_id" UUID [NOT_NULL; REFERENCES "auth.users" "uuid"];
    Col "role" (VARCHAR 50) [NOT_NULL];
    Col "granted_by" UUID [REFERENCES "auth.users" "uuid"];
    Col "granted_at" TIMESTAMP [DEFAULT CURRENT_TIMESTAMP];
    Col "tenant_id" UUID [NOT_NULL; REFERENCES "tenants" "uuid"]
  ].

Definition clients_companies_table : table :=
  Table "clients.companies" [
    Col "id" SERIAL [PRIMARY_KEY];
    Col "uuid" UUID [DEFAULT uuid_generate_v4; UNIQUE];
    Col "name" (VARCHAR 255) [NOT_NULL];
    Col "legal_name" (VARCHAR 255) [];
    Col "industry" (VARCHAR 100) [];
    Col "company_type" (VARCHAR 50) [];
    Col "website" (VARCHAR 255) [];
    Col "phone" (VARCHAR 20) [];
    Col "email" (VARCHAR 255) [];
    Col "tax_id" (VARCHAR 100) [];
    Col "vat_number" (VARCHAR 100) [];
    Col "registration_number" (VARCHAR 100) [];
    Col "founded_year" INTEGER [];
    Col "employee_count" INTEGER [];
    Col "annual_revenue" (DECIMAL 15 2) [];
    Col "currency" (VARCHAR 3) [DEFAULT (Lit (VStr "USD"))];
    Col "status" (VARCHAR 50) [DEFAULT (Lit (VStr "active"))];
    Col "source" (VARCHAR 100) [];
    Col "assigned_to" UUID [REFERENCES "auth.users" "uuid"];
    Col "tenant_id" UUID [NOT_NULL; REFERENCES "tenants" "uuid"];
    Col "created_at" TIMESTAMP [DEFAULT CURRENT_TIMESTAMP];
    Col "updated_at" TIMESTAMP [DEFAULT CURRENT_TIMESTAMP];
    Col "created_by" (VARCHAR 100) [];
    Col "updated_by" (VARCHAR 100) [];
    Col "is_active" BOOLEAN [DEFAULT (Lit (VBool true))]
  ].

Definition clients_company_addresses_table : table :=
  Table "clients.company_addresses" [
    Col "id" SERIAL [PRIMARY_KEY];
    Col "uuid" UUID [DEFAULT uuid_generate_v4; UNIQUE];
    Col "company_id" UUID [NOT_NULL; REFERENCES "clients.companies" "uuid"];
    Col "address_type" (VARCHAR 50) [DEFAULT (Lit (VStr "business"))];
    Col "street_address" TEXT [];
    Col "city" (VARCHAR 100) [];
    Col "state_province" (VARCHAR 100) [];
    Col "postal_code" (VARCHAR 20) [];
    Col "country" (VARCHAR 100) [];
    Col "is_primary" BOOLEAN [DEFAULT (Lit (VBool false))];
    Col "tenant_id" UUID [NOT_NULL; REFERENCES "tenants" "uuid"];
    Col "created_at" TIMESTAMP [DEFAULT CURRENT_TIMESTAMP];
    Col "updated_at" TIMESTAMP [DEFAULT CURRENT_TIMESTAMP];
    Col "created_by" (VARCHAR 100) [];
    Col "updated_by" (VARCHAR 100) [];
    Col "is_active" BOOLEAN [DEFAULT (Lit (VBool true))]
  ].

Definition clients_contacts_table : table :=
  Table "clients.contacts" [
    Col "id" SERIAL [PRIMARY_KEY];
    Col "uuid" UUID [DEFAULT uuid_generate_v4; UNIQUE];
    Col "company_id" UUID [REFERENCES "clients.companies" "uuid"];
    Col "first_name" (VARCHAR 100) [NOT_NULL];
    Col "last_name" (VARCHAR 100) [NOT_NULL];
    Col "title" (VARCHAR 100) [];
    Col "department" (VARCHAR 100) [];
    Col "email" (VARCHAR 255) [];
    Col "phone" (VARCHAR 20) [];
    Col "mobile" (VARCHAR 20) [];
    Col "linkedin_url" (VARCHAR 255) [];
    Col "preferred_language" (VARCHAR 10) [DEFAULT (Lit (VStr "en"))];
    Col "preferred_contact_method" (VARCHAR 50) [DEFAULT (Lit (VStr "email"))];
    Col "is_primary" BOOLEAN [DEFAULT (Lit (VBool false))];
    Col "notes" TEXT [];
    Col "tenant_id" UUID [NOT_NULL; REFERENCES "tenants" "uuid"];
    Col "created_at" TIMESTAMP [DEFAULT CURRENT_TIMESTAMP];
    Col "updated_at" TIMESTAMP [DEFAULT CURRENT_TIMESTAMP];
    Col "created_by" (VARCHAR 100) [];
    Col "updated_by" (VARCHAR 100) [];
    Col "is_active" BOOLEAN [DEFAULT (Lit (VBool true))]
  ].

Definition deals_deals_table : table :=
  Table "deals.deals" [
    Col "id" SERIAL [PRIMARY_KEY];
    Col "uuid" UUID [DEFAULT uuid_generate_v4; UNIQUE];
    Col "title" (VARCHAR 255) [NOT_NULL];
    Col "description" TEXT [];
    Col "company_id" UUID [REFERENCES "clients.companies" "uuid"];
    Col "contact_id" UUID [REFERENCES "clients.contacts" "uuid"];
    Col "stage" (VARCHAR 50) [DEFAULT (Lit (VStr "lead"))];
    Col "value" (DECIMAL 15 2) [];
    Col "currency" (VARCHAR 3) [DEFAULT (Lit (VStr "USD"))];
    Col "probability" INTEGER [DEFAULT (Lit (VInt 0))];
    Col "expected_close_date" DATE [];
    Col "actual_close_date" DATE [];
    Col "source" (VARCHAR 100) [];
    Col "assigned_to" UUID [REFERENCES "auth.users" "uuid"];
    Col "status" (VARCHAR 50) [DEFAULT (Lit (VStr "open"))];
    Col "priority" (VARCHAR 20) [DEFAULT (Lit (VStr "medium"))];
    Col "tags" TEXT_ARRAY [];
    Col "custom_fields" JSONB [DEFAULT (Lit (VStr "{}"))];
    Col "tenant_id" UUID [NOT_NULL; REFERENCES "tenants" "uuid"];
    Col "created_at" TIMESTAMP [DEFAULT CURRENT_TIMESTAMP];
    Col "updated_at" TIMESTAMP [DEFAULT CURRENT_TIMESTAMP];
    Col "created_by" (VARCHAR 100) [];
    Col "updated_by" (VARCHAR 100) [];
    Col "is_active" BOOLEAN [DEFAULT (Lit (VBool true))]
  ].

Definition deals_deal_activities_table : table :=
  Table "deals.deal_activities" [
    Col "id" SERIAL [PRIMARY_KEY];
    Col "uuid" UUID [DEFAULT uuid_generate_v4; UNIQUE];
    Col "deal_id" UUID [NOT_NULL; REFERENCES "deals.deals" "uuid"];
    Col "activity_type" (VARCHAR 50) [NOT_NULL];
    Col "subject" (VARCHAR 255) [];
    Col "description" TEXT [];
    Col "activity_date" TIMESTAMP [DEFAULT CURRENT_TIMESTAMP];
    Col "duration_minutes" INTEGER [];
    Col "outcome" (VARCHAR 100) [];
    Col "next_action" TEXT [];
    Col "tenant_id" UUID [NOT_NULL; REFERENCES "tenants" "uuid"];
    Col "created_at" TIMESTAMP [DEFAULT CURRENT_TIMESTAMP];
    Col "updated_at" TIMESTAMP [DEFAULT CURRENT_TIMESTAMP];
    Col "created_by" (VARCHAR 100) [];
    Col "updated_by" (VARCHAR 100) [];
    Col "is_active" BOOLEAN [DEFAULT (Lit (VBool true))]
  ].

Definition orders_orders_table : table :=
  Table "orders.orders" [
    Col "id" SERIAL [PRIMARY_KEY];
    Col "uuid" UUID [DEFAULT uuid_generate_v4; UNIQUE];
    Col "order_number" (VARCHAR 100) [UNIQUE; NOT_NULL];
    Col "deal_id" UUID [REFERENCES "deals.deals" "uuid"];
    Col "company_id" UUID [NOT_NULL; REFERENCES "clients.companies" "uuid"];
    Col "contact_id" UUID [REFERENCES "clients.contacts" "uuid"];
    Col "status" (VARCHAR 50) [DEFAULT (Lit (VStr "pending"))];
    Col "order_date" DATE [DEFAULT CURRENT_DATE];
    Col "required_date" DATE [];
    Col "shipped_date" DATE [];
    Col "delivery_date" DATE [];
    Col "total_amount" (DECIMAL 15 2) [];
    Col "currency" (VARCHAR 3) [DEFAULT (Lit (VStr "USD"))];
    Col "payment_terms" (VARCHAR 100) [];
    Col "payment_status" (VARCHAR 50) [DEFAULT (Lit (VStr "pending"))];
    Col "shipping_method" (VARCHAR 100) [];
    Col "shipping_address" JSONB [];
    Col "billing_address" JSONB [];
    Col "notes" TEXT [];
    Col "custom_fields" JSONB [DEFAULT (Lit (VStr "{}"))];
    Col "tenant_id" UUID [NOT_NULL; REFERENCES "tenants" "uuid"];
    Col "created_at" TIMESTAMP [DEFAULT CURRENT_TIMESTAMP];
    Col "updated_at" TIMESTAMP [DEFAULT CURRENT_TIMESTAMP];
    Col "created_by" (VARCHAR 100) [];
    Col "updated_by" (VARCHAR 100) [];
    Col "is_active" BOOLEAN [DEFAULT (Lit (VBool true))]
  ].

Definition orders_order_items_table : table :=
  Table "orders.order_items" [
    Col "id" SERIAL [PRIMARY_KEY];
    Col "uuid" UUID [DEFAULT uuid_generate_v4; UNIQUE];
    Col "order_id" UUID [NOT_NULL; REFERENCES "orders.orders" "uuid"];
    Col "product_code" (VARCHAR 100) [];
    Col "product_name" (VARCHAR 255) [NOT_NULL];
    Col "description" TEXT [];
    Col "quantity" (DECIMAL 10 3) [NOT_NULL];
    Col "unit_price" (DECIMAL 10 2) [NOT_NULL];
    Col "total_price" (DECIMAL 15 2) [NOT_NULL];
    Col "unit_of_measure" (VARCHAR 20) [];
    Col "weight" (DECIMAL 10 3) [];
    Col "dimensions" JSONB [];
    Col "tenant_id" UUID [NOT_NULL; REFERENCES "tenants" "uuid"];
    Col "created_at" TIMESTAMP [DEFAULT CURRENT_TIMESTAMP];
    Col "updated_at" TIMESTAMP [DEFAULT CURRENT_TIMESTAMP];
    Col "created_by" (VARCHAR 100) [];
    Col "updated_by" (VARCHAR 100) [];
    Col "is_active" BOOLEAN [DEFAULT (Lit (VBool true))]
  ].

Definition documents_documents_table : table :=
  Table "documents.documents" [
    Col "id" SERIAL [PRIMARY_KEY];
    Col "uuid" UUID [DEFAULT uuid_generate_v4; UNIQUE];
    Col "filename" (VARCHAR 255) [NOT_NULL];
    Col "original_filename" (VARCHAR 255) [NOT_NULL];
    Col "file_path" (VARCHAR 500) [];
    Col "file_size" BIGINT [];
    Col "mime_type" (VARCHAR 100) [];
    Col "file_hash" (VARCHAR 64) [];
    Col "document_type" (VARCHAR 50) [];
    Col "category" (VARCHAR 100) [];
    Col "entity_type" (VARCHAR 50) [];
    Col "entity_id" UUID [];
    Col "title" (VARCHAR 255) [];
    Col "description" TEXT [];
    Col "tags" TEXT_ARRAY [];
    Col "is_public" BOOLEAN [DEFAULT (Lit (VBool false))];
    Col "access_level" (VARCHAR 20) [DEFAULT (Lit (VStr "private"))];
    Col "version" INTEGER [DEFAULT (Lit (VInt 1))];
    Col "parent_document_id" UUID [REFERENCES "documents.documents" "uuid"];
    Col "tenant_id" UUID [NOT_NULL; REFERENCES "tenants" "uuid"];
    Col "created_at" TIMESTAMP [DEFAULT CURRENT_TIMESTAMP];
    Col "updated_at" TIMESTAMP [DEFAULT CURRENT_TIMESTAMP];
    Col "created_by" (VARCHAR 100) [];
    Col "updated_by" (VARCHAR 100) [];
    Col "is_active" BOOLEAN [DEFAULT (Lit (VBool true))]
  ].

Definition crm_schema : list table :=
  [ audit_logs_table;
    tenants_table;
    auth_users_table;
    auth_user_roles_table;
    clients_companies_table;
    clients_company_addresses_table;
    clients_contacts_table;
    deals_deals_table;
    deals_deal_activities_table;
    orders_orders_table;
    orders_order_items_table;
    documents_documents_table ].

Definition crm_triggers : list trigger :=
  [ BEFORE_UPDATE "update_tenants_updated_at" "tenants";
    BEFORE_UPDATE "update_users_updated_at" "auth.users";
    BEFORE_UPDATE "update_companies_updated_at" "clients.companies";
    BEFORE_UPDATE "update_company_addresses_updated_at" "clients.company_addresses";
    BEFORE_UPDATE "update_contacts_updated_at" "clients.contacts";
    BEFORE_UPDATE "update_deals_updated_at" "deals.deals";
    BEFORE_UPDATE "update_deal_activities_updated_at" "deals.deal_activities";
    BEFORE_UPDATE "update_orders_updated_at" "orders.orders";
    BEFORE_UPDATE "update_order_items_updated_at" "orders.order_items";
    BEFORE_UPDATE "update_documents_updated_at" "documents.documents";
    BEFORE_UPDATE "update_audit_logs_updated_at" "audit_logs" ].

(** The [CREATE INDEX] statements of the script declare plain (non-unique)
    indexes; they change how rows are found, not which statements are
    accepted, and have no counterpart here. *)

(** ** Rows and database states *)

Abbreviation row := (gmap string value).

Definition get (r : row) (c : string) : value := default VNull (r !! c).

(** A state: the rows of every table, in heap order, and the last value
    handed out by every sequence. *)
Record db := Db {
  db_rows : gmap string (list row);
  db_seq : gmap string Z
}.

Definition empty_db : db := Db ∅ ∅.

Definition rows_of (d : db) (t : string) : list row := default [] (db_rows d !! t).

Definition set_rows (d : db) (t : string) (l : list row) : db :=
  Db (<[t := l]> (db_rows d)) (db_seq d).

(** What a statement reads from its surroundings: the transaction's
    CURRENT_TIMESTAMP and the result of [uuid_generate_v4()]. *)
Record env := Env {
  now : Z;
  random_uuid : N
}.

Definition usec_per_day : Z := 86400000000.

Definition eval_default (e : env) (ex : default_expr) : value :=
  match ex with
  | uuid_generate_v4 => VUuid (random_uuid e)
  | CURRENT_TIMESTAMP => VInt (now e)
  | CURRENT_DATE => VInt (now e / usec_per_day)
  | Lit v => v
  end.

(** ** Type coercion on assignment *)

Definition int4_range (z : Z) : bool := (-2147483648 <=? z) && (z <=? 2147483647).
Definition int8_range (z : Z) : bool :=
  (-9223372036854775808 <=? z) && (z <=? 9223372036854775807).

Definition all_spaces (s : string) : bool :=
  forallb (Ascii.eqb " "%char) (list_ascii_of_string s).

(** Assignment to VARCHAR(n): a longer string is an error unless the
    excess characters are all spaces, in which case it is cut to n. *)
Definition varchar (n : nat) (s : string) : option string :=
  if (String.length s <=? n)%nat then Some s
  else if all_spaces (substring n (String.length s - n) s)
       then Some (substring 0 n s)
       else None.

Definition coerce (ty : sqltype) (v : value) : option value :=
  match v, ty with
  | VNull, _ => Some VNull
  | VInt z, (SERIAL | INTEGER) => if int4_range z then Some v else None
  | VInt z, BIGINT => if int8_range z then Some v else None
  | VInt z, (TIMESTAMP | DATE) => Some v
  | VInt z, DECIMAL p _ => if Z.abs z <? 10 ^ Z.of_nat p then Some v else None
  | VStr s, VARCHAR n => VStr <$> varchar n s
  | VStr s, (TEXT | JSONB | INET) => Some v
  | VBool _, BOOLEAN => Some v
  | VUuid _, UUID => Some v
  | VArr _, TEXT_ARRAY => Some v
  | _, _ => None
  end.

(** A value belongs to a type when assignment stores it unchanged. *)
Definition has_type (ty : sqltype) (v : value) : Prop := coerce ty v = Some v.

(** ** What the constraints of a column mean *)

Definition has_constraint (k : constraint) (c : column) : bool :=
  bool_decide (k ∈ col_constraints c).

Definition is_serial (c : column) : bool :=
  match col_type c with SERIAL => true | _ => false end.

(** SERIAL is [integer NOT NULL DEFAULT nextval(...)]; PRIMARY KEY is
    UNIQUE NOT NULL. *)
Definition is_not_null (c : column) : bool :=
  is_serial c || has_constraint NOT_NULL c || has_constraint PRIMARY_KEY c.

Definition is_unique (c : column) : bool :=
  has_constraint UNIQUE c || has_constraint PRIMARY_KEY c.

Fixpoint first_default (ks : list constraint) : option default_expr :=
  match ks with
  | [] => None
  | DEFAULT ex :: _ => Some ex
  | _ :: rest => first_default rest
  end.

Definition col_default (c : column) : option default_expr :=
  first_default (col_constraints c).

Definition col_references (c : column) : list (string * string) :=
  omap (fun k => match k with REFERENCES t c' => Some (t, c') | _ => None end)
       (col_constraints c).

(** A foreign key: child table and column, referenced table and column. *)
Record fkey := FKey {
  fk_table : string;
  fk_column : string;
  fk_ref_table : string;
  fk_ref_column : string
}.

#[global] Instance fkey_eq_dec : EqDecision fkey.
Proof. solve_decision. Defined.

Definition table_fkeys (T : table) : list fkey :=
  c ← tbl_columns T;
  p ← col_references c;
  [FKey (tbl_name T) (col_name c) p.1 p.2].

Definition foreign_keys (schema : list table) : list fkey :=
  T ← schema; table_fkeys T.

Definition find_table (schema : list table) (t : string) : option table :=
  List.find (fun T => String.eqb (tbl_name T) t) schema.

Definition find_column (T : table) (c : string) : option column :=
  List.find (fun col => String.eqb (col_name col) c) (tbl_columns T).

(** The sequence behind a SERIAL column, named as PostgreSQL names it. *)
Definition seq_name (t c : string) : string := t +:+ "_" +:+ c +:+ "_seq".

Definition last_value (d : db) (s : string) : Z := default 0 (db_seq d !! s).

(** ** Statements and their outcome *)

Inductive error :=
| undefined_table (t : string)
| undefined_column (t c : string)
| duplicate_column (t : string)
| datatype_mismatch (t c : string)
| sequence_exhausted (t c : string)
| not_null_violation (t c : string)
| unique_violation (t c : string)
| foreign_key_violation (t c : string).

Inductive outcome :=
| Done
| Failed (e : error).

(** [INSERT INTO t (c1, ..., cn) VALUES (v1, ..., vn)],
    [UPDATE t SET c1 = e1, ... WHERE w] with the right-hand sides and the
    condition evaluated on the old row, and [DELETE FROM t WHERE w].
    Each statement is its own transaction.  Statements that change the
    schema (ALTER, DROP, TRUNCATE) and the ON CONFLICT clause of INSERT are
    not covered. *)
Inductive stmt :=
| INSERT (t : string) (assigns : list (string * value))
| UPDATE (t : string) (sets : list (string * (row -> value))) (where_ : row -> bool)
| DELETE (t : string) (where_ : row -> bool).

Definition target (s : stmt) : string :=
  match s with
  | INSERT t _ | UPDATE t _ _ | DELETE t _ => t
  end.

(** ** Constraint checks *)

Definition has_key (c : string) (key : value) (l : list row) : Prop :=
  Exists (fun r => get r c = key) l.

(** NOT NULL fails on [c] for the row [r]. *)
Definition null_violation (r : row) (c : column) : Prop :=
  is_not_null c ∧ get r (col_name c) = VNull.

(** UNIQUE fails on [c]: another row holds the same non-null value. *)
Definition duplicate_key (r : row) (others : list row) (c : column) : Prop :=
  is_unique c ∧ get r (col_name c) ≠ VNull
  ∧ has_key (col_name c) (get r (col_name c)) others.

(** The row [r] of the child table satisfies the foreign key [k]. *)
Definition fk_holds (d : db) (k : fkey) (r : row) : Prop :=
  get r (fk_column k) = VNull
  ∨ has_key (fk_ref_column k) (get r (fk_column k)) (rows_of d (fk_ref_table k)).

(** NO ACTION: the key value [key] has left the referenced table although
    a child row still points to it. *)
Definition dangling (d : db) (k : fkey) (key : value) : Prop :=
  key ≠ VNull
  ∧ ¬ has_key (fk_ref_column k) key (rows_of d (fk_ref_table k))
  ∧ has_key (fk_column k) key (rows_of d (fk_table k)).

#[global] Instance has_key_dec c key l : Decision (has_key c key l).
Proof. unfold has_key. apply _. Defined.
#[global] Instance null_violation_dec r c : Decision (null_violation r c).
Proof. unfold null_violation. apply _. Defined.
#[global] Instance duplicate_key_dec r others c : Decision (duplicate_key r others c).
Proof. unfold duplicate_key. apply _. Defined.
#[global] Instance fk_holds_dec d k r : Decision (fk_holds d k r).
Proof. unfold fk_holds. apply _. Defined.
#[global] Instance dangling_dec d k key : Decision (dangling d k key).
Proof. unfold dangling. apply _. Defined.

Definition check_not_null (T : table) (r : row) : option error :=
  (fun p => not_null_violation (tbl_name T) (col_name p.2))
    <$> list_find (null_violation r) (tbl_columns T).

Definition check_unique (T : table) (r : row) (others : list row) : option error :=
  (fun p => unique_violation (tbl_name T) (col_name p.2))
    <$> list_find (duplicate_key r others) (tbl_columns T).

(** Columns are checked for existence and their values coerced, left to
    right. *)
Fixpoint coerce_assigns (T : table) (assigns : list (string * value))
  : error + list (string * value) :=
  match assigns with
  | [] => inr []
  | (c, v) :: rest =>
      match find_column T c with
      | None => inl (undefined_column (tbl_name T) c)
      | Some col =>
          match coerce (col_type col) v with
          | None => inl (datatype_mismatch (tbl_name T) c)
          | Some v' =>
              match coerce_assigns T rest with
              | inl err => inl err
              | inr rest' => inr ((c, v') :: rest')
              end
          end
      end
  end.

(** ** Defaults and sequences *)

(** The value of column [c] in a new row: the supplied one, else
    [nextval] of its sequence for SERIAL, else its DEFAULT, else NULL. *)
Definition column_value (e : env) (d : db) (t : string) (supplied : row) (c : column)
  : value :=
  match supplied !! col_name c with
  | Some v => v
  | None =>
      if is_serial c then VInt (last_value d (seq_name t (col_name c)) + 1)
      else match col_default c with
           | Some ex => eval_default e ex
           | None => VNull
           end
  end.

Definition new_row (e : env) (d : db) (T : table) (supplied : row) : row :=
  list_to_map ((fun c => (col_name c, column_value e d (tbl_name T) supplied c))
                 <$> tbl_columns T).

(** [nextval] was called for [c]. *)
Definition draws_sequence (supplied : row) (c : column) : Prop :=
  is_serial c ∧ supplied !! col_name c = None.

#[global] Instance draws_sequence_dec supplied c : Decision (draws_sequence supplied c).
Proof. unfold draws_sequence. apply _. Defined.

(** A SERIAL sequence is an integer sequence: it stops at 2^31 - 1. *)
Definition check_sequences (T : table) (supplied : row) (d : db) : option error :=
  (fun p => sequence_exhausted (tbl_name T) (col_name p.2))
    <$> list_find (fun c => draws_sequence supplied c
                     ∧ 2147483647 <= last_value d (seq_name (tbl_name T) (col_name c)))
          (tbl_columns T).

(** Sequences advance when [nextval] is called, and stay advanced when the
    statement fails afterwards. *)
Definition advance_sequences (T : table) (supplied : row) (d : db) : db :=
  foldr (fun c d' =>
           if decide (draws_sequence supplied c)
           then let s := seq_name (tbl_name T) (col_name c) in
                Db (db_rows d') (<[s := last_value d' s + 1]> (db_seq d'))
           else d')
        d (tbl_columns T).

Notation "'check' c 'orelse' d ; k" :=
  (match c with Some err => (d, Failed err) | None => k end)
  (at level 100, c at level 10, d at level 10, k at level 200, only parsing).

Section Semantics.

Variable schema : list table.
Variable triggers : list trigger.

Definition check_child_fkeys (t : string) (d : db) (news : list row) : option error :=
  (fun p => foreign_key_violation (fk_table p.2) (fk_column p.2))
    <$> list_find (fun k => fk_table k = t ∧ Exists (fun r => ¬ fk_holds d k r) news)
          (foreign_keys schema).

Definition check_parent_fkeys (t : string) (d : db) (olds : list row) : option error :=
  (fun p => foreign_key_violation (fk_table p.2) (fk_column p.2))
    <$> list_find (fun k => fk_ref_table k = t
                     ∧ Exists (fun r => dangling d k (get r (fk_ref_column k))) olds)
          (foreign_keys schema).

(** *** INSERT *)

Definition exec_insert (e : env) (t : string) (assigns : list (string * value)) (d : db)
  : db * outcome :=
  match find_table schema t with
  | None => (d, Failed (undefined_table t))
  | Some T =>
      if decide (NoDup assigns.*1) then
        match coerce_assigns T assigns with
        | inl err => (d, Failed err)
        | inr vals =>
            let supplied : row := list_to_map vals in
            check check_sequences T supplied d orelse d;
            let r := new_row e d T supplied in
            let d1 := advance_sequences T supplied d in
            check check_not_null T r orelse d1;
            check check_unique T r (rows_of d t) orelse d1;
            let d2 := set_rows d1 t (rows_of d t ++ [r]) in
            check check_child_fkeys t d2 [r] orelse d1;
            (d2, Done)
        end
      else (d, Failed (duplicate_column t))
  end.

(** *** UPDATE *)

(** [update_updated_at_column()]: NEW.updated_at = CURRENT_TIMESTAMP. *)
Definition update_updated_at_column (e : env) (new : row) : row :=
  <["updated_at" := VInt (now e)]> new.

Definition fire_before_update (e : env) (t : string) (new : row) : row :=
  if decide (Exists (fun g => trg_table g = t) triggers)
  then update_updated_at_column e new
  else new.

Definition new_version (e : env) (T : table) (sets : list (string * (row -> value)))
    (old : row) : error + row :=
  match coerce_assigns T ((fun p => (p.1, p.2 old)) <$> sets) with
  | inl err => inl err
  | inr vals => inr (fire_before_update e (tbl_name T) (list_to_map vals ∪ old))
  end.

(** Rows are visited in heap order; NOT NULL and UNIQUE are checked for
    each new version as it is written, against the rows as they stand at
    that moment. *)
Fixpoint update_rows (e : env) (T : table) (sets : list (string * (row -> value)))
    (where_ : row -> bool) (done todo : list row)
  : error + (list row * list (row * row)) :=
  match todo with
  | [] => inr (done, [])
  | r :: rest =>
      if where_ r then
        match new_version e T sets r with
        | inl err => inl err
        | inr r' =>
            match check_not_null T r' with
            | Some err => inl err
            | None =>
                match check_unique T r' (done ++ rest) with
                | Some err => inl err
                | None =>
                    match update_rows e T sets where_ (done ++ [r']) rest with
                    | inl err => inl err
                    | inr (final, changed) => inr (final, (r, r') :: changed)
                    end
                end
            end
        end
      else update_rows e T sets where_ (done ++ [r]) rest
  end.

Definition exec_update (e : env) (t : string) (sets : list (string * (row -> value)))
    (where_ : row -> bool) (d : db) : db * outcome :=
  match find_table schema t with
  | None => (d, Failed (undefined_table t))
  | Some T =>
      if decide (NoDup sets.*1) then
        match list_find (fun c => find_column T c = None) sets.*1 with
        | Some (_, c) => (d, Failed (undefined_column t c))
        | None =>
            match update_rows e T sets where_ [] (rows_of d t) with
            | inl err => (d, Failed err)
            | inr (final, changed) =>
                let d' := set_rows d t final in
                check check_child_fkeys t d' changed.*2 orelse d;
                check check_parent_fkeys t d' changed.*1 orelse d;
                (d', Done)
            end
        end
      else (d, Failed (duplicate_column t))
  end.

(** *** DELETE *)

Definition exec_delete (t : string) (where_ : row -> bool) (d : db) : db * outcome :=
  match find_table schema t with
  | None => (d, Failed (undefined_table t))
  | Some T =>
      let rows := rows_of d t in
      let d' := set_rows d t (filter (fun r => ¬ where_ r) rows) in
      check check_parent_fkeys t d' (filter (fun r => where_ r) rows) orelse d;
      (d', Done)
  end.

(** *** Statements and traces *)

Definition exec (e : env) (s : stmt) (d : db) : db * outcome :=
  match s with
  | INSERT t assigns => exec_insert e t assigns d
  | UPDATE t sets where_ => exec_update e t sets where_ d
  | DELETE t where_ => exec_delete t where_ d
  end.

(** The state after a sequence of statements, each with its own
    surroundings; a failed statement leaves the rows as they were. *)
Definition run (trace : list (env * stmt)) (d : db) : db :=
  fold_left (fun d' p => (exec p.1 p.2 d').1) trace d.

End Semantics.

(** ** The CRM database *)

Definition crm_exec : env -> stmt -> db -> db * outcome := exec crm_schema crm_triggers.
Definition crm_run : list (env * stmt) -> db -> db := run crm_schema crm_triggers.

(** ** Consistency of a state with the schema *)

#[global] Instance sqltype_eq_dec : EqDecision sqltype.
Proof. solve_decision. Defined.

(** The non-null values of column [c], row by row. *)
Definition keys (c : string) (l : list row) : list value :=
  filter (fun v => v ≠ VNull) ((fun r => get r c) <$> l).

(** The row satisfies the NOT NULL constraints and the column types of
    its table. *)
Definition row_ok (T : table) (r : row) : Prop :=
  forall c, c ∈ tbl_columns T ->
    (is_not_null c -> get r (col_name c) ≠ VNull)
    ∧ has_type (col_type c) (get r (col_name c)).

Record consistent (schema : list table) (d : db) : Prop := Consistent {
  cons_rows : forall T r,
    T ∈ schema -> r ∈ rows_of d (tbl_name T) -> row_ok T r;
  cons_unique : forall T c,
    T ∈ schema -> c ∈ tbl_columns T -> is_unique c ->
    NoDup (keys (col_name c) (rows_of d (tbl_name T)));
  cons_fkeys : forall k r,
    k ∈ foreign_keys schema -> r ∈ rows_of d (fk_table k) -> fk_holds d k r;
  cons_seq : forall s, 0 <= last_value d s
}.

(** ** Well-formedness of a schema *)

(** The DEFAULT of a column has the column's type. *)
Definition default_typed (c : column) : Prop :=
  match col_default c with
  | None => True
  | Some uuid_generate_v4 => col_type c = UUID
  | Some CURRENT_TIMESTAMP => col_type c = TIMESTAMP
  | Some CURRENT_DATE => col_type c = DATE
  | Some (Lit v) => has_type (col_type c) v
  end.

#[global] Instance has_type_dec ty v : Decision (has_type ty v).
Proof. unfold has_type. apply _. Defined.
#[global] Instance default_typed_dec c : Decision (default_typed c).
Proof. unfold default_typed. destruct (col_default c) as [[]|]; apply _. Defined.

(** A table with the timestamp trigger has a TIMESTAMP column
    [updated_at] for it to assign. *)
Definition trigger_typed (triggers : list trigger) (T : table) : Prop :=
  Exists (fun g => trg_table g = tbl_name T) triggers ->
  Forall (fun c => col_name c = "updated_at" -> col_type c = TIMESTAMP) (tbl_columns T).

#[global] Instance trigger_typed_dec triggers T : Decision (trigger_typed triggers T).
Proof. unfold trigger_typed. apply _. Defined.

Definition wf_schema (schema : list table) (triggers : list trigger) : Prop :=
  NoDup (tbl_name <$> schema)
  ∧ Forall (fun T => NoDup (col_name <$> tbl_columns T)) schema
  ∧ Forall (fun T => Forall default_typed (tbl_columns T)) schema
  ∧ Forall (trigger_typed triggers) schema.

#[global] Instance wf_schema_dec schema triggers : Decision (wf_schema schema triggers).
Proof. unfold wf_schema. apply _. Defined.

(** ** Sample statements, in the shape of 02_seed_data.sql *)

Definition clock (t : Z) : env := Env t 0.

Definition insert_tenant (uuid : N) (name slug : string) : stmt :=
  INSERT "tenants" [("uuid", VUuid uuid); ("name", VStr name); ("slug", VStr slug)].

Definition insert_company (uuid : N) (name : string) (tenant : N) : stmt :=
  INSERT "clients.companies"
    [("uuid", VUuid uuid); ("name", VStr name); ("tenant_id", VUuid tenant)].

Definition insert_contact (uuid company : N) (first_name last_name : string)
    (is_primary : bool) (tenant : N) : stmt :=
  INSERT "clients.contacts"
    [("uuid", VUuid uuid); ("company_id", VUuid company);
     ("first_name", VStr first_name); ("last_name", VStr last_name);
     ("is_primary", VBool is_primary); ("tenant_id", VUuid tenant)].

Definition insert_deal (uuid : N) (title : string) (company : N) (stage : string)
    (probability : Z) (tenant : N) : stmt :=
  INSERT "deals.deals"
    [("uuid", VUuid uuid); ("title", VStr title); ("company_id", VUuid company);
     ("stage", VStr stage); ("probability", VInt probability);
     ("tenant_id", VUuid tenant)].

Definition insert_order (uuid : N) (order_number : string) (deal : value)
    (company tenant : N) : stmt :=
  INSERT "orders.orders"
    [("uuid", VUuid uuid); ("order_number", VStr order_number); ("deal_id", deal);
     ("company_id", VUuid company); ("tenant_id", VUuid tenant)].

Definition insert_audit_log (entity_type : string) (entity_id : N) (action : string)
    (tenant : N) : stmt :=
  INSERT "audit_logs"
    [("entity_type", VStr entity_type); ("entity_id", VUuid entity_id);
     ("action", VStr action); ("tenant_id", VUuid tenant)].

(** Two tenants, and two companies of the first one. *)
Definition two_tenants : list (env * stmt) :=
  [ (clock 100, insert_tenant 1 "Dakahlia Agricultural Development Co." "dakahlia-agri");
    (clock 101, insert_tenant 2 "Demo Export Company" "demo-export");
    (clock 102, insert_company 10 "Gulf Fresh Foods LLC" 1);
    (clock 103, insert_company 11 "Saudi Agricultural Imports" 1) ].

Definition uuid_is (u : N) (r : row) : bool := bool_decide (get r "uuid" = VUuid u).

(** [UPDATE clients.companies SET tenant_id = <tenant 2> WHERE uuid = <company 10>] *)
Definition move_company : stmt :=
  UPDATE "clients.companies" [("tenant_id", fun _ => VUuid 2)] (uuid_is 10).

(** [UPDATE audit_logs SET is_active = FALSE] and [DELETE FROM audit_logs] *)
Definition deactivate_audit_logs : stmt :=
  UPDATE "audit_logs" [("is_active", fun _ => VBool false)] (fun _ => true).

Definition delete_audit_logs : stmt := DELETE "audit_logs" (fun _ => true).

(** The columns of a table, row by row. *)
Definition project (cs : list string) (l : list row) : list (list value) :=
  (fun r => (fun c => get r c) <$> cs) <$> l.

(** The tables the spec calls tenant-scoped: all but [tenants]. *)
Definition tenant_scoped_tables : list string :=
  [ "auth.users"; "auth.user_roles"; "clients.companies";
    "clients.company_addresses"; "clients.contacts"; "deals.deals";
    "deals.deal_activities"; "orders.orders"; "orders.order_items";
    "documents.documents"; "audit_logs" ].

(** One audit row on top of [two_tenants]. *)
Definition one_audit_log : list (env * stmt) :=
  two_tenants ++ [ (clock 106, insert_audit_log "deal" 30 "create" 1) ].

(** A deal of company 10 on top of [two_tenants]. *)
Definition one_deal : list (env * stmt) :=
  two_tenants ++ [ (clock 104, insert_deal 30 "Fresh Vegetables Supply Contract" 10 "negotiation" 75 1) ].

(** The primary contacts of a company. *)
Definition primary_contacts (d : db) (company : value) : list row :=
  filter (fun r => get r "company_id" = company ∧ get r "is_primary" = VBool true)
         (rows_of d "clients.contacts").

(** Two contacts of company 10, both marked primary. *)
Definition two_contacts : list (env * stmt) :=
  two_tenants
  ++ [ (clock 104, insert_contact 20 10 "Mohammed" "Al-Rashid" true 1);
       (clock 105, insert_contact 21 10 "Abdullah" "Al-Saud" true 1) ].

(** An order without a deal. *)
Definition one_order : list (env * stmt) :=
  two_tenants ++ [ (clock 104, insert_order 40 "ORD-2025-001" VNull 10 1) ].

(** A contact of company 10 inserted without [is_primary], and a deal
    inserted without stage and probability. *)
Definition contact_without_primary : list (string * value) :=
  [("uuid", VUuid 22); ("company_id", VUuid 10);
   ("first_name", VStr "Fatima"); ("last_name", VStr "Al-Sabah");
   ("tenant_id", VUuid 1)].

Definition deal_without_stage : list (string * value) :=
  [("uuid", VUuid 31); ("title", VStr "Organic Produce Partnership");
   ("company_id", VUuid 10); ("tenant_id", VUuid 1)].

(** [INSERT INTO tenants (name, slug) VALUES (name, slug)]: a tenant created
    with its two mandatory columns, everything else left to the defaults. *)
Definition create_tenant (name slug : string) : stmt :=
  INSERT "tenants" [("name", VStr name); ("slug", VStr slug)].

(** The row that statement builds. *)
Definition tenant_row (e : env) (d : db) (name slug : string) : row :=
  new_row e d tenants_table (list_to_map [("name", VStr name); ("slug", VStr slug)]).

(** [UPDATE clients.companies SET name = 'Gulf Fresh Foods' WHERE uuid = <company 10>] *)
Definition rename_company : stmt :=
  UPDATE "clients.companies" [("name", fun _ => VStr "Gulf Fresh Foods")] (uuid_is 10).

(** ** Further sample data *)

(** The row at position [i] of a table. *)
Definition row_at (d : db) (t : string) (i : nat) : row :=
  default ∅ (rows_of d t !! i).

(** [clients.companies.tenant_id REFERENCES tenants(uuid)] *)
Definition company_tenant : fkey :=
  FKey "clients.companies" "tenant_id" "tenants" "uuid".

(** A company inserted with nothing but its mandatory columns. *)
Definition company_with_defaults : list (string * value) :=
  [("name", VStr "Kuwait Wholesale Market"); ("tenant_id", VUuid 1)].

(* ===================================================================== *)
(** * Part I, continued: the other helpers of utils.js *)
(* ===================================================================== *)

(** The helpers that go through [Intl], [clsx]/[twMerge], [Math.random]
    or [toFixed] ([formatCurrency], [formatDate], [formatDateTime],
    [formatNumber], [cn], [generateId], [formatPercentage]) depend on the
    host's locale data, on other packages and on floating point and are
    not embedded. *)

(** ** Case conversion *)

(** A character stands for a code unit below 256 (Latin-1).
    [String.prototype.toLowerCase] maps A-Z and the capital letters
    U+00C0-U+00DE (but the sign U+00D7) to the letter 32 places up and
    leaves every other such code unit as it is. *)
Definition to_lower_char (c : ascii) : ascii :=
  let n := nat_of_ascii c in
  if ((65 <=? n) && (n <=? 90) || (192 <=? n) && (n <=? 222) && negb (n =? 215))%nat
  then ascii_of_nat (n + 32)
  else c.

Fixpoint toLowerCase (s : string) : string :=
  match s with
  | EmptyString => EmptyString
  | String c rest => String (to_lower_char c) (toLowerCase rest)
  end.



(** ** getInitials *)



(** ** getStatusColor *)

(** The property names every object inherits from [Object.prototype]. *)
Definition object_prototype_members : list string :=
  [ "constructor"; "__defineGetter__"; "__defineSetter__"; "hasOwnProperty";
    "__lookupGetter__"; "__lookupSetter__"; "isPrototypeOf";
    "propertyIsEnumerable"; "toString"; "valueOf"; "__proto__";
    "toLocaleString" ].

(** The object literal [statusColors], in source order. *)
Definition statusColors : list (string * string) :=
  [ ("lead", "bg-gray-100 text-gray-800");
    ("qualified", "bg-blue-100 text-blue-800");
    ("proposal", "bg-yellow-100 text-yellow-800");
    ("negotiation", "bg-orange-100 text-orange-800");
    ("won", "bg-green-100 text-green-800");
    ("lost", "bg-red-100 text-red-800");
    ("pending", "bg-gray-100 text-gray-800");
    ("confirmed", "bg-blue-100 text-blue-800");
    ("processing", "bg-yellow-100 text-yellow-800");
    ("shipped", "bg-purple-100 text-purple-800");
    ("delivered", "bg-green-100 text-green-800");
    ("cancelled", "bg-red-100 text-red-800");
    ("paid", "bg-green-100 text-green-800");
    ("partial", "bg-yellow-100 text-yellow-800");
    ("overdue", "bg-red-100 text-red-800");
    ("low", "bg-gray-100 text-gray-800");
    ("medium", "bg-yellow-100 text-yellow-800");
    ("high", "bg-orange-100 text-orange-800");
    ("urgent", "bg-red-100 text-red-800");
    ("default", "bg-gray-100 text-gray-800") ].

(** What reading a property of [statusColors] can give: one of its
    strings, or a member inherited from [Object.prototype] (a function,
    or the prototype itself for [__proto__]). *)
Inductive member :=
| Classes (s : string)
| Inherited (name : string).

Fixpoint own_property (k : string) (props : list (string * string)) : option string :=
  match props with
  | [] => None
  | (k', v) :: rest => if String.eqb k k' then Some v else own_property k rest
  end.

(** [statusColors[k]]; [None] is [undefined]. *)
Definition statusColors_get (k : string) : option member :=
  match own_property k statusColors with
  | Some s => Some (Classes s)
  | None =>
      if bool_decide (k ∈ object_prototype_members) then Some (Inherited k) else None
  end.

(** [x || y]: [undefined] and the empty string are falsy. *)
Definition or_else (x : option member) (y : option member) : option member :=
  match x with
  | None | Some (Classes EmptyString) => y
  | Some _ => x
  end.

(** [export function getStatusColor(status)], for a status that is a
    string, [null] or [undefined]: [status?.toLowerCase()] is then a string
    or [undefined], and [undefined] as a property name is "undefined". *)
Definition getStatusColor (status : option string) : option member :=
  let key := match status with Some s => toLowerCase s | None => "undefined" end in
  or_else (statusColors_get key) (statusColors_get "default").

(** ** isValidEmail *)

(** Regular expressions over code units, matched by derivatives. *)
Inductive regex :=
| Never
| Epsilon
| Class (p : ascii -> bool)
| Seq (r1 r2 : regex)
| Alt (r1 r2 : regex)
| Star (r : regex).

(** [r+] *)
Definition Plus (r : regex) : regex := Seq r (Star r).

Fixpoint nullable (r : regex) : bool :=
  match r with
  | Never => false
  | Epsilon => true
  | Class _ => false
  | Seq r1 r2 => nullable r1 && nullable r2
  | Alt r1 r2 => nullable r1 || nullable r2
  | Star _ => true
  end.

Fixpoint derive (c : ascii) (r : regex) : regex :=
  match r with
  | Never | Epsilon => Never
  | Class p => if p c then Epsilon else Never
  | Seq r1 r2 =>
      if nullable r1 then Alt (Seq (derive c r1) r2) (derive c r2)
      else Seq (derive c r1) r2
  | Alt r1 r2 => Alt (derive c r1) (derive c r2)
  | Star r1 => Seq (derive c r1) (Star r1)
  end.

(** [/^r$/.test(s)]: the whole string matches. *)
Definition regex_test (r : regex) (s : list ascii) : bool :=
  nullable (fold_left (fun r' c => derive c r') s r).

(** [\s] on code units below 256: tab, line feed, vertical tab, form
    feed, carriage return, space and no-break space. *)
Definition is_space (c : ascii) : bool :=
  let n := nat_of_ascii c in
  ((9 <=? n) && (n <=? 13) || (n =? 32) || (n =? 160))%nat.

(** [[^\s@]] *)
Definition not_space_at (c : ascii) : bool :=
  negb (is_space c) && negb (Ascii.eqb c "@"%char).

(** [/^[^\s@]+@[^\s@]+\.[^\s@]+$/] *)
Definition emailRegex : regex :=
  Seq (Plus (Class not_space_at))
    (Seq (Class (Ascii.eqb "@"%char))
       (Seq (Plus (Class not_space_at))
          (Seq (Class (Ascii.eqb "."%char))
             (Plus (Class not_space_at))))).

(** [export function isValidEmail(email)] *)
Definition isValidEmail (email : string) : bool :=
  regex_test emailRegex (list_ascii_of_string email).

(** The strings a regular expression stands for. *)
Inductive matches : regex -> list ascii -> Prop :=
| matches_epsilon : matches Epsilon []
| matches_class p c : p c = true -> matches (Class p) [c]
| matches_seq r1 r2 s1 s2 : matches r1 s1 -> matches r2 s2 -> matches (Seq r1 r2) (s1 ++ s2)
| matches_alt_l r1 r2 s : matches r1 s -> matches (Alt r1 r2) s
| matches_alt_r r1 r2 s : matches r2 s -> matches (Alt r1 r2) s
| matches_star_nil r : matches (Star r) []
| matches_star_app r s1 s2 :
    matches r s1 -> matches (Star r) s2 -> matches (Star r) (s1 ++ s2).

(** ** calculateDaysAgo *)

Definition ms_per_day : Z := 1000 * 60 * 60 * 24.

(** [Math.ceil(x / y)] for integers [x >= 0] and [y > 0]. *)
Definition ceil_div (x y : Z) : Z := (x + y - 1) / y.

(** [export function calculateDaysAgo(date)], on time values: [now] is
    that of [new Date()] and [target] that of [new Date(date)], a valid
    date.  Time values are integers of milliseconds, and for two of them
    less than 2^53 ms apart (any valid date seen from a present-day clock)
    the quotients below are those the floating-point operations give. *)
Definition calculateDaysAgo (now target : Z) : string :=
  let diffTime := Z.abs (now - target) in
  let diffDays := ceil_div diffTime ms_per_day in
  if diffDays =? 0 then "Today"
  else if diffDays =? 1 then "1 day ago"
  else if diffDays <? 7 then pretty diffDays +:+ " days ago"
  else if diffDays <? 30 then pretty (diffDays / 7) +:+ " weeks ago"
  else if diffDays <? 365 then pretty (diffDays / 30) +:+ " months ago"
  else pretty (diffDays / 365) +:+ " years ago".

(** ** groupBy *)

Definition join_comma (l : list string) : string :=
  match l with
  | [] => ""
  | s :: rest => fold_left (fun acc x => acc +:+ "," +:+ x) rest s
  end.

(** The property name a value is turned into when it is used as a key:
    strings as they are, integers (below 10^21 in size) in decimal, [undefined], [null] and the
    booleans by name, an array by joining its elements with commas
    ([null] and [undefined] elements give the empty string), any other
    object "[object Object]". *)
Fixpoint to_property_key (v : jsval) : string :=
  match v with
  | JUndefined => "undefined"
  | JNull => "null"
  | JBool true => "true"
  | JBool false => "false"
  | JNum z => pretty z
  | JStr s => s
  | JArr elems =>
      join_comma
        ((fix each (l : list jsval) : list string :=
            match l with
            | [] => []
            | (JUndefined | JNull) :: rest => "" :: each rest
            | x :: rest => to_property_key x :: each rest
            end) elems)
  | JObj _ => "[object Object]"
  end.

(** The group an item falls into. *)
Definition group_of (key : string) (item : jsval) : string :=
  to_property_key (path_value key item).

(** One round of the reducer:
    [groups[group] = groups[group] || []; groups[group].push(item)].
    [groups] starts as [{}], so a name inherited from [Object.prototype]
    reads as a function (or the prototype), which is truthy and has no
    [push]: the call throws a TypeError, here [None]. *)
Definition groupBy_step (key : string) (groups : option (gmap string (list jsval)))
    (item : jsval) : option (gmap string (list jsval)) :=
  match groups with
  | None => None
  | Some g =>
      let group := group_of key item in
      match g !! group with
      | Some items => Some (<[group := items ++ [item]]> g)
      | None =>
          if bool_decide (group ∈ object_prototype_members) then None
          else Some (<[group := [item]]> g)
      end
  end.

(** [export function groupBy(array, key)].  The result maps each group
    name to its array; the order in which an object lists its properties
    is not represented.  As for [sortBy], the key path names data
    properties of the items, not members inherited from a prototype. *)
Definition groupBy (array : list jsval) (key : string)
  : option (gmap string (list jsval)) :=
  fold_left (groupBy_step key) array (Some ∅).

(** The items of [array] that fall into group [k], in their order. *)
Definition group_items (key k : string) (array : list jsval) : list jsval :=
  filter (fun item => group_of key item = k) array.

(** An object reads a property it does not have as [undefined]: a group
    is there only when it has items. *)
Definition present (items : list jsval) : option (list jsval) :=
  match items with
  | [] => None
  | _ => Some items
  end.

Definition three_deals : list jsval :=
  [ JObj [("title", JStr "Fresh Vegetables"); ("stage", JStr "negotiation"); ("value", JNum 3)];
    JObj [("title", JStr "Citrus Fruits"); ("stage", JStr "proposal"); ("value", JNum 1)];
    JObj [("title", JStr "Organic Produce"); ("stage", JStr "negotiation"); ("value", JNum 2)] ].

Definition deals_heap : heap := {[1%positive := three_deals]}.

Definition deals_by_stage : gmap string (list jsval) :=
  {[ "negotiation" := group_items "stage" "negotiation" three_deals;
     "proposal" := group_items "stage" "proposal" three_deals ]}.

(** A part of an address, as code units and as a string: not empty, and
    no unit of it is white space or "@". *)
Definition units_part (s : list ascii) : Prop :=
  s <> [] ∧ Forall (fun c => not_space_at c = true) s.

Definition address_part (s : string) : Prop :=
  s <> "" ∧ Forall (fun c => is_space c = false ∧ c <> "@"%char) (list_ascii_of_string s).

(** ** debounce *)

(** [export function debounce(func, wait)].  The host's timers are a
    table of pending one-shot timers, each with the time from which it
    may fire and the callback it runs; every callback registered here is
    [later] with the arguments of one call, so a timer holds those.
    [setTimeout] hands out a new identifier and treats a negative delay
    as 0; [clearTimeout] of an identifier that is not pending, or of
    [undefined], does nothing.  The closure's variable [timeout] and the
    invocations of [func] so far (with their times) complete the state. *)
Section Debounce.

Variable A : Type.
Variable wait : Z.

Record debounced := Debounced {
  timers : gmap positive (Z * A);
  timeout : option positive;
  next_timer : positive;
  invoked : list (Z * A)
}.

Definition debounce : debounced := Debounced ∅ None 1%positive [].

Definition clearTimeout (id : option positive) (pending : gmap positive (Z * A))
  : gmap positive (Z * A) :=
  match id with
  | Some i => delete i pending
  | None => pending
  end.

(** [executedFunction(...args)] called at time [t]:
    [clearTimeout(timeout); timeout = setTimeout(later, wait)]. *)
Definition executedFunction (t : Z) (args : A) (s : debounced) : debounced :=
  let id := next_timer s in
  Debounced (<[id := (t + Z.max 0 wait, args)]> (clearTimeout (timeout s) (timers s)))
            (Some id) (Pos.succ id) (invoked s).

(** [later = () => { clearTimeout(timeout); func(...args) }], run at [t]. *)
Definition later (t : Z) (args : A) (s : debounced) : debounced :=
  Debounced (clearTimeout (timeout s) (timers s)) (timeout s) (next_timer s)
            (invoked s ++ [(t, args)]).

(** What happens to a debounced function: it is called, or the host
    fires the timer [id].  [func] is taken not to call the debounced
    function itself. *)
Inductive event :=
| Call (t : Z) (args : A)
| Fire (t : Z) (id : positive).

(** A timer fires only while it is pending and not before it is due; it
    leaves the table before its callback runs. *)
Definition step (s : debounced) (ev : event) : option debounced :=
  match ev with
  | Call t args => Some (executedFunction t args s)
  | Fire t id =>
      match timers s !! id with
      | Some (due, args) =>
          if due <=? t
          then Some (later t args
                       (Debounced (delete id (timers s)) (timeout s) (next_timer s)
                                  (invoked s)))
          else None
      | None => None
      end
  end.

Definition play (events : list event) : option debounced :=
  fold_left (fun s ev => s ≫= fun s' => step s' ev) events (Some debounce).

(** What is pending after a history: nothing, unless its last event is a
    call; then the one timer of that call, under the identifier that
    [timeout] holds. *)
Definition pending_of (events : list event) (s : debounced) : Prop :=
  (timers s = ∅ ∧ forall pre t args, events <> pre ++ [Call t args])
  ∨ exists pre t args id,
      events = pre ++ [Call t args]
      ∧ timeout s = Some id
      ∧ timers s = {[ id := (t + Z.max 0 wait, args) ]}.

(** The arguments of the calls of a history, in order. *)
Definition call_args (events : list event) : list A :=
  omap (fun ev => match ev with Call _ args => Some args | Fire _ _ => None end) events.

End Debounce.

Arguments Call {A} t args.
Arguments Fire {A} t id.
Arguments timers {A} _.
Arguments timeout {A} _.
Arguments next_timer {A} _.
Arguments invoked {A} _.

(** Typing "a", "ab" within 300 ms, then a pause. *)
Definition typing : list (event string) := [Call 0 "a"; Call 100 "ab"].

(* ===================================================================== *)
(** * Part III: properties of utils.js *)
(* ===================================================================== *)

(** ** truncateText *)

Lemma length_append (s1 s2 : string) :
  String.length (s1 +:+ s2) = (String.length s1 + String.length s2)%nat.
Proof. induction s1 as [|a s1 IH]; simpl; [done | by rewrite IH]. Qed.

Lemma length_substring_prefix (n : nat) (s : string) :
  (n <= String.length s)%nat -> String.length (substring 0 n s) = n.
Proof.
  revert n. induction s as [|a s IH]; intros [|n] Hn; simpl in *; try done; try lia.
  rewrite IH; [done | lia].
Qed.

Lemma js_slice_prefix (s : string) (m : Z) :
  0 <= m <= js_length s -> js_slice s 0 m = substring 0 (Z.to_nat m) s.
Proof.
  intros Hm. unfold js_slice. simpl.
  destruct (m <? 0) eqn:Hneg; [lia |].
  rewrite Z.min_l by (unfold js_length; lia).
  rewrite Z.min_l by lia.
  replace (m - 0) with m by lia. rewrite Z.max_l by lia. reflexivity.
Qed.

Example truncateText_short : truncateText "Gulf Fresh Foods LLC" None = "Gulf Fresh Foods LLC".
Proof. reflexivity. Qed.

Example truncateText_long : truncateText "Gulf Fresh Foods LLC" (Some 4) = "Gulf...".
Proof. reflexivity. Qed.

Example path_value_nested :
  path_value "company.name" (JObj [("company", JObj [("name", JStr "Acme")])]) = JStr "Acme"
  /\ path_value "company.name" (JObj [("company", JNull)]) = JUndefined
  /\ path_value "tags.1" (JObj [("tags", JArr [JStr "a"; JStr "b"])]) = JStr "b".
Proof. repeat split; reflexivity. Qed.

(** C10, as stated: a negative [maxLength] is a counterexample.  The
    comparison fails, [slice(0, -2)] drops the last two characters, and the
    result "hel..." has six characters, not [maxLength + 3 = 1]. *)
Lemma truncateText_negative_maxLength :
  js_length "hello" > -2
  /\ truncateText "hello" (Some (-2)) = "hel..."
  /\ js_length (truncateText "hello" (Some (-2))) <> -2 + 3.
Proof. vm_compute. split; [done | split; [done | discriminate]]. Qed.

(** C10, amended: for every string [text] and every non-negative integer
    [maxLength], [truncateText] returns [text] itself when
    [text.length <= maxLength], and otherwise the first [maxLength]
    characters of [text] followed by "...", of length exactly
    [maxLength + 3]; with the default of 50 the result never exceeds 53
    characters. *)
Theorem truncateText_spec (text : string) (maxLength : Z) :
  0 <= maxLength ->
  (js_length text <= maxLength -> truncateText text (Some maxLength) = text)
  /\ (maxLength < js_length text ->
      truncateText text (Some maxLength)
        = substring 0 (Z.to_nat maxLength) text +:+ "..."
      /\ js_length (truncateText text (Some maxLength)) = maxLength + 3)
  /\ js_length (truncateText text None) <= 53.
Proof.
  intros Hm. split; [| split].
  - intros Hle. unfold truncateText. simpl.
    destruct (js_length text <=? maxLength) eqn:E; [done | lia].
  - intros Hlt. unfold truncateText. simpl.
    destruct (js_length text <=? maxLength) eqn:E; [lia |].
    rewrite js_slice_prefix by lia. split; [done |].
    unfold js_length in *. rewrite length_append, length_substring_prefix by lia.
    simpl. lia.
  - unfold truncateText. simpl.
    destruct (js_length text <=? 50) eqn:E; [lia |].
    rewrite js_slice_prefix by lia.
    unfold js_length in *. rewrite length_append, length_substring_prefix by lia.
    simpl. lia.
Qed.

Lemma truncateText_spec_witness :
  0 <= 2
  /\ truncateText "hello" (Some 2) = substring 0 (Z.to_nat 2) "hello" +:+ "..."
  /\ js_length (truncateText "hello" (Some 2)) = 2 + 3.
Proof.
  split; [lia |].
  apply (truncateText_spec "hello" 2); [lia | vm_compute; reflexivity].
Defined.

(** ** sortBy *)

Section SortByProperties.

Variable js_lt : jsval -> jsval -> bool.

Lemma sort_insert_perm cmp x l : sort_insert cmp x l ≡ₚ x :: l.
Proof.
  induction l as [|y l IH]; simpl; [done |].
  destruct (cmp x y <? 0); [done |].
  rewrite IH. apply Permutation_swap.
Qed.

Lemma insertion_sort_perm cmp l : insertion_sort cmp l ≡ₚ l.
Proof.
  unfold insertion_sort.
  assert (H : forall acc, fold_left (fun acc x => sort_insert cmp x acc) l acc ≡ₚ acc ++ l).
  { induction l as [|x l IH]; intros acc; simpl.
    - by rewrite app_nil_r.
    - rewrite IH, sort_insert_perm. simpl. apply Permutation_middle. }
  apply H.
Qed.

Lemma js_sort_perm cmp l : js_sort cmp l ≡ₚ l.
Proof.
  unfold js_sort. rewrite insertion_sort_perm, Permutation_app_comm.
  apply (filter_app_complement (fun v => Is_true (is_undefined v))).
Qed.

(** C9: [sortBy] never fails on an array, returns a new array object
    distinct from its argument whose elements are a permutation of the
    argument's, and leaves the argument (and every other array of the
    store) exactly as it was. *)
Theorem sortBy_frame (h : heap) (array : loc) (elems : list jsval)
    (key : string) (direction : option string) :
  h !! array = Some elems ->
  exists h' result sorted,
    sortBy js_lt h array key direction = Some (h', result)
    /\ result <> array
    /\ h' !! array = Some elems
    /\ h' !! result = Some sorted
    /\ sorted ≡ₚ elems
    /\ forall a, a <> result -> h' !! a = h !! a.
Proof.
  intros Harr. unfold sortBy, spread. rewrite Harr. simpl.
  set (copy := fresh (dom h)).
  assert (Hfresh : h !! copy = None).
  { apply not_elem_of_dom. apply is_fresh. }
  assert (Hne : copy <> array) by congruence.
  unfold array_sort. rewrite lookup_insert_eq.
  eexists _, copy, _. split; [reflexivity |].
  split; [done |]. split.
  { rewrite insert_insert_eq, lookup_insert_ne by done. done. }
  split; [by rewrite lookup_insert_eq |].
  split; [apply js_sort_perm |].
  intros a Ha. rewrite insert_insert_eq, lookup_insert_ne by done. done.
Qed.

End SortByProperties.

Example sortBy_two_rows :
  sortBy lt_numbers example_heap 1%positive "n" None
  = Some (<[2%positive := [JObj [("n", JNum 1)]; JObj [("n", JNum 2)]]]> example_heap,
          2%positive).
Proof. vm_compute. reflexivity. Qed.

Lemma sortBy_frame_witness :
  example_heap !! 1%positive = Some two_rows
  /\ exists h' result sorted,
      sortBy lt_numbers example_heap 1%positive "n" (Some "desc") = Some (h', result)
      /\ result <> 1%positive
      /\ h' !! 1%positive = Some two_rows
      /\ h' !! result = Some sorted
      /\ sorted ≡ₚ two_rows
      /\ forall a, a <> result -> h' !! a = example_heap !! a.
Proof.
  split; [reflexivity |].
  apply (sortBy_frame lt_numbers example_heap 1%positive two_rows "n" (Some "desc")).
  reflexivity.
Defined.

(* ===================================================================== *)
(** * Part IV: every reachable state is consistent with the schema *)
(* ===================================================================== *)

Lemma crm_schema_wf : wf_schema crm_schema crm_triggers.
Proof. apply (bool_decide_unpack _). vm_compute. reflexivity. Qed.

(** ** Rows of a state *)

Lemma rows_of_set_rows d t l t' :
  rows_of (set_rows d t l) t' = if decide (t = t') then l else rows_of d t'.
Proof.
  unfold rows_of, set_rows. simpl. rewrite lookup_insert.
  by destruct (decide (t = t')).
Qed.

Lemma rows_of_set_rows_eq d t l : rows_of (set_rows d t l) t = l.
Proof. rewrite rows_of_set_rows. by rewrite decide_True. Qed.

Lemma rows_of_set_rows_ne d t l t' : t ≠ t' -> rows_of (set_rows d t l) t' = rows_of d t'.
Proof. intros. rewrite rows_of_set_rows. by rewrite decide_False. Qed.

Lemma rows_of_advance_sequences T supplied d t :
  rows_of (advance_sequences T supplied d) t = rows_of d t.
Proof.
  unfold advance_sequences.
  induction (tbl_columns T) as [|c cols IH]; simpl; [done |].
  destruct (decide (draws_sequence supplied c)); [| done].
  unfold rows_of in *. simpl. apply IH.
Qed.

Lemma last_value_advance_sequences T supplied d s :
  (forall s', 0 <= last_value d s') ->
  0 <= last_value (advance_sequences T supplied d) s.
Proof.
  intros Hd. unfold advance_sequences. revert s.
  induction (tbl_columns T) as [|c cols IH]; intros s; simpl; [done |].
  destruct (decide (draws_sequence supplied c)); [| done].
  unfold last_value at 1. simpl. rewrite lookup_insert.
  destruct (decide _); simpl; [| apply IH].
  specialize (IH (seq_name (tbl_name T) (col_name c))). lia.
Qed.

(** ** Looking up tables and columns *)

Lemma find_table_Some schema t T :
  find_table schema t = Some T -> T ∈ schema ∧ tbl_name T = t.
Proof.
  unfold find_table. intros H. apply List.find_some in H as [Hin Heq].
  split; [by apply list_elem_of_In | by apply String.eqb_eq].
Qed.

Lemma table_name_inj schema T T' :
  NoDup (tbl_name <$> schema) -> T ∈ schema -> T' ∈ schema ->
  tbl_name T = tbl_name T' -> T = T'.
Proof.
  intros Hnd HT HT' Heq.
  apply list_elem_of_lookup in HT as [i Hi], HT' as [j Hj].
  assert (i = j) as ->; [| congruence].
  eapply NoDup_lookup; [exact Hnd | |].
  - rewrite list_lookup_fmap, Hi. reflexivity.
  - rewrite list_lookup_fmap, Hj. simpl. by rewrite Heq.
Qed.

Lemma find_column_Some T c col :
  find_column T c = Some col -> col ∈ tbl_columns T ∧ col_name col = c.
Proof.
  unfold find_column. intros H. apply List.find_some in H as [Hin Heq].
  split; [by apply list_elem_of_In | by apply String.eqb_eq].
Qed.

Lemma find_column_elem T col :
  NoDup (col_name <$> tbl_columns T) -> col ∈ tbl_columns T ->
  find_column T (col_name col) = Some col.
Proof.
  intros Hnd Hin. unfold find_column.
  destruct (List.find _ _) as [col'|] eqn:Hf.
  - apply (find_column_Some T) in Hf as [Hin' Heq]. f_equal.
    apply list_elem_of_lookup in Hin as [i Hi], Hin' as [j Hj].
    assert (j = i) as ->; [| congruence].
    eapply NoDup_lookup; [exact Hnd | |].
    + rewrite list_lookup_fmap, Hj. reflexivity.
    + rewrite list_lookup_fmap, Hi. simpl. by rewrite Heq.
  - exfalso. eapply List.find_none in Hf; [| by apply list_elem_of_In].
    simpl in Hf. by rewrite String.eqb_refl in Hf.
Qed.

(** ** Coercion *)

Lemma varchar_idem n s s' : varchar n s = Some s' -> varchar n s' = Some s'.
Proof.
  unfold varchar. destruct (String.length s <=? n)%nat eqn:Hlen.
  - intros [= <-]. by rewrite Hlen.
  - destruct (all_spaces _); [| done]. intros [= <-].
    apply Nat.leb_gt in Hlen.
    rewrite length_substring_prefix by lia. by rewrite Nat.leb_refl.
Qed.

Lemma coerce_idem ty v v' : coerce ty v = Some v' -> has_type ty v'.
Proof.
  unfold has_type.
  destruct v, ty; simpl; try discriminate; try (intros [= <-]; done);
    try (destruct (int4_range z) eqn:E; [intros [= <-]; simpl; by rewrite E | done]);
    try (destruct (int8_range z) eqn:E; [intros [= <-]; simpl; by rewrite E | done]).
  - destruct (Z.abs z <? 10 ^ Z.of_nat p) eqn:E; [intros [= <-]; simpl; by rewrite E | done].
  - destruct (varchar n s) as [s'|] eqn:E; simpl; [| done].
    intros [= <-]. simpl. by rewrite (varchar_idem _ _ _ E).
Qed.

Lemma coerce_assigns_spec T assigns vals :
  coerce_assigns T assigns = inr vals ->
  vals.*1 = assigns.*1
  ∧ forall c v, (c, v) ∈ vals ->
      exists col, find_column T c = Some col ∧ has_type (col_type col) v.
Proof.
  revert vals. induction assigns as [|[c v] rest IH]; intros vals; simpl.
  - intros [= <-]. split; [done |]. intros c v H. by apply elem_of_nil in H.
  - destruct (find_column T c) as [col|] eqn:Hcol; [| done].
    destruct (coerce (col_type col) v) as [v'|] eqn:Hco; [| done].
    destruct (coerce_assigns T rest) as [err|rest'] eqn:Hrest; [done |].
    intros [= <-]. destruct (IH rest' eq_refl) as [IH1 IH2]. split.
    + simpl. f_equal. exact IH1.
    + intros c0 v0 Hin. apply elem_of_cons in Hin as [[= -> ->]|Hin].
      * exists col. split; [done |]. by eapply coerce_idem.
      * by apply IH2.
Qed.

(** ** What a passed check says *)

Lemma check_not_null_None T r :
  check_not_null T r = None ->
  forall c, c ∈ tbl_columns T -> is_not_null c -> get r (col_name c) ≠ VNull.
Proof.
  unfold check_not_null. intros H c Hc Hnn Hnull.
  apply fmap_None, list_find_None in H.
  rewrite Forall_forall in H. apply (H c Hc). by split.
Qed.

Lemma check_unique_None T r others :
  check_unique T r others = None ->
  forall c, c ∈ tbl_columns T -> is_unique c ->
    get r (col_name c) = VNull ∨ ¬ has_key (col_name c) (get r (col_name c)) others.
Proof.
  unfold check_unique. intros H c Hc Hu.
  apply fmap_None, list_find_None in H.
  rewrite Forall_forall in H. specialize (H c Hc).
  destruct (decide (get r (col_name c) = VNull)) as [|Hnn]; [by left | right].
  intros Hk. apply H. by repeat split.
Qed.

Lemma check_child_fkeys_None schema t d news :
  check_child_fkeys schema t d news = None ->
  forall k r, k ∈ foreign_keys schema -> fk_table k = t -> r ∈ news -> fk_holds d k r.
Proof.
  unfold check_child_fkeys. intros H k r Hk Ht Hr.
  apply fmap_None, list_find_None in H.
  rewrite Forall_forall in H. specialize (H k Hk).
  destruct (decide (fk_holds d k r)) as [|Hn]; [done |].
  exfalso. apply H. split; [done |]. apply Exists_exists. eauto.
Qed.

Lemma check_parent_fkeys_None schema t d olds :
  check_parent_fkeys schema t d olds = None ->
  forall k r, k ∈ foreign_keys schema -> fk_ref_table k = t -> r ∈ olds ->
    ¬ dangling d k (get r (fk_ref_column k)).
Proof.
  unfold check_parent_fkeys. intros H k r Hk Ht Hr Hd.
  apply fmap_None, list_find_None in H.
  rewrite Forall_forall in H. apply (H k Hk).
  split; [done |]. apply Exists_exists. eauto.
Qed.

Lemma check_parent_fkeys_nil schema t d : check_parent_fkeys schema t d [] = None.
Proof.
  unfold check_parent_fkeys. apply fmap_None, list_find_None, Forall_forall.
  intros k _ [_ H]. by apply Exists_nil in H.
Qed.

Lemma has_key_elem c key l : has_key c key l <-> exists r, r ∈ l ∧ get r c = key.
Proof. unfold has_key. apply Exists_exists. Qed.

(** ** Keys *)

Lemma keys_app c l1 l2 : keys c (l1 ++ l2) = keys c l1 ++ keys c l2.
Proof. unfold keys. by rewrite fmap_app, filter_app. Qed.

Lemma keys_cons c r l :
  keys c (r :: l) = if decide (get r c = VNull) then keys c l else get r c :: keys c l.
Proof.
  unfold keys. rewrite fmap_cons, filter_cons.
  destruct (decide (get r c ≠ VNull)), (decide (get r c = VNull)); done.
Qed.

Lemma elem_of_keys c v l : v ∈ keys c l <-> v ≠ VNull ∧ has_key c v l.
Proof.
  unfold keys. rewrite list_elem_of_filter, list_elem_of_fmap, has_key_elem.
  split.
  - intros [Hnn (r & -> & Hr)]. eauto.
  - intros [Hnn (r & Hr & <-)]. eauto.
Qed.

Lemma keys_insert_middle c r l1 l2 :
  NoDup (keys c (l1 ++ l2)) ->
  get r c = VNull ∨ ¬ has_key c (get r c) (l1 ++ l2) ->
  NoDup (keys c (l1 ++ r :: l2)).
Proof.
  intros Hnd Hr.
  assert (Hp : keys c (l1 ++ r :: l2) ≡ₚ keys c (r :: l1 ++ l2)).
  { rewrite !keys_app, !keys_cons, keys_app.
    destruct (decide (get r c = VNull)); [done |].
    by rewrite Permutation_middle. }
  rewrite Hp, keys_cons.
  destruct (decide (get r c = VNull)) as [|Hnn]; [done |].
  apply NoDup_cons. split; [| done].
  rewrite elem_of_keys. intros [_ Hk]. by destruct Hr.
Qed.

Lemma keys_delete_middle c r l1 l2 :
  NoDup (keys c (l1 ++ r :: l2)) -> NoDup (keys c (l1 ++ l2)).
Proof.
  rewrite !keys_app, keys_cons.
  destruct (decide (get r c = VNull)); [done |].
  rewrite <- Permutation_middle. by intros [_ ?]%NoDup_cons.
Qed.

Lemma keys_filter c (P : row -> Prop) `{!forall r, Decision (P r)} l :
  NoDup (keys c l) -> NoDup (keys c (filter P l)).
Proof.
  induction l as [|r l IH]; [done |].
  rewrite filter_cons, keys_cons.
  destruct (decide (P r)); rewrite ?keys_cons;
    destruct (decide (get r c = VNull)); try done.
  - intros [Hnotin Hnd]%NoDup_cons. apply NoDup_cons. split; [| by apply IH].
    rewrite elem_of_keys, has_key_elem in *.
    intros [Hnn (r' & [_ Hr']%list_elem_of_filter & Heq)]. apply Hnotin. eauto.
  - intros [_ Hnd]%NoDup_cons. by apply IH.
Qed.

(** ** Replacing the rows of one table *)

Section Preservation.

Variable schema : list table.
Variable triggers : list trigger.
Hypothesis Hwf : wf_schema schema triggers.

Lemma wf_table_names : NoDup (tbl_name <$> schema).
Proof. apply Hwf. Qed.

Lemma wf_column_names T : T ∈ schema -> NoDup (col_name <$> tbl_columns T).
Proof.
  intros HT. destruct Hwf as (_ & H & _). rewrite Forall_forall in H. by apply H.
Qed.

Lemma wf_default_typed T c : T ∈ schema -> c ∈ tbl_columns T -> default_typed c.
Proof.
  intros HT Hc. destruct Hwf as (_ & _ & H & _).
  rewrite Forall_forall in H. specialize (H T HT).
  rewrite Forall_forall in H. by apply H.
Qed.

Lemma wf_trigger_typed T c :
  T ∈ schema -> Exists (fun g => trg_table g = tbl_name T) triggers ->
  c ∈ tbl_columns T -> col_name c = "updated_at" -> col_type c = TIMESTAMP.
Proof.
  intros HT Hg Hc Hn. destruct Hwf as (_ & _ & _ & H).
  rewrite Forall_forall in H. specialize (H T HT Hg).
  rewrite Forall_forall in H. by apply H.
Qed.

(** Consistency looks at the rows and at the sequences only. *)
Lemma consistent_ext d d' :
  (forall t, rows_of d' t = rows_of d t) ->
  (forall s, 0 <= last_value d' s) ->
  consistent schema d -> consistent schema d'.
Proof.
  intros Hrows Hseq [H1 H2 H3 H4]. split.
  - intros T r HT Hr. rewrite Hrows in Hr. by apply H1.
  - intros T c HT Hc Hu. rewrite Hrows. by apply H2.
  - intros k r Hk Hr. rewrite Hrows in Hr.
    specialize (H3 k r Hk Hr). unfold fk_holds in *. by rewrite Hrows.
  - done.
Qed.

(** The rows of table [t] are replaced by [final]: every row of [final]
    is an old row or one of [added], every old row is in [final] or is
    one of [removed].  The added rows passed the row checks and the
    child side of the foreign keys, the removed ones the parent side. *)
Lemma set_rows_consistent d t T final added removed :
  consistent schema d ->
  T ∈ schema -> tbl_name T = t ->
  (forall r, r ∈ final -> r ∈ rows_of d t ∨ r ∈ added) ->
  (forall r, r ∈ rows_of d t -> r ∈ final ∨ r ∈ removed) ->
  (forall r, r ∈ added -> row_ok T r) ->
  (forall c, c ∈ tbl_columns T -> is_unique c -> NoDup (keys (col_name c) final)) ->
  check_child_fkeys schema t (set_rows d t final) added = None ->
  check_parent_fkeys schema t (set_rows d t final) removed = None ->
  consistent schema (set_rows d t final).
Proof.
  intros [H1 H2 H3 H4] HT Ht Hfinal Hold Hadded Huniq Hchild Hparent.
  set (d' := set_rows d t final) in *.
  assert (Hsame : forall T', T' ∈ schema -> tbl_name T' = t -> T' = T).
  { intros T' HT' Ht'. eapply table_name_inj; eauto using wf_table_names.
    congruence. }
  split.
  - intros T' r HT' Hr. unfold d' in Hr. rewrite rows_of_set_rows in Hr.
    destruct (decide (t = tbl_name T')) as [Heq|Hne]; [| by apply H1].
    rewrite (Hsame T' HT' (eq_sym Heq)).
    destruct (Hfinal r Hr) as [Hr'|Hr']; [| by apply Hadded].
    apply H1; [done | by rewrite Ht].
  - intros T' c HT' Hc Hu. unfold d'. rewrite rows_of_set_rows.
    destruct (decide (t = tbl_name T')) as [Heq|Hne]; [| by apply H2].
    rewrite (Hsame T' HT' (eq_sym Heq)) in Hc. by apply Huniq.
  - intros k r Hk Hr.
    (* an old row keeps its parent, or the parent check speaks *)
    assert (Hkeep : r ∈ rows_of d (fk_table k) -> fk_holds d' k r).
    { intros Hr0. destruct (H3 k r Hk Hr0) as [Hnull|Hkey]; [by left |].
      destruct (decide (get r (fk_column k) = VNull)) as [|Hnn]; [by left |].
      right. unfold d'. rewrite rows_of_set_rows.
      destruct (decide (t = fk_ref_table k)) as [Heq|Hne]; [| done].
      apply has_key_elem in Hkey as (p & Hp & Hpk).
      rewrite <- Heq in Hp. destruct (Hold p Hp) as [Hp'|Hp'].
      { apply has_key_elem. eauto. }
      pose proof (check_parent_fkeys_None _ _ _ _ Hparent k p Hk (eq_sym Heq) Hp')
        as Hnd.
      rewrite Hpk in Hnd.
      destruct (decide (has_key (fk_ref_column k) (get r (fk_column k)) final))
        as [|Hnk]; [done |].
      exfalso. apply Hnd. split; [done |]. split.
      - unfold d'. rewrite rows_of_set_rows, decide_True by done. done.
      - apply has_key_elem. eauto. }
    unfold d' in Hr. rewrite rows_of_set_rows in Hr.
    destruct (decide (t = fk_table k)) as [Heq|Hne]; [| by apply Hkeep].
    destruct (Hfinal r Hr) as [Hr'|Hr'].
    + apply Hkeep. by rewrite <- Heq.
    + by eapply check_child_fkeys_None.
  - done.
Qed.

End Preservation.

(** ** INSERT keeps the state consistent *)

Section InsertPreservation.

Variable schema : list table.
Variable triggers : list trigger.
Hypothesis Hwf : wf_schema schema triggers.

Lemma get_new_row e d T supplied c :
  T ∈ schema -> c ∈ tbl_columns T ->
  get (new_row e d T supplied) (col_name c)
  = column_value e d (tbl_name T) supplied c.
Proof.
  intros HT Hc. unfold get, new_row.
  erewrite elem_of_list_to_map_1; [reflexivity | |].
  - rewrite <- list_fmap_compose. by eapply wf_column_names.
  - apply list_elem_of_fmap. eauto.
Qed.

Lemma has_type_null ty : has_type ty VNull.
Proof. by destruct ty. Qed.

Lemma eval_default_typed e c ex :
  default_typed c -> col_default c = Some ex ->
  has_type (col_type c) (eval_default e ex).
Proof.
  unfold default_typed. intros Hd Hex. rewrite Hex in Hd.
  destruct ex; simpl; unfold has_type; try (by rewrite Hd); done.
Qed.

Lemma supplied_typed T assigns vals c v :
  T ∈ schema -> c ∈ tbl_columns T ->
  coerce_assigns T assigns = inr vals ->
  (list_to_map vals : row) !! col_name c = Some v ->
  has_type (col_type c) v.
Proof.
  intros HT Hc Hco Hv.
  apply elem_of_list_to_map_2 in Hv.
  destruct (coerce_assigns_spec _ _ _ Hco) as [_ H].
  destruct (H _ _ Hv) as (col & Hcol & Hty).
  rewrite find_column_elem in Hcol by eauto using wf_column_names.
  by injection Hcol as <-.
Qed.

Lemma column_value_typed e d T assigns vals c :
  T ∈ schema -> c ∈ tbl_columns T ->
  coerce_assigns T assigns = inr vals ->
  check_sequences T (list_to_map vals) d = None ->
  (forall s, 0 <= last_value d s) ->
  has_type (col_type c) (column_value e d (tbl_name T) (list_to_map vals) c).
Proof.
  intros HT Hc Hco Hseq Hpos. unfold column_value.
  destruct (_ !! col_name c) as [v|] eqn:Hv; [by eapply supplied_typed |].
  destruct (is_serial c) eqn:Hser.
  - unfold check_sequences in Hseq.
    apply fmap_None, list_find_None in Hseq.
    rewrite Forall_forall in Hseq. specialize (Hseq c Hc).
    specialize (Hpos (seq_name (tbl_name T) (col_name c))).
    assert (last_value d (seq_name (tbl_name T) (col_name c)) < 2147483647).
    { destruct (Z_lt_ge_dec (last_value d (seq_name (tbl_name T) (col_name c)))
                  2147483647) as [|Hge]; [done |].
      exfalso. apply Hseq. split; [| lia]. split; [by rewrite Hser | done]. }
    unfold is_serial in Hser. unfold has_type.
    destruct (col_type c); try done. simpl.
    replace (int4_range _) with true; [done |].
    symmetry. unfold int4_range. apply andb_true_intro. split; lia.
  - destruct (col_default c) as [ex|] eqn:Hex; [| apply has_type_null].
    eapply eval_default_typed; eauto using wf_default_typed.
Qed.

Lemma insert_consistent e t assigns d :
  consistent schema d -> consistent schema (exec_insert schema e t assigns d).1.
Proof.
  intros Hd. unfold exec_insert.
  destruct (find_table schema t) as [T|] eqn:HT; [| done].
  apply find_table_Some in HT as [HT Ht].
  destruct (decide (NoDup assigns.*1)); [| done].
  destruct (coerce_assigns T assigns) as [err|vals] eqn:Hco; [done |].
  destruct (check_sequences _ _ _) eqn:Hseq; [done |].
  set (supplied := list_to_map vals : row) in *.
  set (r := new_row e d T supplied).
  set (d1 := advance_sequences T supplied d).
  assert (Hd1 : consistent schema d1).
  { eapply consistent_ext; [| | exact Hd].
    - intros t'. apply rows_of_advance_sequences.
    - intros s. apply last_value_advance_sequences, (cons_seq _ _ Hd). }
  destruct (check_not_null T r) eqn:Hnn; [done |].
  destruct (check_unique T r (rows_of d t)) eqn:Hu; [done |].
  destruct (check_child_fkeys _ _ _ _) eqn:Hfk; [done |].
  simpl. replace (rows_of d t) with (rows_of d1 t) in *
    by apply rows_of_advance_sequences.
  apply (set_rows_consistent schema triggers Hwf d1 t T _ [r] [] Hd1 HT Ht);
    [| | | | exact Hfk |].
  - intros r0 [Hr0|Hr0]%elem_of_app; [by left | by right].
  - intros r0 Hr0. left. apply elem_of_app. by left.
  - intros r0 ->%list_elem_of_singleton c Hc. split.
    + by eapply check_not_null_None.
    + unfold r. rewrite get_new_row by done.
      eapply column_value_typed; eauto. apply (cons_seq _ _ Hd).
  - intros c Hc Huc.
    apply (keys_insert_middle _ r _ []).
    + rewrite app_nil_r, <- Ht. by apply (cons_unique _ _ Hd1).
    + rewrite app_nil_r. by eapply check_unique_None.
  - apply check_parent_fkeys_nil.
Qed.

End InsertPreservation.

(** ** DELETE and UPDATE keep the state consistent *)

Section UpdatePreservation.

Variable schema : list table.
Variable triggers : list trigger.
Hypothesis Hwf : wf_schema schema triggers.

Lemma check_child_fkeys_nil t d : check_child_fkeys schema t d [] = None.
Proof.
  unfold check_child_fkeys. apply fmap_None, list_find_None, Forall_forall.
  intros k _ [_ H]. by apply Exists_nil in H.
Qed.

Lemma delete_consistent t where_ d :
  consistent schema d -> consistent schema (exec_delete schema t where_ d).1.
Proof.
  intros Hd. unfold exec_delete.
  destruct (find_table schema t) as [T|] eqn:HT; [| done].
  apply find_table_Some in HT as [HT Ht].
  destruct (check_parent_fkeys _ _ _ _) eqn:Hfk; [done |]. simpl.
  apply (set_rows_consistent schema triggers Hwf d t T _ []
           (filter (fun r => where_ r) (rows_of d t)) Hd HT Ht).
  - intros r [_ Hr]%list_elem_of_filter. by left.
  - intros r Hr. destruct (where_ r) eqn:Hw.
    + right. apply list_elem_of_filter. split; [by rewrite Hw | done].
    + left. apply list_elem_of_filter. split; [| done].
      intros Hw'. by rewrite Hw in Hw'.
  - intros r Hr. by apply elem_of_nil in Hr.
  - intros c Hc Hu. apply keys_filter. rewrite <- Ht.
    by apply (cons_unique _ _ Hd).
  - apply check_child_fkeys_nil.
  - exact Hfk.
Qed.

Lemma get_union_supplied (vals old : row) c :
  get (vals ∪ old) c = match vals !! c with Some v => v | None => get old c end.
Proof.
  unfold get. rewrite lookup_union.
  destruct (vals !! c), (old !! c); done.
Qed.

Lemma get_fire_before_update e t new c :
  get (fire_before_update triggers e t new) c
  = if decide (Exists (fun g => trg_table g = t) triggers ∧ c = "updated_at")
    then VInt (now e) else get new c.
Proof.
  unfold fire_before_update, update_updated_at_column, get.
  destruct (decide (Exists _ triggers)) as [Hg|Hg].
  - rewrite lookup_insert. destruct (decide ("updated_at" = c)) as [<-|Hne].
    + by rewrite decide_True.
    + rewrite decide_False; [done |]. intros [_ ->]. done.
  - rewrite decide_False; [done |]. by intros [? _].
Qed.

(** A new row version that passed NOT NULL is as good as the old one. *)
Lemma new_version_ok e T sets old new :
  T ∈ schema -> row_ok T old ->
  new_version triggers e T sets old = inr new ->
  check_not_null T new = None ->
  row_ok T new.
Proof.
  intros HT Hold Hnew Hnn c Hc. split; [by eapply check_not_null_None |].
  unfold new_version in Hnew.
  destruct (coerce_assigns T _) as [err|vals] eqn:Hco; [done |].
  injection Hnew as <-. rewrite get_fire_before_update.
  destruct (decide _) as [[Hg Hname]|_].
  - rewrite (wf_trigger_typed schema triggers Hwf T c HT Hg Hc Hname). done.
  - rewrite get_union_supplied.
    destruct (_ !! col_name c) as [v|] eqn:Hv.
    + eapply (supplied_typed schema triggers Hwf); eauto.
    + by apply Hold.
Qed.

Lemma update_rows_spec e T sets where_ todo :
  forall done final changed,
  update_rows triggers e T sets where_ done todo = inr (final, changed) ->
  (forall r, r ∈ final -> r ∈ done ∨ r ∈ todo ∨ r ∈ changed.*2)
  ∧ (forall r, r ∈ done ∨ r ∈ todo -> r ∈ final ∨ r ∈ changed.*1)
  ∧ (forall old new, (old, new) ∈ changed ->
       old ∈ todo ∧ new_version triggers e T sets old = inr new
       ∧ check_not_null T new = None)
  ∧ (forall c, c ∈ tbl_columns T -> is_unique c ->
       NoDup (keys (col_name c) (done ++ todo)) -> NoDup (keys (col_name c) final)).
Proof.
  induction todo as [|r rest IH]; intros done final changed; simpl.
  - intros [= <- <-]. rewrite app_nil_r. split; [| split; [| split]].
    + intros r Hr. by left.
    + intros r [Hr|Hr]; [by left | by apply elem_of_nil in Hr].
    + intros old new Hin. by apply elem_of_nil in Hin.
    + intros c _ _ Hnd. exact Hnd.
  - destruct (where_ r) eqn:Hw.
    + destruct (new_version _ _ _ _ _) as [err|r'] eqn:Hnew; [done |].
      destruct (check_not_null T r') eqn:Hnn; [done |].
      destruct (check_unique T r' (done ++ rest)) eqn:Hu; [done |].
      destruct (update_rows _ _ _ _ _ _ _) as [err|[final0 changed0]] eqn:Hrec;
        [done |].
      intros [= <- <-].
      destruct (IH _ _ _ Hrec) as (IH1 & IH2 & IH3 & IH4).
      split; [| split; [| split]].
      * intros r0 Hr0. destruct (IH1 r0 Hr0) as [Hin|[Hin|Hin]].
        -- apply elem_of_app in Hin as [Hin| ->%list_elem_of_singleton];
             [by left |].
           right; right. simpl. apply elem_of_cons. by left.
        -- right; left. apply elem_of_cons. by right.
        -- right; right. simpl. apply elem_of_cons. by right.
      * intros r0 [Hin|[->|Hin]%elem_of_cons].
        -- destruct (IH2 r0) as [?|?]; [left; apply elem_of_app; by left | by left |].
           right. simpl. apply elem_of_cons. by right.
        -- right. simpl. apply elem_of_cons. by left.
        -- destruct (IH2 r0) as [?|?]; [by right | by left |].
           right. simpl. apply elem_of_cons. by right.
      * intros old new [[= -> ->]|Hin]%elem_of_cons.
        -- split; [apply elem_of_cons; by left | done].
        -- destruct (IH3 _ _ Hin) as (? & ? & ?).
           split; [apply elem_of_cons; by right | done].
      * intros c Hc Huc Hnd. apply (IH4 c Hc Huc).
        rewrite <- app_assoc. simpl.
        apply keys_insert_middle; [by eapply keys_delete_middle |].
        by eapply check_unique_None.
    + intros Hrec. destruct (IH _ _ _ Hrec) as (IH1 & IH2 & IH3 & IH4).
      split; [| split; [| split]].
      * intros r0 Hr0. destruct (IH1 r0 Hr0) as [Hin|[Hin|Hin]].
        -- apply elem_of_app in Hin as [Hin| ->%list_elem_of_singleton];
             [by left |].
           right; left. apply elem_of_cons. by left.
        -- right; left. apply elem_of_cons. by right.
        -- by right; right.
      * intros r0 [Hin|[->|Hin]%elem_of_cons]; apply IH2.
        -- left. apply elem_of_app. by left.
        -- left. apply elem_of_app. right. by apply list_elem_of_singleton.
        -- by right.
      * intros old new Hin. destruct (IH3 _ _ Hin) as (? & ? & ?).
        split; [apply elem_of_cons; by right | done].
      * intros c Hc Huc Hnd. apply (IH4 c Hc Huc).
        by rewrite <- app_assoc.
Qed.

Lemma update_consistent e t sets where_ d :
  consistent schema d -> consistent schema (exec_update schema triggers e t sets where_ d).1.
Proof.
  intros Hd. unfold exec_update.
  destruct (find_table schema t) as [T|] eqn:HT; [| done].
  apply find_table_Some in HT as [HT Ht].
  destruct (decide (NoDup sets.*1)); [| done].
  destruct (list_find _ _) as [[? ?]|]; [done |].
  destruct (update_rows _ _ _ _ _ _ _) as [err|[final changed]] eqn:Hrows; [done |].
  destruct (check_child_fkeys _ _ _ _) eqn:Hchild; [done |].
  destruct (check_parent_fkeys _ _ _ _) eqn:Hparent; [done |]. simpl.
  destruct (update_rows_spec _ _ _ _ _ _ _ _ Hrows) as (H1 & H2 & H3 & H4).
  apply (set_rows_consistent schema triggers Hwf d t T final changed.*2 changed.*1
           Hd HT Ht); [| | | | exact Hchild | exact Hparent].
  - intros r Hr. destruct (H1 r Hr) as [Hin|[Hin|Hin]]; [| by left | by right].
    by apply elem_of_nil in Hin.
  - intros r Hr. apply H2. by right.
  - intros r (p & -> & Hp)%list_elem_of_fmap. destruct p as [old new].
    destruct (H3 _ _ Hp) as (Hold & Hnew & Hnn). simpl.
    eapply new_version_ok; eauto.
    apply (cons_rows _ _ Hd); [done | by rewrite Ht].
  - intros c Hc Hu. apply H4; [done | done |]. simpl. rewrite <- Ht.
    by apply (cons_unique _ _ Hd).
Qed.

(** Every statement keeps a consistent state consistent, whether it is
    accepted or not. *)
Lemma exec_consistent e s d :
  consistent schema d -> consistent schema (exec schema triggers e s d).1.
Proof.
  destruct s; simpl.
  - by apply (insert_consistent schema triggers Hwf).
  - by apply update_consistent.
  - by apply delete_consistent.
Qed.

Lemma empty_db_consistent : consistent schema empty_db.
Proof.
  split.
  - intros T r _ Hr. by apply elem_of_nil in Hr.
  - intros T c _ _ _. apply NoDup_nil_2.
  - intros k r _ Hr. by apply elem_of_nil in Hr.
  - intros s. done.
Qed.

Lemma run_consistent trace d :
  consistent schema d -> consistent schema (run schema triggers trace d).
Proof.
  revert d. induction trace as [|[e s] trace IH]; intros d Hd; simpl; [done |].
  apply IH. by apply exec_consistent.
Qed.

End UpdatePreservation.

(** The constraints at work on the sample data: a referenced tenant cannot
    be deleted, a company cannot name a tenant that does not exist, and
    shifting every primary key by one collides with the next row because
    UNIQUE is checked row by row. *)
Example delete_referenced_tenant :
  (crm_exec (clock 200) (DELETE "tenants" (fun _ => true))
     (crm_run two_tenants empty_db)).2
  = Failed (foreign_key_violation "clients.companies" "tenant_id").
Proof. vm_compute. reflexivity. Qed.

Example company_of_unknown_tenant :
  (crm_exec (clock 200) (insert_company 12 "Kuwait Wholesale Market" 3)
     (crm_run two_tenants empty_db)).2
  = Failed (foreign_key_violation "clients.companies" "tenant_id").
Proof. vm_compute. reflexivity. Qed.

Example shift_primary_keys :
  (crm_exec (clock 200)
     (UPDATE "tenants"
        [("id", fun r => match get r "id" with VInt z => VInt (z + 1) | v => v end)]
        (fun _ => true))
     (crm_run two_tenants empty_db)).2
  = Failed (unique_violation "tenants" "id").
Proof. vm_compute. reflexivity. Qed.

(** Every state the CRM database can reach from the empty one, through
    any sequence of INSERT, UPDATE and DELETE statements, is consistent. *)
Lemma crm_consistent (trace : list (env * stmt)) :
  consistent crm_schema (crm_run trace empty_db).
Proof.
  apply (run_consistent _ _ crm_schema_wf), empty_db_consistent.
Qed.

(** ** What statements do to the rows *)

Section Frames.

Variable schema : list table.
Variable triggers : list trigger.

(** A rejected statement leaves every table as it was. *)
Lemma exec_failed_rows e s d err t :
  (exec schema triggers e s d).2 = Failed err ->
  rows_of (exec schema triggers e s d).1 t = rows_of d t.
Proof.
  destruct s as [t0 assigns|t0 sets where_|t0 where_]; simpl.
  - unfold exec_insert.
    destruct (find_table schema t0) as [T|]; [| done].
    destruct (decide (NoDup assigns.*1)); [| done].
    destruct (coerce_assigns T assigns) as [?|vals]; [done |].
    destruct (check_sequences _ _ _); [done |].
    destruct (check_not_null _ _); [intros _; apply rows_of_advance_sequences |].
    destruct (check_unique _ _ _); [intros _; apply rows_of_advance_sequences |].
    destruct (check_child_fkeys _ _ _ _);
      [intros _; apply rows_of_advance_sequences | done].
  - unfold exec_update.
    destruct (find_table schema t0) as [T|]; [| done].
    destruct (decide (NoDup sets.*1)); [| done].
    destruct (list_find _ _) as [[? ?]|]; [done |].
    destruct (update_rows _ _ _ _ _ _ _) as [?|[final changed]]; [done |].
    destruct (check_child_fkeys _ _ _ _); [done |].
    destruct (check_parent_fkeys _ _ _ _); done.
  - unfold exec_delete.
    destruct (find_table schema t0) as [T|]; [| done].
    destruct (check_parent_fkeys _ _ _ _); done.
Qed.

(** A statement touches the rows of its target table only. *)
Lemma exec_other_table e s d t :
  t ≠ target s -> rows_of (exec schema triggers e s d).1 t = rows_of d t.
Proof.
  intros Hne.
  destruct (exec schema triggers e s d).2 as [|err] eqn:Hout;
    [| by eapply exec_failed_rows].
  revert Hout. destruct s as [t0 assigns|t0 sets where_|t0 where_]; simpl in *.
  - unfold exec_insert.
    destruct (find_table schema t0) as [T|]; [| done].
    destruct (decide (NoDup assigns.*1)); [| done].
    destruct (coerce_assigns T assigns) as [?|vals]; [done |].
    destruct (check_sequences _ _ _); [done |].
    destruct (check_not_null _ _); [done |].
    destruct (check_unique _ _ _); [done |].
    destruct (check_child_fkeys _ _ _ _); [done |]. simpl. intros _.
    rewrite rows_of_set_rows_ne by done. apply rows_of_advance_sequences.
  - unfold exec_update.
    destruct (find_table schema t0) as [T|]; [| done].
    destruct (decide (NoDup sets.*1)); [| done].
    destruct (list_find _ _) as [[? ?]|]; [done |].
    destruct (update_rows _ _ _ _ _ _ _) as [?|[final changed]]; [done |].
    destruct (check_child_fkeys _ _ _ _); [done |].
    destruct (check_parent_fkeys _ _ _ _); [done |]. simpl. intros _.
    by rewrite rows_of_set_rows_ne.
  - unfold exec_delete.
    destruct (find_table schema t0) as [T|]; [| done].
    destruct (check_parent_fkeys _ _ _ _); [done |]. simpl. intros _.
    by rewrite rows_of_set_rows_ne.
Qed.

(** An accepted INSERT appends the row it built to its table. *)
Lemma insert_Done e t assigns d d' :
  exec_insert schema e t assigns d = (d', Done) ->
  exists T vals,
    find_table schema t = Some T
    ∧ coerce_assigns T assigns = inr vals
    ∧ rows_of d' t = rows_of d t ++ [new_row e d T (list_to_map vals)].
Proof.
  unfold exec_insert.
  destruct (find_table schema t) as [T|]; [| done].
  destruct (decide (NoDup assigns.*1)); [| done].
  destruct (coerce_assigns T assigns) as [?|vals] eqn:Hco; [done |].
  destruct (check_sequences _ _ _); [done |].
  destruct (check_not_null _ _); [done |].
  destruct (check_unique _ _ _); [done |].
  destruct (check_child_fkeys _ _ _ _); [done |].
  intros [= <-]. exists T, vals. by rewrite rows_of_set_rows_eq.
Qed.

(** An INSERT, accepted or not, keeps the rows that were there. *)
Lemma insert_prefix e t assigns d t' :
  rows_of d t' `prefix_of` rows_of (exec_insert schema e t assigns d).1 t'.
Proof.
  destruct (exec_insert schema e t assigns d) as [d' [|err]] eqn:Hins; simpl.
  - destruct (decide (t' = t)) as [->|Hne].
    + apply insert_Done in Hins as (T & vals & _ & _ & ->). by eexists.
    + pose proof (exec_other_table e (INSERT t assigns) d t' Hne) as H.
      simpl in H. rewrite Hins in H. simpl in H. by rewrite H.
  - pose proof (exec_failed_rows e (INSERT t assigns) d err t') as H.
    simpl in H. rewrite Hins in H. simpl in H. by rewrite H.
Qed.

(** The column [c] of the row built by an INSERT that does not name it. *)
Lemma column_value_omitted e d T assigns vals c :
  coerce_assigns T assigns = inr vals ->
  col_name c ∉ assigns.*1 ->
  column_value e d (tbl_name T) (list_to_map vals) c
  = if is_serial c then VInt (last_value d (seq_name (tbl_name T) (col_name c)) + 1)
    else match col_default c with
         | Some ex => eval_default e ex
         | None => VNull
         end.
Proof.
  intros Hco Hc. unfold column_value.
  destruct (coerce_assigns_spec _ _ _ Hco) as [Hnames _].
  rewrite not_elem_of_list_to_map_1; [done |]. by rewrite Hnames.
Qed.

(** UPDATE keeps the rows in place: each one is kept as it is or replaced
    by its new version. *)
Lemma update_rows_shape e T sets where_ todo :
  forall done final changed,
  update_rows triggers e T sets where_ done todo = inr (final, changed) ->
  exists todo',
    final = done ++ todo'
    ∧ Forall2 (fun old new => new = old ∨ new_version triggers e T sets old = inr new)
        todo todo'.
Proof.
  induction todo as [|r rest IH]; intros done final changed; simpl.
  - intros [= <- <-]. exists []. by rewrite app_nil_r.
  - destruct (where_ r).
    + destruct (new_version _ _ _ _ _) as [err|r'] eqn:Hnew; [done |].
      destruct (check_not_null T r'); [done |].
      destruct (check_unique T r' (done ++ rest)); [done |].
      destruct (update_rows _ _ _ _ _ _ _) as [err|[final0 changed0]] eqn:Hrec; [done |].
      intros [= <- <-]. destruct (IH _ _ _ Hrec) as (todo' & -> & HF).
      exists (r' :: todo'). rewrite <- app_assoc. split; [done |].
      constructor; [by right | done].
    + intros Hrec. destruct (IH _ _ _ Hrec) as (todo' & -> & HF).
      exists (r :: todo'). rewrite <- app_assoc. split; [done |].
      constructor; [by left | done].
Qed.

(** A column that SET does not name, and that the trigger does not
    assign, is copied from the old version. *)
Lemma new_version_frame e T sets old new c :
  new_version triggers e T sets old = inr new ->
  c ∉ sets.*1 -> c ≠ "updated_at" -> get new c = get old c.
Proof.
  unfold new_version. intros Hnew Hc Hupd.
  destruct (coerce_assigns T _) as [err|vals] eqn:Hco; [done |].
  injection Hnew as <-. rewrite get_fire_before_update.
  rewrite decide_False by (by intros [_ ?]).
  rewrite get_union_supplied.
  destruct (coerce_assigns_spec _ _ _ Hco) as [Hnames _].
  rewrite not_elem_of_list_to_map_1; [done |].
  rewrite Hnames, <- list_fmap_compose. exact Hc.
Qed.

Lemma update_column_kept e t sets where_ d c t' :
  c ∉ sets.*1 -> c ≠ "updated_at" ->
  (fun r => get r c) <$> rows_of (exec_update schema triggers e t sets where_ d).1 t'
  = (fun r => get r c) <$> rows_of d t'.
Proof.
  intros Hc Hupd. unfold exec_update.
  destruct (find_table schema t) as [T|]; [| done].
  destruct (decide (NoDup sets.*1)); [| done].
  destruct (list_find _ _) as [[? ?]|]; [done |].
  destruct (update_rows _ _ _ _ _ _ _) as [err|[final changed]] eqn:Hrows; [done |].
  destruct (check_child_fkeys _ _ _ _); [done |].
  destruct (check_parent_fkeys _ _ _ _); [done |]. simpl.
  rewrite rows_of_set_rows. destruct (decide (t = t')) as [<-|]; [| done].
  destruct (update_rows_shape _ _ _ _ _ _ _ _ Hrows) as (todo' & -> & HF).
  simpl. clear Hrows. revert HF. generalize (rows_of d t). intros rows HF.
  induction HF as [|old new olds news Hon _ IH]; [done |].
  rewrite !fmap_cons, IH. f_equal.
  destruct Hon as [->|Hnew]; [done | by eapply new_version_frame].
Qed.

(** DELETE only removes rows. *)
Lemma delete_sublist t where_ d t' :
  rows_of (exec_delete schema t where_ d).1 t' `sublist_of` rows_of d t'.
Proof.
  unfold exec_delete.
  destruct (find_table schema t) as [T|]; [| done].
  destruct (check_parent_fkeys _ _ _ _); [done |]. simpl.
  rewrite rows_of_set_rows. destruct (decide (t = t')) as [<-|]; [| done].
  apply sublist_filter.
Qed.

End Frames.

(* ===================================================================== *)
(** * Part V: the claims about the schema *)
(* ===================================================================== *)

(** ** What the types say about a stored value *)

Lemma has_type_uuid v : has_type UUID v -> v = VNull ∨ exists u, v = VUuid u.
Proof. destruct v; unfold has_type; simpl; try done; eauto. Qed.

Lemma has_type_varchar n v :
  has_type (VARCHAR n) v ->
  v = VNull ∨ exists s, v = VStr s ∧ (String.length s <= n)%nat.
Proof.
  destruct v; unfold has_type; simpl; try done; [by left |].
  intros H. right. exists s. split; [done |].
  unfold varchar in H. destruct (String.length s <=? n)%nat eqn:Hlen.
  - by apply Nat.leb_le.
  - destruct (all_spaces _); [| done]. simpl in H. injection H as H.
    apply Nat.leb_gt in Hlen.
    pose proof (length_substring_prefix n s) as Hp. rewrite H in Hp. lia.
Qed.

Lemma has_type_integer v :
  has_type INTEGER v ->
  v = VNull ∨ exists z, v = VInt z ∧ -2147483648 <= z <= 2147483647.
Proof.
  destruct v; unfold has_type; simpl; try done; [by left |].
  destruct (int4_range z) eqn:Hr; [| done]. intros _. right. exists z.
  split; [done |]. unfold int4_range in Hr. apply andb_prop in Hr as [? ?]. lia.
Qed.

(** ** Columns of the CRM tables in reachable states *)

Lemma crm_column trace t T cn c r :
  find_table crm_schema t = Some T -> find_column T cn = Some c ->
  r ∈ rows_of (crm_run trace empty_db) t ->
  (is_not_null c -> get r cn ≠ VNull) ∧ has_type (col_type c) (get r cn).
Proof.
  intros [HT <-]%find_table_Some [Hc <-]%find_column_Some Hr.
  by apply (cons_rows _ _ (crm_consistent trace) T r HT Hr c Hc).
Qed.

Lemma crm_uuid_not_null trace t T cn c r :
  find_table crm_schema t = Some T -> find_column T cn = Some c ->
  is_not_null c = true -> col_type c = UUID ->
  r ∈ rows_of (crm_run trace empty_db) t ->
  exists u, get r cn = VUuid u.
Proof.
  intros HT Hc Hnn Hty Hr.
  destruct (crm_column trace t T cn c r HT Hc Hr) as [H1 H2].
  rewrite Hty in H2. apply has_type_uuid in H2 as [Hnull|?]; [| done].
  exfalso. apply H1; [by rewrite Hnn | done].
Qed.

Lemma crm_unique trace t T cn c :
  find_table crm_schema t = Some T -> find_column T cn = Some c ->
  is_unique c = true ->
  NoDup (keys cn (rows_of (crm_run trace empty_db) t)).
Proof.
  intros [HT <-]%find_table_Some [Hc <-]%find_column_Some Hu.
  apply (cons_unique _ _ (crm_consistent trace) T c HT Hc). by rewrite Hu.
Qed.

Lemma crm_fkey trace k r :
  k ∈ foreign_keys crm_schema ->
  r ∈ rows_of (crm_run trace empty_db) (fk_table k) ->
  fk_holds (crm_run trace empty_db) k r.
Proof. apply (cons_fkeys _ _ (crm_consistent trace)). Qed.

(** ** Tenant references (C1) *)

(** C1, as stated: counterexample.  With two tenants and a company of the
    first, [UPDATE clients.companies SET tenant_id = 2 WHERE uuid = 10] is
    accepted, and the company row created under tenant 1 now belongs to
    tenant 2. *)
Lemma tenant_id_reassigned :
  project ["id"; "uuid"; "tenant_id"]
    (rows_of (crm_run two_tenants empty_db) "clients.companies")
  = [[VInt 1; VUuid 10; VUuid 1]; [VInt 2; VUuid 11; VUuid 1]]
  ∧ (crm_exec (clock 104) move_company (crm_run two_tenants empty_db)).2 = Done
  ∧ project ["id"; "uuid"; "tenant_id"]
      (rows_of (crm_exec (clock 104) move_company (crm_run two_tenants empty_db)).1
         "clients.companies")
    = [[VInt 1; VUuid 10; VUuid 2]; [VInt 2; VUuid 11; VUuid 1]].
Proof. vm_compute. done. Qed.

(** C1, amended: in every state reachable through INSERT, UPDATE and
    DELETE statements, every row of every tenant-scoped table carries a
    non-null tenant reference (its [tenant_id] is a UUID).  The reference
    of a row changes only through an UPDATE whose SET list names
    [tenant_id], which the schema accepts: an INSERT keeps the rows that
    were there as they are, a DELETE only removes rows, and an UPDATE that
    does not assign [tenant_id] leaves the [tenant_id] of every row as it
    was. *)
Theorem tenant_id_not_null_and_kept :
  (forall trace : list (env * stmt),
     Forall (fun t =>
               Forall (fun r => exists u, get r "tenant_id" = VUuid u)
                      (rows_of (crm_run trace empty_db) t))
            tenant_scoped_tables)
  ∧ (forall (e : env) (s : stmt) (d : db) (t : string),
       match s with
       | INSERT _ _ => rows_of d t `prefix_of` rows_of (crm_exec e s d).1 t
       | DELETE _ _ => rows_of (crm_exec e s d).1 t `sublist_of` rows_of d t
       | UPDATE _ sets _ =>
           "tenant_id" ∉ sets.*1 ->
           (fun r => get r "tenant_id") <$> rows_of (crm_exec e s d).1 t
           = (fun r => get r "tenant_id") <$> rows_of d t
       end).
Proof.
  split.
  - intros trace. unfold tenant_scoped_tables.
    repeat first [apply Forall_nil_2 | apply Forall_cons_2].
    all: apply Forall_forall; intros r Hr.
    all: eapply crm_uuid_not_null; [| | | | exact Hr]; reflexivity.
  - intros e [t0 assigns|t0 sets where_|t0 where_] d t.
    + apply (insert_prefix crm_schema crm_triggers).
    + intros Hsets. by apply update_column_kept.
    + apply delete_sublist.
Qed.

Lemma tenant_id_not_null_and_kept_witness :
  ("tenant_id" ∉ [("name", fun _ : row => VStr "Gulf Fresh Foods")].*1)
  ∧ (fun r => get r "tenant_id")
      <$> rows_of (crm_exec (clock 104) rename_company (crm_run two_tenants empty_db)).1
            "clients.companies"
    = (fun r => get r "tenant_id")
        <$> rows_of (crm_run two_tenants empty_db) "clients.companies".
Proof.
  assert (H : "tenant_id" ∉ [("name", fun _ : row => VStr "Gulf Fresh Foods")].*1).
  { apply (bool_decide_unpack _). vm_compute. reflexivity. }
  split; [exact H |].
  exact (proj2 tenant_id_not_null_and_kept (clock 104) rename_company
           (crm_run two_tenants empty_db) "clients.companies" H).
Defined.

(** ** Foreign keys across tenants (C2) *)

(** C2, as stated: counterexample.  Company 10 belongs to tenant 1; a
    contact of tenant 2 that references it is accepted. *)
Lemma contact_of_another_tenant :
  (crm_exec (clock 104) (insert_contact 20 10 "Mohammed" "Al-Rashid" true 2)
     (crm_run two_tenants empty_db)).2 = Done
  ∧ project ["uuid"; "company_id"; "tenant_id"]
      (rows_of (crm_exec (clock 104) (insert_contact 20 10 "Mohammed" "Al-Rashid" true 2)
                  (crm_run two_tenants empty_db)).1 "clients.contacts")
    = [[VUuid 20; VUuid 10; VUuid 2]]
  ∧ project ["uuid"; "tenant_id"]
      (rows_of (crm_exec (clock 104) (insert_contact 20 10 "Mohammed" "Al-Rashid" true 2)
                  (crm_run two_tenants empty_db)).1 "clients.companies")
    = [[VUuid 10; VUuid 1]; [VUuid 11; VUuid 1]].
Proof. vm_compute. done. Qed.

(** C2, amended: in every reachable state every foreign-key column is
    NULL or holds the key of an existing row of the referenced table; this
    covers [tenant_id], which references [tenants(uuid)] in every
    tenant-scoped table but [audit_logs].  No constraint compares the
    [tenant_id] of the two rows. *)
Theorem foreign_keys_resolve (trace : list (env * stmt)) :
  Forall (fun k =>
            Forall (fun r =>
                      get r (fk_column k) = VNull
                      ∨ exists parent,
                          parent ∈ rows_of (crm_run trace empty_db) (fk_ref_table k)
                          ∧ get parent (fk_ref_column k) = get r (fk_column k))
                   (rows_of (crm_run trace empty_db) (fk_table k)))
         (foreign_keys crm_schema).
Proof.
  apply Forall_forall. intros k Hk. apply Forall_forall. intros r Hr.
  destruct (crm_fkey trace k r Hk Hr) as [?|Hkey]; [by left | right].
  by apply has_key_elem.
Qed.

(** ** Audit rows (C3) *)

(** C3, as stated: counterexample.  [UPDATE audit_logs SET is_active =
    FALSE] is accepted, deactivates the audit row and, through the trigger
    the script installs on [audit_logs], rewrites its [updated_at];
    [DELETE FROM audit_logs] is accepted and removes it. *)
Lemma audit_log_rewritten_and_deleted :
  project ["id"; "is_active"; "updated_at"]
    (rows_of (crm_run one_audit_log empty_db) "audit_logs")
  = [[VInt 1; VBool true; VInt 106]]
  ∧ (crm_exec (clock 200) deactivate_audit_logs (crm_run one_audit_log empty_db)).2 = Done
  ∧ project ["id"; "is_active"; "updated_at"]
      (rows_of (crm_exec (clock 200) deactivate_audit_logs
                  (crm_run one_audit_log empty_db)).1 "audit_logs")
    = [[VInt 1; VBool false; VInt 200]]
  ∧ (crm_exec (clock 200) delete_audit_logs (crm_run one_audit_log empty_db)).2 = Done
  ∧ rows_of (crm_exec (clock 200) delete_audit_logs (crm_run one_audit_log empty_db)).1
      "audit_logs" = [].
Proof. vm_compute. done. Qed.

(** C3, amended: an INSERT into any table, and an UPDATE or DELETE on any
    table other than [audit_logs], leaves every audit row in place and
    exactly as it was (the audit rows before the statement are a prefix of
    those after it).  UPDATE and DELETE on [audit_logs] itself are
    ordinary statements that the schema accepts. *)
Theorem audit_logs_kept (e : env) (s : stmt) (d : db) :
  match s with INSERT _ _ => True | _ => target s ≠ "audit_logs" end ->
  rows_of d "audit_logs" `prefix_of` rows_of (crm_exec e s d).1 "audit_logs".
Proof.
  intros Hs. destruct s as [t assigns|t sets where_|t where_].
  - apply (insert_prefix crm_schema crm_triggers).
  - unfold crm_exec. rewrite exec_other_table by (simpl in *; congruence). done.
  - unfold crm_exec. rewrite exec_other_table by (simpl in *; congruence). done.
Qed.

Lemma audit_logs_kept_witness :
  target move_company ≠ "audit_logs"
  ∧ rows_of (crm_run one_audit_log empty_db) "audit_logs"
    `prefix_of` rows_of (crm_exec (clock 200) move_company
                           (crm_run one_audit_log empty_db)).1 "audit_logs".
Proof.
  split; [done |].
  apply (audit_logs_kept (clock 200) move_company (crm_run one_audit_log empty_db)).
  done.
Defined.

(** ** Orders, deals and companies (C4, C7) *)

Lemma keys_all_non_null c l :
  Forall (fun r => get r c ≠ VNull) l -> keys c l = (fun r => get r c) <$> l.
Proof.
  induction 1 as [|r l Hr _ IH]; [done |].
  rewrite keys_cons, decide_False by done. by rewrite IH.
Qed.

Lemma no_key_no_row c v l :
  ¬ has_key c v l -> filter (fun r => get r c = v) l = [].
Proof.
  induction l as [|r l IH]; [done |]. intros Hk.
  rewrite filter_cons, decide_False.
  - apply IH. intros Hl. apply Hk. by apply Exists_cons_tl.
  - intros Hr. apply Hk. by apply Exists_cons_hd.
Qed.

Lemma key_held_once c v l :
  NoDup (keys c l) -> v ≠ VNull -> has_key c v l ->
  length (filter (fun r => get r c = v) l) = 1%nat.
Proof.
  intros Hnd Hv Hk. induction l as [|r l IH]; [by apply Exists_nil in Hk |].
  rewrite keys_cons in Hnd. rewrite filter_cons.
  destruct (decide (get r c = v)) as [Heq|Hne].
  - rewrite decide_False in Hnd by congruence.
    apply NoDup_cons in Hnd as [Hnotin _]. simpl. f_equal.
    rewrite no_key_no_row; [done |].
    intros Hl. apply Hnotin, elem_of_keys. by rewrite Heq.
  - apply IH.
    + destruct (decide (get r c = VNull)); [done |]. by apply NoDup_cons in Hnd as [_ ?].
    + by apply Exists_cons in Hk as [?|?].
Qed.

(** C4, as stated: counterexample (the spec's scenario C).  Deal 30
    belongs to company 10; an order that names deal 30 and company 11 is
    accepted. *)
Lemma order_for_another_company :
  project ["uuid"; "company_id"] (rows_of (crm_run one_deal empty_db) "deals.deals")
  = [[VUuid 30; VUuid 10]]
  ∧ (crm_exec (clock 105) (insert_order 40 "ORD-2025-001" (VUuid 30) 11 1)
       (crm_run one_deal empty_db)).2 = Done
  ∧ project ["order_number"; "deal_id"; "company_id"]
      (rows_of (crm_exec (clock 105) (insert_order 40 "ORD-2025-001" (VUuid 30) 11 1)
                  (crm_run one_deal empty_db)).1 "orders.orders")
    = [[VStr "ORD-2025-001"; VUuid 30; VUuid 11]].
Proof. vm_compute. done. Qed.

(** C4, amended: every Order row references at most one Deal: its
    [deal_id] is NULL, or it is the uuid of exactly one row of
    [deals.deals].  The schema does not compare that Deal's company with
    the Order's. *)
Theorem order_references_one_deal (trace : list (env * stmt)) :
  Forall (fun o =>
            get o "deal_id" = VNull
            ∨ length (filter (fun dl => get dl "uuid" = get o "deal_id")
                        (rows_of (crm_run trace empty_db) "deals.deals")) = 1%nat)
         (rows_of (crm_run trace empty_db) "orders.orders").
Proof.
  apply Forall_forall. intros o Ho.
  assert (Hk : FKey "orders.orders" "deal_id" "deals.deals" "uuid"
               ∈ foreign_keys crm_schema).
  { apply (bool_decide_unpack _). vm_compute. reflexivity. }
  destruct (crm_fkey trace _ o Hk Ho) as [?|Hkey]; [by left |]. simpl in Hkey.
  destruct (decide (get o "deal_id" = VNull)) as [|Hnn]; [by left | right].
  apply key_held_once; [| done | done].
  eapply crm_unique; reflexivity.
Qed.

(** C7: in every reachable state every Order row has a non-null order
    number and a non-null company reference that names an existing
    Company, no two Order rows share an order number, and the deal
    reference is optional: an Order whose [deal_id] is NULL is accepted. *)
Theorem order_number_and_company (trace : list (env * stmt)) :
  Forall (fun o =>
            (exists n, get o "order_number" = VStr n)
            ∧ (exists u, get o "company_id" = VUuid u
                 ∧ exists c, c ∈ rows_of (crm_run trace empty_db) "clients.companies"
                      ∧ get c "uuid" = VUuid u))
         (rows_of (crm_run trace empty_db) "orders.orders")
  ∧ NoDup ((fun o => get o "order_number")
             <$> rows_of (crm_run trace empty_db) "orders.orders")
  ∧ (crm_exec (clock 104) (insert_order 40 "ORD-2025-001" VNull 10 1)
       (crm_run two_tenants empty_db)).2 = Done
  ∧ project ["order_number"; "deal_id"; "company_id"]
      (rows_of (crm_run one_order empty_db) "orders.orders")
    = [[VStr "ORD-2025-001"; VNull; VUuid 10]].
Proof.
  assert (Hnum : Forall (fun o => exists n, get o "order_number" = VStr n)
                   (rows_of (crm_run trace empty_db) "orders.orders")).
  { apply Forall_forall. intros o Ho.
    destruct (crm_column trace "orders.orders" orders_orders_table "order_number"
                (Col "order_number" (VARCHAR 100) [UNIQUE; NOT_NULL]) o
                eq_refl eq_refl Ho) as [Hnn Hty].
    apply has_type_varchar in Hty as [Hnull|(n & Hn & _)]; [| by exists n].
    exfalso. by apply Hnn. }
  split; [| split; [| split]].
  - apply Forall_forall. intros o Ho. split.
    { rewrite Forall_forall in Hnum. by apply Hnum. }
    destruct (crm_uuid_not_null trace "orders.orders" orders_orders_table "company_id"
                (Col "company_id" UUID [NOT_NULL; REFERENCES "clients.companies" "uuid"])
                o eq_refl eq_refl eq_refl eq_refl Ho) as [u Hu].
    exists u. split; [done |].
    assert (Hk : FKey "orders.orders" "company_id" "clients.companies" "uuid"
                 ∈ foreign_keys crm_schema).
    { apply (bool_decide_unpack _). vm_compute. reflexivity. }
    destruct (crm_fkey trace _ o Hk Ho) as [Hnull|Hkey]; simpl in *.
    + congruence.
    + apply has_key_elem in Hkey as (c & Hc & Hcu). exists c. by rewrite <- Hu.
  - rewrite <- keys_all_non_null.
    + eapply crm_unique; reflexivity.
    + eapply Forall_impl; [exact Hnum |]. intros o [n Hn]. by rewrite Hn.
  - vm_compute. reflexivity.
  - vm_compute. reflexivity.
Qed.

(** ** Defaults of the CRM tables *)

(** The column [cn] of the row an INSERT built without naming [cn]. *)
Lemma crm_default e d t T cn c assigns vals :
  find_table crm_schema t = Some T -> find_column T cn = Some c ->
  coerce_assigns T assigns = inr vals -> cn ∉ assigns.*1 ->
  is_serial c = false ->
  get (new_row e d T (list_to_map vals)) cn
  = match col_default c with Some ex => eval_default e ex | None => VNull end.
Proof.
  intros [HT <-]%find_table_Some [Hc <-]%find_column_Some Hco Hcn Hser.
  rewrite (get_new_row crm_schema crm_triggers crm_schema_wf) by done.
  rewrite (column_value_omitted e d T assigns vals c Hco Hcn). by rewrite Hser.
Qed.

(** The table found under a known name. *)
Ltac known_table HT T0 :=
  match type of HT with
  | find_table crm_schema ?t = Some ?T =>
      assert (T = T0) as ->
        by (change (find_table crm_schema t) with (Some T0) in HT; congruence)
  end.

(** ** Primary contacts (C6) *)

(** C6, as stated: counterexample.  Two contacts of company 10 are
    inserted with [is_primary = TRUE]; both statements are accepted and the
    company has two primary contacts. *)
Lemma two_primary_contacts :
  (crm_exec (clock 104) (insert_contact 20 10 "Mohammed" "Al-Rashid" true 1)
     (crm_run two_tenants empty_db)).2 = Done
  ∧ (crm_exec (clock 105) (insert_contact 21 10 "Abdullah" "Al-Saud" true 1)
       (crm_exec (clock 104) (insert_contact 20 10 "Mohammed" "Al-Rashid" true 1)
          (crm_run two_tenants empty_db)).1).2 = Done
  ∧ project ["uuid"; "company_id"; "is_primary"]
      (primary_contacts (crm_run two_contacts empty_db) (VUuid 10))
    = [[VUuid 20; VUuid 10; VBool true]; [VUuid 21; VUuid 10; VBool true]].
Proof. vm_compute. done. Qed.

(** C6, amended: [is_primary] defaults to FALSE, so a Contact inserted
    without naming [is_primary] is not primary: whether the INSERT is
    accepted or not, the primary Contacts of every Company stay as they
    were.  The schema has no constraint on the number of Contacts of a
    Company whose [is_primary] is set to TRUE. *)
Theorem contact_not_primary_by_default (e : env) (assigns : list (string * value))
    (d : db) (company : value) :
  "is_primary" ∉ assigns.*1 ->
  primary_contacts (crm_exec e (INSERT "clients.contacts" assigns) d).1 company
  = primary_contacts d company.
Proof.
  intros Hom. unfold primary_contacts, crm_exec.
  destruct (exec crm_schema crm_triggers e (INSERT "clients.contacts" assigns) d)
    as [d' [|err]] eqn:Hex.
  - simpl in *. apply insert_Done in Hex as (T & vals & HT & Hco & ->).
    known_table HT clients_contacts_table.
    rewrite filter_app, (filter_singleton _ _ []), decide_False; [by rewrite app_nil_r |].
    intros [_ Hp].
    rewrite (crm_default e d "clients.contacts" clients_contacts_table "is_primary"
               (Col "is_primary" BOOLEAN [DEFAULT (Lit (VBool false))]) assigns vals)
      in Hp by done.
    discriminate.
  - pose proof (exec_failed_rows crm_schema crm_triggers e
                  (INSERT "clients.contacts" assigns) d err "clients.contacts") as H.
    rewrite Hex in H. specialize (H eq_refl). simpl in *. by rewrite H.
Qed.

Lemma contact_not_primary_by_default_witness :
  ("is_primary" ∉ contact_without_primary.*1)
  ∧ primary_contacts
      (crm_exec (clock 106) (INSERT "clients.contacts" contact_without_primary)
         (crm_run two_contacts empty_db)).1 (VUuid 10)
    = primary_contacts (crm_run two_contacts empty_db) (VUuid 10).
Proof.
  assert (H : "is_primary" ∉ contact_without_primary.*1).
  { apply (bool_decide_unpack _). vm_compute. reflexivity. }
  split; [exact H |].
  apply (contact_not_primary_by_default (clock 106) contact_without_primary
           (crm_run two_contacts empty_db) (VUuid 10) H).
Defined.

(** ** Stage and probability of a deal (C8) *)

(** C8, as stated: counterexample.  A deal with stage 'bogus' and
    probability 150 is accepted and stored as given. *)
Lemma deal_outside_enumeration :
  (crm_exec (clock 104) (insert_deal 30 "Citrus Fruits Export Deal" 10 "bogus" 150 1)
     (crm_run two_tenants empty_db)).2 = Done
  ∧ project ["uuid"; "stage"; "probability"]
      (rows_of (crm_exec (clock 104)
                  (insert_deal 30 "Citrus Fruits Export Deal" 10 "bogus" 150 1)
                  (crm_run two_tenants empty_db)).1 "deals.deals")
    = [[VUuid 30; VStr "bogus"; VInt 150]].
Proof. vm_compute. done. Qed.

(** C8, amended: in every reachable state the stage of a Deal row is NULL
    or a string of at most 50 characters, and its probability is NULL or
    a 32-bit integer; a Deal inserted without a stage gets 'lead', one
    inserted without a probability gets 0.  The schema has no CHECK
    constraint: it rejects neither a stage outside the six names nor a
    probability outside 0..100. *)
Theorem deal_stage_and_probability :
  (forall trace : list (env * stmt),
     Forall (fun dl =>
               (get dl "stage" = VNull
                ∨ exists s, get dl "stage" = VStr s ∧ (String.length s <= 50)%nat)
               ∧ (get dl "probability" = VNull
                  ∨ exists z, get dl "probability" = VInt z
                       ∧ -2147483648 <= z <= 2147483647))
            (rows_of (crm_run trace empty_db) "deals.deals"))
  ∧ (forall e assigns d d',
       crm_exec e (INSERT "deals.deals" assigns) d = (d', Done) ->
       exists dl,
         rows_of d' "deals.deals" = rows_of d "deals.deals" ++ [dl]
         ∧ ("stage" ∉ assigns.*1 -> get dl "stage" = VStr "lead")
         ∧ ("probability" ∉ assigns.*1 -> get dl "probability" = VInt 0)).
Proof.
  split.
  - intros trace. apply Forall_forall. intros dl Hdl. split.
    + destruct (crm_column trace "deals.deals" deals_deals_table "stage"
                  (Col "stage" (VARCHAR 50) [DEFAULT (Lit (VStr "lead"))]) dl
                  eq_refl eq_refl Hdl) as [_ Hty].
      by apply has_type_varchar.
    + destruct (crm_column trace "deals.deals" deals_deals_table "probability"
                  (Col "probability" INTEGER [DEFAULT (Lit (VInt 0))]) dl
                  eq_refl eq_refl Hdl) as [_ Hty].
      by apply has_type_integer.
  - intros e assigns d d' Hex. unfold crm_exec in Hex. simpl in Hex.
    apply insert_Done in Hex as (T & vals & HT & Hco & ->).
    known_table HT deals_deals_table.
    eexists. split; [reflexivity |]. split; intros Hom.
    + by rewrite (crm_default e d "deals.deals" deals_deals_table "stage"
                    (Col "stage" (VARCHAR 50) [DEFAULT (Lit (VStr "lead"))]) assigns vals).
    + by rewrite (crm_default e d "deals.deals" deals_deals_table "probability"
                    (Col "probability" INTEGER [DEFAULT (Lit (VInt 0))]) assigns vals).
Qed.

Lemma deal_stage_and_probability_witness :
  crm_exec (clock 104) (INSERT "deals.deals" deal_without_stage)
    (crm_run two_tenants empty_db)
  = ((crm_exec (clock 104) (INSERT "deals.deals" deal_without_stage)
        (crm_run two_tenants empty_db)).1, Done)
  ∧ exists dl,
      rows_of (crm_exec (clock 104) (INSERT "deals.deals" deal_without_stage)
                 (crm_run two_tenants empty_db)).1 "deals.deals"
      = rows_of (crm_run two_tenants empty_db) "deals.deals" ++ [dl]
      ∧ ("stage" ∉ deal_without_stage.*1 -> get dl "stage" = VStr "lead")
      ∧ ("probability" ∉ deal_without_stage.*1 -> get dl "probability" = VInt 0).
Proof.
  assert (H : crm_exec (clock 104) (INSERT "deals.deals" deal_without_stage)
                (crm_run two_tenants empty_db)
              = ((crm_exec (clock 104) (INSERT "deals.deals" deal_without_stage)
                    (crm_run two_tenants empty_db)).1, Done)).
  { vm_compute. reflexivity. }
  split; [exact H |].
  exact (proj2 deal_stage_and_probability (clock 104) deal_without_stage
           (crm_run two_tenants empty_db) _ H).
Defined.

(** ** Tenant slugs (C5) *)

Lemma varchar_fits n s : (String.length s <= n)%nat -> varchar n s = Some s.
Proof. intros H. unfold varchar. by rewrite (proj2 (Nat.leb_le _ _) H). Qed.

Lemma tenant_row_fields e d name slug :
  get (tenant_row e d name slug) "id" = VInt (last_value d "tenants_id_seq" + 1)
  ∧ get (tenant_row e d name slug) "uuid" = VUuid (random_uuid e)
  ∧ get (tenant_row e d name slug) "name" = VStr name
  ∧ get (tenant_row e d name slug) "slug" = VStr slug.
Proof. repeat split; reflexivity. Qed.

Lemma crm_new_row e d t T cn c supplied :
  find_table crm_schema t = Some T -> find_column T cn = Some c ->
  get (new_row e d T supplied) cn = column_value e d (tbl_name T) supplied c.
Proof.
  intros [HT <-]%find_table_Some [Hc <-]%find_column_Some.
  by apply (get_new_row crm_schema crm_triggers crm_schema_wf).
Qed.
Open Scope string_scope.
Open Scope list_scope.
Open Scope Z_scope.

Lemma tenants_no_fkeys d news : check_child_fkeys crm_schema "tenants" d news = None.
Proof.
  unfold check_child_fkeys. apply fmap_None, list_find_None.
  assert (H : Forall (fun k => fk_table k ≠ "tenants") (foreign_keys crm_schema)).
  { apply (bool_decide_unpack _). vm_compute. reflexivity. }
  eapply Forall_impl; [exact H |]. intros k Hk [Hk' _]. done.
Qed.

Lemma tenant_row_not_null e d name slug :
  check_not_null tenants_table (tenant_row e d name slug) = None.
Proof.
  unfold check_not_null. apply fmap_None, list_find_None.
  unfold tenants_table. simpl tbl_columns.
  repeat first [apply Forall_nil_2 | apply Forall_cons_2].
  all: intros [Hnn Hnull]; try (by vm_compute in Hnn); by vm_compute in Hnull.
Qed.

Lemma create_tenant_sequence d name slug :
  last_value d "tenants_id_seq" < 2147483647 ->
  check_sequences tenants_table (list_to_map [("name", VStr name); ("slug", VStr slug)]) d
  = None.
Proof.
  intros Hseq. unfold check_sequences. apply fmap_None, list_find_None.
  unfold tenants_table. simpl tbl_columns.
  repeat first [apply Forall_nil_2 | apply Forall_cons_2].
  all: intros [[Hser _] Hmax]; try (by vm_compute in Hser).
  change (seq_name _ _) with "tenants_id_seq" in Hmax. lia.
Qed.

Lemma create_tenant_steps e name slug d :
  (String.length name <= 255)%nat -> (String.length slug <= 100)%nat ->
  last_value d "tenants_id_seq" < 2147483647 ->
  crm_exec e (create_tenant name slug) d
  = let supplied : row := list_to_map [("name", VStr name); ("slug", VStr slug)] in
    let d1 := advance_sequences tenants_table supplied d in
    match check_unique tenants_table (tenant_row e d name slug) (rows_of d "tenants") with
    | Some err => (d1, Failed err)
    | None => (set_rows d1 "tenants" (rows_of d "tenants" ++ [tenant_row e d name slug]), Done)
    end.
Proof.
  intros Hname Hslug Hseq. unfold crm_exec, create_tenant, exec, exec_insert.
  change (find_table crm_schema "tenants") with (Some tenants_table).
  cbv beta iota.
  rewrite decide_True by (apply (bool_decide_unpack _); vm_compute; reflexivity).
  assert (Hco : coerce_assigns tenants_table [("name", VStr name); ("slug", VStr slug)]
                = inr [("name", VStr name); ("slug", VStr slug)]).
  { simpl. by rewrite !varchar_fits. }
  rewrite Hco. rewrite create_tenant_sequence by done.
  fold (tenant_row e d name slug). rewrite tenant_row_not_null.
  destruct (check_unique _ _ _); [done |].
  by rewrite tenants_no_fkeys.
Qed.

Lemma tenant_row_unique e d name slug rows :
  ¬ has_key "id" (VInt (last_value d "tenants_id_seq" + 1)) rows ->
  ¬ has_key "uuid" (VUuid (random_uuid e)) rows ->
  ¬ has_key "slug" (VStr slug) rows ->
  check_unique tenants_table (tenant_row e d name slug) rows = None.
Proof.
  intros Hid Huuid Hslug. unfold check_unique. apply fmap_None, list_find_None.
  unfold tenants_table. simpl tbl_columns.
  repeat first [apply Forall_nil_2 | apply Forall_cons_2].
  all: intros (Hu & _ & Hk); try (by vm_compute in Hu); done.
Qed.

Lemma tenant_row_slug_taken e d name slug rows :
  ¬ has_key "id" (VInt (last_value d "tenants_id_seq" + 1)) rows ->
  ¬ has_key "uuid" (VUuid (random_uuid e)) rows ->
  has_key "slug" (VStr slug) rows ->
  check_unique tenants_table (tenant_row e d name slug) rows
  = Some (unique_violation "tenants" "slug").
Proof.
  intros Hid Huuid Hslug. unfold check_unique.
  erewrite (proj2 (list_find_Some _ _ 3%nat (Col "slug" (VARCHAR 100) [UNIQUE; NOT_NULL])));
    [reflexivity |].
  split; [reflexivity |]. split; [by repeat split |].
  intros j c Hj Hlt (Hu & _ & Hk).
  destruct j as [|[|[|j]]]; [| | | lia]; injection Hj as <-;
    first [by vm_compute in Hu | done].
Qed.

Lemma coerce_assigns_elem T assigns vals c v :
  coerce_assigns T assigns = inr vals -> (c, v) ∈ assigns ->
  exists col v', find_column T c = Some col ∧ coerce (col_type col) v = Some v'
                 ∧ (c, v') ∈ vals.
Proof.
  revert vals. induction assigns as [|[c0 v0] rest IH]; intros vals; simpl.
  - intros _ H. by apply elem_of_nil in H.
  - destruct (find_column T c0) as [col|] eqn:Hcol; [| done].
    destruct (coerce (col_type col) v0) as [v'|] eqn:Hco; [| done].
    destruct (coerce_assigns T rest) as [err|rest'] eqn:Hrest; [done |].
    intros [= <-] [[= -> ->]|Hin]%elem_of_cons.
    + exists col, v'. repeat split; try done. apply elem_of_cons. by left.
    + destruct (IH rest' eq_refl Hin) as (col' & v'' & ? & ? & ?).
      exists col', v''. repeat split; try done. apply elem_of_cons. by right.
Qed.

Lemma slug_taken_rejected e assigns d slug :
  (String.length slug <= 100)%nat ->
  has_key "slug" (VStr slug) (rows_of d "tenants") ->
  (("slug", VStr slug) ∈ assigns) ->
  exists err, (crm_exec e (INSERT "tenants" assigns) d).2 = Failed err.
Proof.
  intros Hlen Hkey Hin. unfold crm_exec, exec, exec_insert.
  change (find_table crm_schema "tenants") with (Some tenants_table). cbv beta iota.
  destruct (decide (NoDup assigns.*1)) as [Hnd|]; [| by eexists].
  destruct (coerce_assigns tenants_table assigns) as [err|vals] eqn:Hco; [by eexists |].
  destruct (check_sequences _ _ _); [by eexists |].
  destruct (check_not_null _ _); [by eexists |].
  destruct (check_unique _ _ _) eqn:Hu; [by eexists |].
  exfalso.
  destruct (coerce_assigns_elem _ _ _ _ _ Hco Hin) as (col & v' & Hcol & Hv' & Hvals).
  injection Hcol as <-. simpl in Hv'. rewrite varchar_fits in Hv' by done.
  injection Hv' as <-.
  assert (Hget : get (new_row e d tenants_table (list_to_map vals)) "slug" = VStr slug).
  { rewrite (crm_new_row e d "tenants" tenants_table "slug"
               (Col "slug" (VARCHAR 100) [UNIQUE; NOT_NULL])) by reflexivity.
    unfold column_value. simpl col_name.
    erewrite elem_of_list_to_map_1; [reflexivity | | exact Hvals].
    destruct (coerce_assigns_spec _ _ _ Hco) as [-> _]. done. }
  destruct (find_column_Some tenants_table "slug"
              (Col "slug" (VARCHAR 100) [UNIQUE; NOT_NULL]) eq_refl) as [Hc _].
  destruct (check_unique_None _ _ _ Hu _ Hc) as [Hnull|Hnk]; [done | |].
  - simpl in Hnull. congruence.
  - simpl in Hnk. rewrite Hget in Hnk. done.
Qed.

(** C5: tenant slugs are unique.  In a state where the slug is free, a
    tenant created with that slug is accepted and stored.  From then on
    every INSERT into [tenants] that supplies the same slug is rejected and
    leaves the table as it was, so only the first tenant persists; and when
    the second tenant is created the same way, with an id and a uuid of its
    own, the error is the violation of UNIQUE on [tenants.slug] (PostgreSQL's
    unique_violation on tenants_slug_key, which the spec calls
    DuplicateSlugError). *)
Theorem tenant_slug_unique (d : db) (e1 e2 : env) (name1 name2 slug : string)
    (assigns : list (string * value)) :
  (String.length name1 <= 255)%nat -> (String.length slug <= 100)%nat ->
  last_value d "tenants_id_seq" < 2147483647 ->
  ¬ has_key "id" (VInt (last_value d "tenants_id_seq" + 1)) (rows_of d "tenants") ->
  ¬ has_key "uuid" (VUuid (random_uuid e1)) (rows_of d "tenants") ->
  ¬ has_key "slug" (VStr slug) (rows_of d "tenants") ->
  let first := crm_exec e1 (create_tenant name1 slug) d in
  first.2 = Done
  ∧ rows_of first.1 "tenants" = rows_of d "tenants" ++ [tenant_row e1 d name1 slug]
  ∧ get (tenant_row e1 d name1 slug) "slug" = VStr slug
  ∧ ((("slug", VStr slug) ∈ assigns) ->
     (exists err, (crm_exec e2 (INSERT "tenants" assigns) first.1).2 = Failed err)
     ∧ rows_of (crm_exec e2 (INSERT "tenants" assigns) first.1).1 "tenants"
       = rows_of first.1 "tenants")
  ∧ ((String.length name2 <= 255)%nat ->
     last_value first.1 "tenants_id_seq" < 2147483647 ->
     ¬ has_key "id" (VInt (last_value first.1 "tenants_id_seq" + 1))
         (rows_of first.1 "tenants") ->
     ¬ has_key "uuid" (VUuid (random_uuid e2)) (rows_of first.1 "tenants") ->
     (crm_exec e2 (create_tenant name2 slug) first.1).2
     = Failed (unique_violation "tenants" "slug")).
Proof.
  intros Hname1 Hslug Hseq Hid Huuid Hfree first.
  assert (Hfirst : first = (set_rows (advance_sequences tenants_table
                                        (list_to_map [("name", VStr name1);
                                                      ("slug", VStr slug)]) d)
                              "tenants"
                              (rows_of d "tenants" ++ [tenant_row e1 d name1 slug]),
                            Done)).
  { unfold first. rewrite create_tenant_steps by done. cbv zeta.
    by rewrite tenant_row_unique. }
  assert (Hrows : rows_of first.1 "tenants"
                  = rows_of d "tenants" ++ [tenant_row e1 d name1 slug]).
  { rewrite Hfirst. apply rows_of_set_rows_eq. }
  assert (Htaken : has_key "slug" (VStr slug) (rows_of first.1 "tenants")).
  { rewrite Hrows. apply has_key_elem. exists (tenant_row e1 d name1 slug).
    split; [| reflexivity]. apply elem_of_app. right. by apply list_elem_of_singleton. }
  split; [by rewrite Hfirst |]. split; [exact Hrows |]. split; [reflexivity |]. split.
  - intros Hin.
    destruct (slug_taken_rejected e2 assigns first.1 slug Hslug Htaken Hin) as [err Herr].
    split; [by exists err |].
    by apply (exec_failed_rows crm_schema crm_triggers e2 (INSERT "tenants" assigns)
                first.1 err).
  - intros Hname2 Hseq2 Hid2 Huuid2.
    rewrite create_tenant_steps by done. cbv zeta.
    by rewrite (tenant_row_slug_taken e2 first.1 name2 slug).
Qed.


Lemma tenant_slug_unique_witness :
  (crm_exec (Env 104 3) (create_tenant "Kuwait Wholesale Market" "kuwait-market")
     (crm_run two_tenants empty_db)).2 = Done
  ∧ (crm_exec (Env 105 4) (create_tenant "Kuwait Wholesale Market WLL" "kuwait-market")
       (crm_exec (Env 104 3) (create_tenant "Kuwait Wholesale Market" "kuwait-market")
          (crm_run two_tenants empty_db)).1).2
    = Failed (unique_violation "tenants" "slug").
Proof.
  destruct (tenant_slug_unique (crm_run two_tenants empty_db) (Env 104 3) (Env 105 4)
              "Kuwait Wholesale Market" "Kuwait Wholesale Market WLL" "kuwait-market"
              [("name", VStr "Kuwait Wholesale Market WLL");
               ("slug", VStr "kuwait-market")]) as (H1 & _ & _ & _ & H5).
  - vm_compute. lia.
  - vm_compute. lia.
  - vm_compute. reflexivity.
  - apply (bool_decide_unpack _). vm_compute. reflexivity.
  - apply (bool_decide_unpack _). vm_compute. reflexivity.
  - apply (bool_decide_unpack _). vm_compute. reflexivity.
  - split; [exact H1 |]. apply H5.
    + vm_compute. lia.
    + vm_compute. reflexivity.
    + apply (bool_decide_unpack _). vm_compute. reflexivity.
    + apply (bool_decide_unpack _). vm_compute. reflexivity.
Defined.

(* ===================================================================== *)
(** * Part VI: further properties of utils.js *)
(* ===================================================================== *)

(** ** truncateText, applied twice *)

Lemma substring_prefix_append (s1 s2 : string) :
  substring 0 (String.length s1) (s1 +:+ s2) = s1.
Proof.
  induction s1 as [|c s1 IH]; simpl.
  - by destruct s2.
  - by rewrite IH.
Qed.

Lemma truncateText_fits (text : string) (m : Z) :
  js_length text <= m -> truncateText text (Some m) = text.
Proof.
  intros H. unfold truncateText. simpl.
  destruct (js_length text <=? m) eqn:E; [done | lia].
Qed.

Lemma truncateText_cut (text : string) (m : Z) :
  0 <= m < js_length text ->
  truncateText text (Some m) = substring 0 (Z.to_nat m) text +:+ "...".
Proof.
  intros H. unfold truncateText. simpl.
  destruct (js_length text <=? m) eqn:E; [lia |].
  by rewrite js_slice_prefix by lia.
Qed.

(** X1: truncating is idempotent.  For a non-negative [maxLength], a text
    that was cut to [maxLength] characters plus "..." is longer than
    [maxLength], is cut again at the same place and gets the same "...";
    a text that fitted is returned as it is both times. *)
Theorem truncateText_idempotent (text : string) (maxLength : Z) :
  0 <= maxLength ->
  truncateText (truncateText text (Some maxLength)) (Some maxLength)
  = truncateText text (Some maxLength).
Proof.
  intros Hm.
  destruct (Z_le_gt_dec (js_length text) maxLength) as [Hle|Hgt].
  - rewrite (truncateText_fits text) by done. by apply truncateText_fits.
  - rewrite (truncateText_cut text) by lia.
    assert (Hp : String.length (substring 0 (Z.to_nat maxLength) text)
                 = Z.to_nat maxLength).
    { apply length_substring_prefix. unfold js_length in Hgt. lia. }
    rewrite truncateText_cut.
    + f_equal. rewrite <- Hp at 1. apply substring_prefix_append.
    + unfold js_length. rewrite length_append, Hp. simpl. lia.
Qed.

Lemma truncateText_idempotent_witness :
  0 <= 4
  /\ truncateText (truncateText "Gulf Fresh Foods LLC" (Some 4)) (Some 4)
     = truncateText "Gulf Fresh Foods LLC" (Some 4).
Proof.
  split; [lia |]. apply (truncateText_idempotent "Gulf Fresh Foods LLC" 4). lia.
Defined.

(** ** sortBy sorts *)

Section SortBySorted.

Variable js_lt : jsval -> jsval -> bool.





End SortBySorted.




(** ** sortBy and its direction *)

Lemma sort_insert_ext (cmp cmp' : jsval -> jsval -> Z) x l :
  (forall a b, cmp a b = cmp' a b) -> sort_insert cmp x l = sort_insert cmp' x l.
Proof.
  intros Hext. induction l as [|y rest IH]; simpl; [done |].
  by rewrite Hext, IH.
Qed.

Lemma insertion_sort_ext (cmp cmp' : jsval -> jsval -> Z) l :
  (forall a b, cmp a b = cmp' a b) -> insertion_sort cmp l = insertion_sort cmp' l.
Proof.
  intros Hext. unfold insertion_sort. generalize (@nil jsval).
  induction l as [|x l IH]; intros acc; simpl; [done |].
  by rewrite (sort_insert_ext cmp cmp' x acc Hext), IH.
Qed.

(** X3: only the exact string "asc" sorts upwards.  For any other
    direction ("ASC", "ascending", the empty string, ...) [sortBy] gives
    what it gives for "desc". *)
Theorem sortBy_direction (js_lt : jsval -> jsval -> bool) (h : heap) (array : loc)
    (key direction : string) :
  direction <> "asc" ->
  sortBy js_lt h array key (Some direction) = sortBy js_lt h array key (Some "desc").
Proof.
  intros Hd. unfold sortBy. simpl.
  destruct (spread h array) as [[h1 copy]|]; [| done].
  unfold array_sort. destruct (h1 !! copy) as [elems|]; [| done].
  unfold js_sort.
  rewrite (insertion_sort_ext (comparator js_lt key direction)
             (comparator js_lt key "desc")); [done |].
  intros a b. unfold comparator.
  apply String.eqb_neq in Hd. by rewrite Hd.
Qed.

Lemma sortBy_direction_witness :
  "ASC" <> "asc"
  /\ sortBy lt_numbers example_heap 1%positive "n" (Some "ASC")
     = sortBy lt_numbers example_heap 1%positive "n" (Some "desc").
Proof.
  split; [discriminate |].
  apply (sortBy_direction lt_numbers example_heap 1%positive "n" "ASC"). discriminate.
Defined.

(** ** groupBy *)

Lemma groupBy_thrown key array : fold_left (groupBy_step key) array None = None.
Proof. by induction array. Qed.

Lemma group_items_snoc key k prefix item :
  group_items key k (prefix ++ [item])
  = group_items key k prefix ++ (if decide (group_of key item = k) then [item] else []).
Proof.
  unfold group_items. rewrite filter_app, (filter_singleton _ _ []).
  by destruct (decide _).
Qed.

Lemma present_Some items l : present items = Some l -> l = items ∧ items ≠ [].
Proof. destruct items; simpl; [done |]. by intros [= <-]. Qed.

Lemma present_None items : present items = None -> items = [].
Proof. by destruct items. Qed.

Lemma present_snoc items item : present (items ++ [item]) = Some (items ++ [item]).
Proof. by destruct items. Qed.

(** The groups after the items of [prefix] hold, name by name, the items
    of that name; running through [array] keeps it so. *)
Lemma groupBy_fold key array :
  forall prefix g0 g,
  (forall k, g0 !! k = present (group_items key k prefix)) ->
  fold_left (groupBy_step key) array (Some g0) = Some g ->
  forall k, g !! k = present (group_items key k (prefix ++ array)).
Proof.
  induction array as [|item array IH]; intros prefix g0 g Hinv; cbn [fold_left].
  - intros [= <-] k. by rewrite app_nil_r.
  - intros Hfold.
    destruct (groupBy_step key (Some g0) item) as [g1|] eqn:Hstep;
      [| by rewrite groupBy_thrown in Hfold].
    assert (Hinv1 : forall k, g1 !! k = present (group_items key k (prefix ++ [item]))).
    { unfold groupBy_step in Hstep. intros k. rewrite group_items_snoc.
      destruct (g0 !! group_of key item) as [items|] eqn:Hg.
      - injection Hstep as <-.
        rewrite Hinv in Hg. apply present_Some in Hg as [-> _].
        destruct (decide (group_of key item = k)) as [<-|Hne].
        + by rewrite lookup_insert_eq, present_snoc.
        + by rewrite lookup_insert_ne, app_nil_r, Hinv.
      - destruct (bool_decide _); [done |]. injection Hstep as <-.
        rewrite Hinv in Hg. apply present_None in Hg.
        destruct (decide (group_of key item = k)) as [<-|Hne].
        + by rewrite lookup_insert_eq, Hg.
        + by rewrite lookup_insert_ne, app_nil_r, Hinv. }
    intros k. rewrite (IH _ _ _ Hinv1 Hfold k). by rewrite <- app_assoc.
Qed.

Lemma groupBy_groups array key g :
  groupBy array key = Some g ->
  forall k, g !! k = present (group_items key k array).
Proof.
  intros Hg k. apply (groupBy_fold key array [] ∅ g); [| exact Hg].
  intros k'. by rewrite lookup_empty.
Qed.


Lemma groupBy_throws_iff key array :
  forall g0,
  (forall k, is_Some (g0 !! k) -> k ∉ object_prototype_members) ->
  (fold_left (groupBy_step key) array (Some g0) = None
   <-> Exists (fun item => group_of key item ∈ object_prototype_members) array).
Proof.
  induction array as [|item array IH]; intros g0 Hown; simpl.
  - split; [done | by intros ?%Exists_nil].
  - rewrite Exists_cons.
    destruct (g0 !! group_of key item) as [items|] eqn:Hg.
    + rewrite IH.
      * split; [by right | intros [Hin|?]; [| done]].
        exfalso. by apply (Hown (group_of key item)).
      * intros k [v Hv]. apply Hown.
        destruct (decide (group_of key item = k)) as [<-|Hne]; [done |].
        rewrite lookup_insert_ne in Hv by done. by exists v.
    + destruct (bool_decide (group_of key item ∈ object_prototype_members)) eqn:Hm.
      * apply bool_decide_eq_true in Hm. rewrite groupBy_thrown. by split; [left |].
      * apply bool_decide_eq_false in Hm. rewrite IH.
        -- split; [by right | by intros [?|?]].
        -- intros k [v Hv].
           destruct (decide (group_of key item = k)) as [<-|Hne]; [done |].
           rewrite lookup_insert_ne in Hv by done. apply Hown. by exists v.
Qed.

(** X5: [groupBy] throws exactly when some item falls under a name that
    objects inherit from [Object.prototype] ("constructor", "toString",
    "__proto__", ...): for such a name [groups[group] || []] is the
    inherited member, which has no [push]. *)
Theorem groupBy_throws (array : list jsval) (key : string) :
  groupBy array key = None
  <-> Exists (fun item => group_of key item ∈ object_prototype_members) array.
Proof.
  apply groupBy_throws_iff. intros k [v Hv]. by rewrite lookup_empty in Hv.
Qed.

Lemma concat_Permutation {A} (l l' : list (list A)) : l ≡ₚ l' -> concat l ≡ₚ concat l'.
Proof.
  induction 1 as [|x l l' _ IH|x y l|l l' l'' _ IH1 _ IH2]; simpl.
  - done.
  - by rewrite IH.
  - rewrite !app_assoc. f_equiv. apply Permutation_app_comm.
  - by rewrite IH1.
Qed.

Lemma groupBy_step_concat key g0 item g1 :
  groupBy_step key (Some g0) item = Some g1 ->
  concat (map_to_list g1).*2 ≡ₚ concat (map_to_list g0).*2 ++ [item].
Proof.
  unfold groupBy_step. destruct (g0 !! group_of key item) as [items|] eqn:Hg.
  - intros [= <-]. rewrite <- insert_delete_eq.
    rewrite (concat_Permutation _ _ (fmap_Permutation snd _ _
               (map_to_list_insert _ _ _ (lookup_delete_eq g0 (group_of key item))))).
    rewrite <- (concat_Permutation _ _ (fmap_Permutation snd _ _
               (map_to_list_delete _ _ _ Hg))).
    simpl. rewrite <- !app_assoc. f_equiv. apply Permutation_app_comm.
  - destruct (bool_decide _); [done |]. intros [= <-].
    rewrite (concat_Permutation _ _ (fmap_Permutation snd _ _
               (map_to_list_insert _ _ [item] Hg))).
    simpl. apply Permutation_cons_append.
Qed.

(** X6: [groupBy] loses and duplicates nothing.  When it returns, the
    arrays of all groups together hold exactly the items of the input,
    each as often as the input has it. *)
Theorem groupBy_all_items (array : list jsval) (key : string)
    (g : gmap string (list jsval)) :
  groupBy array key = Some g ->
  concat (map_to_list g).*2 ≡ₚ array.
Proof.
  unfold groupBy.
  assert (H : forall g0 prefix,
             concat (map_to_list g0).*2 ≡ₚ prefix ->
             fold_left (groupBy_step key) array (Some g0) = Some g ->
             concat (map_to_list g).*2 ≡ₚ prefix ++ array).
  { induction array as [|item array IH]; intros g0 prefix Hpre; cbn [fold_left].
    - intros [= <-]. by rewrite app_nil_r.
    - destruct (groupBy_step key (Some g0) item) as [g1|] eqn:Hstep;
        [| by rewrite groupBy_thrown].
      intros Hfold. rewrite (IH g1 (prefix ++ [item])); [by rewrite <- app_assoc | | done].
      rewrite (groupBy_step_concat _ _ _ _ Hstep). by rewrite Hpre. }
  intros Hg. apply (H ∅ []); [| exact Hg]. by rewrite map_to_list_empty.
Qed.


Lemma groupBy_all_items_witness :
  groupBy three_deals "stage" = Some deals_by_stage
  /\ concat (map_to_list deals_by_stage).*2 ≡ₚ three_deals.
Proof.
  split; [vm_compute; reflexivity |].
  apply (groupBy_all_items three_deals "stage" deals_by_stage).
  vm_compute; reflexivity.
Defined.

(** X7: grouping does not depend on the order of the array, up to the
    order inside each group.  In particular grouping the array that
    [sortBy] returns fails exactly when grouping its argument fails, and
    otherwise gives the same group names, each group a permutation of the
    one obtained from the argument. *)
Theorem groupBy_after_sortBy (js_lt : jsval -> jsval -> bool) (h : heap) (array : loc)
    (elems : list jsval) (sort_key : string) (direction : option string)
    (key : string) :
  h !! array = Some elems ->
  exists h' result sorted,
    sortBy js_lt h array sort_key direction = Some (h', result)
    /\ h' !! result = Some sorted
    /\ (groupBy sorted key = None <-> groupBy elems key = None)
    /\ forall g g' k,
         groupBy elems key = Some g -> groupBy sorted key = Some g' ->
         match g !! k, g' !! k with
         | Some items, Some items' => items' ≡ₚ items
         | None, None => True
         | _, _ => False
         end.
Proof.
  intros Harr. unfold sortBy, spread. rewrite Harr. simpl.
  unfold array_sort. rewrite lookup_insert_eq.
  eexists _, _, _. split; [reflexivity |].
  split; [rewrite lookup_insert_eq; reflexivity |].
  set (sorted := js_sort _ elems).
  assert (Hperm : sorted ≡ₚ elems) by apply js_sort_perm.
  split.
  - rewrite !groupBy_throws. by rewrite Hperm.
  - intros g g' k Hg Hg'.
    rewrite (groupBy_groups _ _ _ Hg k), (groupBy_groups _ _ _ Hg' k).
    assert (Hk : group_items key k sorted ≡ₚ group_items key k elems).
    { unfold group_items. by rewrite Hperm. }
    destruct (group_items key k elems) as [|x l] eqn:He;
      destruct (group_items key k sorted) as [|x' l'] eqn:Hs; simpl; try done.
    + symmetry in Hk. by apply Permutation_nil_cons in Hk.
    + by apply Permutation_nil_cons in Hk.
Qed.

Lemma groupBy_after_sortBy_witness :
  deals_heap !! 1%positive = Some three_deals
  /\ exists h' result sorted,
      sortBy lt_numbers deals_heap 1%positive "value" None = Some (h', result)
      /\ h' !! result = Some sorted
      /\ (groupBy sorted "stage" = None <-> groupBy three_deals "stage" = None)
      /\ forall g g' k,
           groupBy three_deals "stage" = Some g -> groupBy sorted "stage" = Some g' ->
           match g !! k, g' !! k with
           | Some items, Some items' => items' ≡ₚ items
           | None, None => True
           | _, _ => False
           end.
Proof.
  split; [reflexivity |].
  apply (groupBy_after_sortBy lt_numbers deals_heap 1%positive three_deals "value" None "stage").
  reflexivity.
Defined.

(** ** isValidEmail *)

Lemma matches_nil_nullable r s : matches r s -> s = [] -> nullable r = true.
Proof.
  induction 1 as [|p c Hp|r1 r2 s1 s2 _ IH1 _ IH2|r1 r2 s _ IH|r1 r2 s _ IH| |];
    intros Hs; simpl; try done.
  - apply app_eq_nil in Hs as [-> ->]. by rewrite IH1, IH2.
  - by rewrite IH.
  - rewrite IH by done. apply orb_true_r.
Qed.

Lemma nullable_matches r : nullable r = true <-> matches r [].
Proof.
  split; [| intros H; by apply (matches_nil_nullable r [])].
  induction r as [| |p|r1 IH1 r2 IH2|r1 IH1 r2 IH2|r IH]; simpl; intros Hn; try done.
  - constructor.
  - apply andb_true_iff in Hn as [H1 H2].
    apply (matches_seq r1 r2 [] []); auto.
  - apply orb_true_iff in Hn as [H1|H2];
      [apply matches_alt_l | apply matches_alt_r]; auto.
  - constructor.
Qed.

Lemma derive_sound c r : forall s, matches (derive c r) s -> matches r (c :: s).
Proof.
  induction r as [| |p|r1 IH1 r2 IH2|r1 IH1 r2 IH2|r IH]; simpl; intros s H.
  - inversion H.
  - inversion H.
  - destruct (p c) eqn:Hp; inversion H; subst. by constructor.
  - assert (Hseq : forall s, matches (Seq (derive c r1) r2) s -> matches (Seq r1 r2) (c :: s)).
    { intros s' H'. inversion H'; subst.
      apply (matches_seq r1 r2 (c :: _) _); auto. }
    destruct (nullable r1) eqn:Hn; [| by apply Hseq].
    inversion H; subst; [by apply Hseq |].
    apply (matches_seq r1 r2 [] (c :: s)); [by apply nullable_matches | auto].
  - inversion H; subst; [apply matches_alt_l | apply matches_alt_r]; auto.
  - inversion H; subst. apply (matches_star_app r (c :: _) _); auto.
Qed.

Lemma derive_complete r s' :
  matches r s' -> forall c s, s' = c :: s -> matches (derive c r) s.
Proof.
  induction 1 as [|p c0 Hp|r1 r2 s1 s2 H1 IH1 H2 IH2|r1 r2 s0 _ IH|r1 r2 s0 _ IH|
                  |r s1 s2 H1 IH1 H2 IH2]; intros c s Hs; simpl; try done.
  - injection Hs as -> <-. rewrite Hp. constructor.
  - destruct s1 as [|c1 s1]; simpl in Hs.
    + rewrite (matches_nil_nullable r1 [] H1 eq_refl).
      apply matches_alt_r. by apply IH2.
    + injection Hs as -> <-.
      assert (matches (Seq (derive c r1) r2) (s1 ++ s2))
        by (constructor; [by apply IH1 | done]).
      destruct (nullable r1); [by apply matches_alt_l | done].
  - apply matches_alt_l. by apply IH.
  - apply matches_alt_r. by apply IH.
  - destruct s1 as [|c1 s1]; simpl in Hs.
    + by apply IH2.
    + injection Hs as -> <-. constructor; [by apply IH1 | done].
Qed.

(** Matching by derivatives decides the language of the expression. *)
Lemma regex_test_matches s : forall r, regex_test r s = true <-> matches r s.
Proof.
  unfold regex_test. induction s as [|c s IH]; intros r; simpl.
  - apply nullable_matches.
  - rewrite IH. split; [apply derive_sound |].
    intros H. by apply (derive_complete r (c :: s)).
Qed.

Lemma matches_seq_inv r1 r2 s :
  matches (Seq r1 r2) s -> exists s1 s2, s = s1 ++ s2 ∧ matches r1 s1 ∧ matches r2 s2.
Proof. intros H. inversion H; subst. eauto. Qed.

Lemma matches_star_class p s :
  matches (Star (Class p)) s <-> Forall (fun c => p c = true) s.
Proof.
  split.
  - remember (Star (Class p)) as r eqn:Hr. intros H. revert Hr.
    induction H as [| | | | | |r s1 s2 H1 _ H2 IH2]; intros Hr; try done.
    injection Hr as ->. inversion H1; subst. constructor; auto.
  - induction 1 as [|c s Hc _ IH]; [constructor |].
    apply (matches_star_app (Class p) [c] s); [by constructor | done].
Qed.

Lemma matches_plus_class p s :
  matches (Plus (Class p)) s <-> s <> [] ∧ Forall (fun c => p c = true) s.
Proof.
  unfold Plus. split.
  - intros H. inversion H as [| |r1 r2 s1 s2 H1 H2| | | |]; subst.
    inversion H1; subst. apply matches_star_class in H2. split; [done |].
    constructor; auto.
  - intros [Hne H]. destruct H as [|c s Hc H]; [done |].
    apply (matches_seq (Class p) _ [c] s); [by constructor |].
    by apply matches_star_class.
Qed.

Lemma matches_class_eqb a s : matches (Class (Ascii.eqb a)) s <-> s = [a].
Proof.
  split.
  - intros H. inversion H; subst. by rewrite (proj1 (Ascii.eqb_eq _ _) H1).
  - intros ->. constructor. apply Ascii.eqb_refl.
Qed.

Lemma isValidEmail_parts (email : string) :
  isValidEmail email = true
  <-> exists local domain tld,
        list_ascii_of_string email = local ++ "@"%char :: domain ++ "."%char :: tld
        ∧ units_part local ∧ units_part domain ∧ units_part tld.
Proof.
  unfold isValidEmail, emailRegex, units_part. rewrite regex_test_matches. split.
  - intros (local & s2 & Hs & Hl & H2)%matches_seq_inv.
    apply matches_seq_inv in H2 as (at_ & s3 & -> & Ha & H3).
    apply matches_seq_inv in H3 as (domain & s4 & -> & Hd & H4).
    apply matches_seq_inv in H4 as (dot & tld & -> & Hdot & Ht).
    apply matches_class_eqb in Ha as ->. apply matches_class_eqb in Hdot as ->.
    apply matches_plus_class in Hl, Hd, Ht.
    exists local, domain, tld. by rewrite Hs.
  - intros (local & domain & tld & -> & Hl & Hd & Ht).
    apply matches_seq; [by apply matches_plus_class |].
    apply (matches_seq _ _ ["@"%char]); [by apply matches_class_eqb |].
    apply matches_seq; [by apply matches_plus_class |].
    apply (matches_seq _ _ ["."%char]); [by apply matches_class_eqb |].
    by apply matches_plus_class.
Qed.

Lemma list_ascii_of_string_app (s1 s2 : string) :
  list_ascii_of_string (s1 +:+ s2) = list_ascii_of_string s1 ++ list_ascii_of_string s2.
Proof. induction s1 as [|c s1 IH]; simpl; [done | by rewrite IH]. Qed.

Lemma list_ascii_of_string_inj (a b : string) :
  list_ascii_of_string a = list_ascii_of_string b -> a = b.
Proof.
  intros H. rewrite <- (string_of_list_ascii_of_string a), H.
  apply string_of_list_ascii_of_string.
Qed.

Lemma list_ascii_of_string_length (s : string) :
  length (list_ascii_of_string s) = String.length s.
Proof. induction s as [|c s IH]; simpl; [done | by rewrite IH]. Qed.

Lemma not_space_at_spec c :
  not_space_at c = true <-> is_space c = false ∧ c <> "@"%char.
Proof.
  unfold not_space_at. rewrite andb_true_iff, !negb_true_iff.
  by rewrite Ascii.eqb_neq.
Qed.

Lemma units_part_string (s : string) :
  units_part (list_ascii_of_string s) <-> address_part s.
Proof.
  unfold units_part, address_part. split; intros [Hne H]; split.
  - by intros ->.
  - eapply Forall_impl; [exact H |]. intros c. apply not_space_at_spec.
  - by destruct s.
  - eapply Forall_impl; [exact H |]. intros c. apply not_space_at_spec.
Qed.

(** X8: [isValidEmail] accepts exactly the strings of the shape
    local "@" domain "." tld, where each of the three parts is not empty
    and holds neither white space nor "@" (it may hold dots and anything
    else). *)
Theorem isValidEmail_spec (email : string) :
  isValidEmail email = true
  <-> exists local domain tld : string,
        email = local +:+ "@" +:+ domain +:+ "." +:+ tld
        ∧ address_part local ∧ address_part domain ∧ address_part tld.
Proof.
  rewrite isValidEmail_parts. split.
  - intros (local & domain & tld & He & Hl & Hd & Ht).
    exists (string_of_list_ascii local), (string_of_list_ascii domain),
           (string_of_list_ascii tld).
    rewrite <- !units_part_string, !list_ascii_of_string_of_list_ascii.
    split; [| done].
    apply list_ascii_of_string_inj.
    rewrite He, !list_ascii_of_string_app, !list_ascii_of_string_of_list_ascii. done.
  - intros (local & domain & tld & -> & Hl & Hd & Ht).
    exists (list_ascii_of_string local), (list_ascii_of_string domain),
           (list_ascii_of_string tld).
    rewrite !units_part_string, !list_ascii_of_string_app. done.
Qed.

Lemma units_part_no_at s :
  units_part s -> filter (fun c => c = "@"%char) s = [].
Proof.
  intros [_ H]. induction H as [|c s Hc _ IH]; [done |].
  apply not_space_at_spec in Hc as [_ Hc].
  by rewrite filter_cons_False.
Qed.

Lemma units_part_no_space s :
  units_part s -> Forall (fun c => is_space c = false) s.
Proof.
  intros [_ H]. eapply Forall_impl; [exact H |].
  intros c. by intros [? _]%not_space_at_spec.
Qed.

Lemma units_part_length s : units_part s -> (1 <= length s)%nat.
Proof. intros [Hne _]. destruct s; [done | simpl; lia]. Qed.

(** X9: what [isValidEmail] rejects.  An accepted string has at least
    five code units, exactly one "@" and no white space (tab, line feed,
    vertical tab, form feed, carriage return, space, no-break space). *)
Theorem isValidEmail_necessary (email : string) :
  isValidEmail email = true ->
  (5 <= String.length email)%nat
  ∧ length (filter (fun c => c = "@"%char) (list_ascii_of_string email)) = 1%nat
  ∧ Forall (fun c => is_space c = false) (list_ascii_of_string email).
Proof.
  intros (local & domain & tld & He & Hl & Hd & Ht)%isValidEmail_parts.
  rewrite <- list_ascii_of_string_length, He. split; [| split].
  - apply units_part_length in Hl, Hd, Ht.
    rewrite length_app. simpl. rewrite length_app. simpl. lia.
  - rewrite filter_app, filter_cons_True by done.
    rewrite filter_app, filter_cons_False by done.
    by rewrite !units_part_no_at.
  - apply Forall_app. split; [by apply units_part_no_space |].
    constructor; [done |]. apply Forall_app. split; [by apply units_part_no_space |].
    constructor; [done |]. by apply units_part_no_space.
Qed.

Lemma isValidEmail_necessary_witness :
  isValidEmail "info@orienttrading.com" = true
  /\ (5 <= String.length "info@orienttrading.com")%nat
  /\ length (filter (fun c => c = "@"%char)
               (list_ascii_of_string "info@orienttrading.com")) = 1%nat
  /\ Forall (fun c => is_space c = false)
       (list_ascii_of_string "info@orienttrading.com").
Proof.
  split; [reflexivity |].
  apply (isValidEmail_necessary "info@orienttrading.com"). reflexivity.
Defined.

(** ** getStatusColor and getInitials *)

Lemma to_lower_char_idempotent c : to_lower_char (to_lower_char c) = to_lower_char c.
Proof. destruct c as [[] [] [] [] [] [] [] []]; reflexivity. Qed.

Lemma toLowerCase_idempotent s : toLowerCase (toLowerCase s) = toLowerCase s.
Proof.
  induction s as [|c s IH]; simpl; [done |].
  by rewrite to_lower_char_idempotent, IH.
Qed.

(** X10: [getStatusColor] does not look at the case of the status: a
    status and its lower-case form get the same answer. *)
Theorem getStatusColor_case_insensitive (status : string) :
  getStatusColor (Some (toLowerCase status)) = getStatusColor (Some status).
Proof. unfold getStatusColor. by rewrite toLowerCase_idempotent. Qed.

(** Of the names inherited from [Object.prototype], a lower-cased status
    can only be one of the two that have no capital letter. *)
Lemma lower_case_member s :
  toLowerCase s ∈ object_prototype_members ->
  toLowerCase s = "constructor" ∨ toLowerCase s = "__proto__".
Proof.
  intros Hin. pose proof (toLowerCase_idempotent s) as Hid.
  unfold object_prototype_members in Hin.
  repeat (apply elem_of_cons in Hin as [Heq|Hin];
          [first [by left | by right | by rewrite Heq in Hid] |]).
  by apply elem_of_nil in Hin.
Qed.

Lemma own_property_elem k props v :
  own_property k props = Some v -> v ∈ props.*2.
Proof.
  induction props as [|[k' v'] props IH]; simpl; [done |].
  destruct (String.eqb k k').
  - intros [= ->]. apply list_elem_of_here.
  - intros H. apply list_elem_of_further. auto.
Qed.

Lemma statusColors_not_empty : "" ∉ statusColors.*2.
Proof. apply (bool_decide_unpack _). vm_compute. exact I. Qed.

Lemma statusColors_get_default :
  statusColors_get "default" = Some (Classes "bg-gray-100 text-gray-800").
Proof. reflexivity. Qed.

(** X11: [getStatusColor] always answers, and with one of the class
    strings of its table, for every status but those whose lower-case
    form is "constructor" or "__proto__"; for these two the answer is the
    member inherited from [Object.prototype], not a string.  A missing
    status and a status that is no key of the table get the classes of
    "default". *)
Theorem getStatusColor_range (status : option string) :
  match status with
  | Some s =>
      if bool_decide (toLowerCase s ∈ ["constructor"; "__proto__"])
      then getStatusColor status = Some (Inherited (toLowerCase s))
      else exists classes,
             getStatusColor status = Some (Classes classes)
             ∧ classes ∈ statusColors.*2
             ∧ (own_property (toLowerCase s) statusColors = None ->
                classes = "bg-gray-100 text-gray-800")
  | None => getStatusColor status = Some (Classes "bg-gray-100 text-gray-800")
  end.
Proof.
  destruct status as [s|]; [| reflexivity].
  unfold getStatusColor. rewrite statusColors_get_default.
  destruct (bool_decide _) eqn:Hb.
  - apply bool_decide_eq_true in Hb.
    apply elem_of_cons in Hb as [->|Hb]; [reflexivity |].
    apply elem_of_cons in Hb as [->|Hb]; [reflexivity |].
    by apply elem_of_nil in Hb.
  - apply bool_decide_eq_false in Hb. unfold statusColors_get.
    destruct (own_property (toLowerCase s) statusColors) as [classes|] eqn:Hown.
    + apply own_property_elem in Hown. exists classes.
      destruct classes; [by apply statusColors_not_empty in Hown | done].
    + destruct (bool_decide (toLowerCase s ∈ object_prototype_members)) eqn:Hm.
      * apply bool_decide_eq_true, lower_case_member in Hm.
        exfalso. apply Hb. destruct Hm as [-> | ->]; set_solver.
      * simpl. eexists. split; [reflexivity |]. split; [| done].
        apply (bool_decide_unpack _). vm_compute. exact I.
Qed.

Lemma getStatusColor_range_witness :
  own_property (toLowerCase "Archived") statusColors = None
  /\ exists classes,
       getStatusColor (Some "Archived") = Some (Classes classes)
       ∧ classes ∈ statusColors.*2
       ∧ classes = "bg-gray-100 text-gray-800".
Proof.
  split; [reflexivity |].
  pose proof (getStatusColor_range (Some "Archived")) as H.
  change (bool_decide (toLowerCase "Archived" ∈ ["constructor"; "__proto__"]))
    with false in H.
  destruct H as (classes & H1 & H2 & H3).
  exists classes. split; [exact H1 |]. split; [exact H2 |]. apply H3. reflexivity.
Defined.






(** ** calculateDaysAgo *)

Lemma ceil_div_zero x : 0 <= x -> (ceil_div x ms_per_day = 0 <-> x = 0).
Proof.
  unfold ceil_div, ms_per_day. intros Hx. split.
  - intros H. apply Z.div_small_iff in H; lia.
  - intros ->. reflexivity.
Qed.

Lemma ceil_div_one x : ceil_div x ms_per_day = 1 <-> 0 < x <= ms_per_day.
Proof.
  unfold ceil_div, ms_per_day. split.
  - intros H.
    pose proof (Z.div_mod (x + 1000 * 60 * 60 * 24 - 1) (1000 * 60 * 60 * 24)) as Hd.
    pose proof (Z.mod_pos_bound (x + 1000 * 60 * 60 * 24 - 1) (1000 * 60 * 60 * 24)) as Hm.
    lia.
  - intros H. symmetry. apply (Z.div_unique _ _ 1 (x - 1)); lia.
Qed.


Lemma phrase_not_Today (count phrase : string) :
  (5 < String.length phrase)%nat -> count +:+ phrase <> "Today".
Proof.
  intros Hlen Heq. apply (f_equal String.length) in Heq.
  rewrite length_append in Heq. simpl in Heq. lia.
Qed.

(** X13: [calculateDaysAgo] says "Today" only for the very instant of
    the call: a date that differs from the clock by as little as one
    millisecond, before or after, is not "Today". *)
Theorem calculateDaysAgo_Today (now target : Z) :
  calculateDaysAgo now target = "Today" <-> target = now.
Proof.
  unfold calculateDaysAgo. cbv zeta.
  pose proof (ceil_div_zero (Z.abs (now - target)) (Z.abs_nonneg _)) as H0.
  destruct (ceil_div (Z.abs (now - target)) ms_per_day =? 0) eqn:E0.
  - apply Z.eqb_eq in E0. split; [| done]. intros _. apply H0 in E0. lia.
  - apply Z.eqb_neq in E0. split; [| intros ->; rewrite Z.sub_diag in *; tauto].
    intros H. exfalso. revert H.
    repeat match goal with
           | |- context [if ?b then _ else _] => destruct b
           end; first [discriminate | apply phrase_not_Today; simpl; lia].
Qed.

(** X14: a date within 24 hours of the clock, but not the instant
    itself, is "1 day ago", whether it lies behind or ahead. *)
Theorem calculateDaysAgo_within_a_day (now target : Z) :
  0 < Z.abs (now - target) <= ms_per_day ->
  calculateDaysAgo now target = "1 day ago".
Proof.
  intros H. apply ceil_div_one in H. unfold calculateDaysAgo. cbv zeta.
  by rewrite H.
Qed.

Lemma calculateDaysAgo_within_a_day_witness :
  0 < Z.abs (1000 - 1001) <= ms_per_day
  /\ calculateDaysAgo 1000 1001 = "1 day ago".
Proof.
  split; [vm_compute; split; [reflexivity | discriminate] |].
  apply (calculateDaysAgo_within_a_day 1000 1001).
  vm_compute; split; [reflexivity | discriminate].
Defined.



(** ** debounce *)

Section DebounceProperties.

Variable A : Type.
Variable wait : Z.

Lemma play_snoc (events : list (event A)) ev :
  play A wait (events ++ [ev]) = play A wait events ≫= fun s => step A wait s ev.
Proof. unfold play. by rewrite fold_left_app. Qed.

Lemma clearTimeout_pending events s :
  pending_of A wait events s -> clearTimeout A (timeout s) (timers s) = ∅.
Proof.
  intros [[Hempty _]|(pre & t & args & id & _ & Hid & Htimers)].
  - rewrite Hempty. destruct (timeout s); [apply delete_empty | done].
  - rewrite Hid, Htimers. simpl. apply delete_singleton_eq.
Qed.

Lemma play_pending events :
  forall s, play A wait events = Some s -> pending_of A wait events s.
Proof.
  induction events as [|ev events IH] using rev_ind; intros s.
  - intros [= <-]. left. split; [done |]. by intros [|? ?] ? ?.
  - rewrite play_snoc. destruct (play A wait events) as [s0|]; [| done]. simpl.
    specialize (IH s0 eq_refl). destruct ev as [t args|t id]; simpl.
    + intros [= <-]. right. exists events, t, args, (next_timer s0).
      split; [done |]. split; [done |]. simpl.
      by rewrite (clearTimeout_pending events s0 IH).
    + destruct (timers s0 !! id) as [[due args]|] eqn:Hid; [| done].
      destruct (due <=? t); [| done]. intros [= <-]. left. split.
      * simpl. destruct IH as [[Hempty _]|(pre & t0 & a0 & id0 & _ & Hid0 & Htimers)].
        -- by rewrite Hempty in Hid.
        -- rewrite Htimers in Hid. apply lookup_singleton_Some in Hid as [<- _].
           rewrite Hid0, Htimers. simpl. by rewrite delete_singleton_eq, delete_empty.
      * intros pre t0 a0 Heq. by apply app_inj_tail in Heq as [_ ?].
Qed.

(** A timer that fires belongs to the call that is the last event. *)
Lemma debounce_invoked_step (events : list (event A)) (t : Z) (id : positive)
    (s s' : debounced A) :
  play A wait events = Some s ->
  step A wait s (Fire t id) = Some s' ->
  exists pre t0 args,
    events = pre ++ [Call t0 args] ∧ invoked s' = invoked s ++ [(t, args)].
Proof.
  intros Hplay Hstep. simpl in Hstep.
  destruct (play_pending _ _ Hplay)
    as [[Hempty _]|(pre & t0 & a0 & id0 & Heq & Hid & Htimers)].
  - by rewrite Hempty in Hstep.
  - rewrite Htimers in Hstep.
    destruct (decide (id = id0)) as [->|Hne].
    + rewrite lookup_singleton_eq in Hstep.
      destruct (t0 + Z.max 0 wait <=? t); [| done].
      injection Hstep as <-. by exists pre, t0, a0.
    + by rewrite lookup_singleton_ne in Hstep.
Qed.

(** X22: one pending timer, for the last call.  After a history that ends
    with a call at [t] with [args], exactly one timer is pending; it is due
    [wait] ms after [t] (at [t] for a negative [wait]) and carries [args],
    whatever was called before.  Fired at any time from then on, it
    invokes [func] once with [args] and leaves no timer pending. *)
Theorem debounce_after_call (pre : list (event A)) (t : Z) (args : A)
    (s : debounced A) :
  play A wait (pre ++ [Call t args]) = Some s ->
  exists id,
    timers s = {[ id := (t + Z.max 0 wait, args) ]}
    ∧ forall t', t + Z.max 0 wait <= t' ->
        step A wait s (Fire t' id)
        = Some (Debounced A ∅ (Some id) (next_timer s) (invoked s ++ [(t', args)])).
Proof.
  intros Hplay. destruct (play_pending _ _ Hplay)
    as [[_ Hno]|(pre' & t0 & a0 & id & Heq & Hid & Htimers)].
  - by destruct (Hno pre t args).
  - apply app_inj_tail in Heq as [_ [= <- <-]].
    exists id. split; [done |]. intros t' Hdue. simpl.
    rewrite Htimers, lookup_singleton_eq.
    destruct (t + Z.max 0 wait <=? t') eqn:E; [| lia].
    unfold later. simpl. rewrite Hid. simpl.
    by rewrite delete_singleton_eq, delete_empty.
Qed.

(** X23: [func] runs only for the last call of a burst.  Whenever a timer
    fires, the event before it was a call, made at least [wait] ms
    earlier; [func] is invoked with the arguments of that call, and
    nothing stays pending: the timers of all earlier calls were
    cancelled, and no timer fires twice. *)
Theorem debounce_invokes_last (events : list (event A)) (t : Z) (id : positive)
    (s s' : debounced A) :
  play A wait events = Some s ->
  step A wait s (Fire t id) = Some s' ->
  exists pre t0 args,
    events = pre ++ [Call t0 args]
    ∧ t0 + Z.max 0 wait <= t
    ∧ invoked s' = invoked s ++ [(t, args)]
    ∧ timers s' = ∅.
Proof.
  intros Hplay Hstep. simpl in Hstep.
  destruct (play_pending _ _ Hplay)
    as [[Hempty _]|(pre & t0 & a0 & id0 & Heq & Hid & Htimers)].
  - by rewrite Hempty in Hstep.
  - rewrite Htimers in Hstep.
    destruct (decide (id = id0)) as [->|Hne].
    + rewrite lookup_singleton_eq in Hstep.
      destruct (t0 + Z.max 0 wait <=? t) eqn:E; [| done].
      injection Hstep as <-. exists pre, t0, a0. split; [done |].
      split; [lia |]. split; [done |]. simpl. rewrite Hid. simpl.
      by rewrite delete_singleton_eq, delete_empty.
    + by rewrite lookup_singleton_ne in Hstep.
Qed.

Lemma call_args_snoc (events : list (event A)) ev :
  call_args A (events ++ [ev])
  = call_args A events ++ match ev with Call _ args => [args] | Fire _ _ => [] end.
Proof. unfold call_args. rewrite omap_app. by destruct ev. Qed.

Lemma play_invoked events :
  forall s, play A wait events = Some s ->
  (invoked s).*2 `sublist_of` call_args A events
  ∧ forall pre t args, events = pre ++ [Call t args] ->
      (invoked s).*2 `sublist_of` call_args A pre.
Proof.
  induction events as [|ev events IH] using rev_ind; intros s.
  - intros [= <-]. split; [done |]. by intros [|? ?] ? ?.
  - intros Hplay. pose proof Hplay as Hplay'. rewrite play_snoc in Hplay'.
    destruct (play A wait events) as [s0|] eqn:Hs0; [| done]. simpl in Hplay'.
    destruct (IH s0 eq_refl) as [IH1 IH2]. destruct ev as [t args|t id].
    + injection Hplay' as <-. simpl. split.
      * rewrite call_args_snoc. by apply sublist_inserts_r.
      * intros pre t0 a0 Heq. by apply app_inj_tail in Heq as [<- _].
    + destruct (debounce_invoked_step events t id s0 s Hs0 Hplay')
        as (pre & t0 & a0 & Heq & Hinv).
      split.
      * rewrite Hinv, fmap_app, call_args_snoc, app_nil_r. simpl.
        rewrite Heq, call_args_snoc. apply sublist_app; [by apply (IH2 pre t0 a0) | done].
      * intros pre' t1 a1 Heq'. by apply app_inj_tail in Heq' as [_ ?].
Qed.

(** X24: [func] is invoked at most once per call, in the order of the
    calls: the arguments of its invocations are a subsequence of the
    arguments of the calls made so far. *)
Theorem debounce_invocations (events : list (event A)) (s : debounced A) :
  play A wait events = Some s ->
  (invoked s).*2 `sublist_of` call_args A events
  ∧ (length (invoked s) <= length (call_args A events))%nat.
Proof.
  intros Hplay. destruct (play_invoked events s Hplay) as [Hsub _].
  split; [done |]. apply sublist_length in Hsub. by rewrite length_fmap in Hsub.
Qed.

End DebounceProperties.

Lemma debounce_after_call_witness :
  play string 300 ([Call 0 "a"] ++ [Call 100 "ab"])
  = Some (Debounced string {[ 2%positive := (400, "ab") ]} (Some 2%positive) 3%positive [])
  /\ exists id,
       timers (Debounced string {[ 2%positive := (400, "ab") ]} (Some 2%positive)
                 3%positive [])
       = {[ id := (100 + Z.max 0 300, "ab") ]}
       ∧ forall t', 100 + Z.max 0 300 <= t' ->
           step string 300
             (Debounced string {[ 2%positive := (400, "ab") ]} (Some 2%positive)
                3%positive [])
             (Fire t' id)
           = Some (Debounced string ∅ (Some id)
                     (next_timer (Debounced string {[ 2%positive := (400, "ab") ]}
                                    (Some 2%positive) 3%positive []))
                     (invoked (Debounced string {[ 2%positive := (400, "ab") ]}
                                 (Some 2%positive) 3%positive [])
                      ++ [(t', "ab")])).
Proof.
  split; [vm_compute; reflexivity |].
  apply (debounce_after_call string 300 [Call 0 "a"] 100 "ab").
  vm_compute; reflexivity.
Defined.

Lemma debounce_invokes_last_witness :
  play string 300 typing
  = Some (Debounced string {[ 2%positive := (400, "ab") ]} (Some 2%positive) 3%positive [])
  /\ step string 300
       (Debounced string {[ 2%positive := (400, "ab") ]} (Some 2%positive) 3%positive [])
       (Fire 400 2%positive)
     = Some (Debounced string ∅ (Some 2%positive) 3%positive [(400, "ab")])
  /\ exists pre t0 args,
       typing = pre ++ [Call t0 args]
       ∧ t0 + Z.max 0 300 <= 400
       ∧ invoked (Debounced string ∅ (Some 2%positive) 3%positive [(400, "ab")])
         = invoked (Debounced string {[ 2%positive := (400, "ab") ]} (Some 2%positive)
                      3%positive [])
           ++ [(400, args)]
       ∧ timers (Debounced string ∅ (Some 2%positive) 3%positive [(400, "ab")]) = ∅.
Proof.
  split; [vm_compute; reflexivity |]. split; [vm_compute; reflexivity |].
  apply (debounce_invokes_last string 300 typing 400 2%positive);
    vm_compute; reflexivity.
Defined.

Lemma debounce_invocations_witness :
  play string 300 (typing ++ [Fire 400 2%positive])
  = Some (Debounced string ∅ (Some 2%positive) 3%positive [(400, "ab")])
  /\ (invoked (Debounced string ∅ (Some 2%positive) 3%positive [(400, "ab")])).*2
     `sublist_of` call_args string (typing ++ [Fire 400 2%positive])
  /\ (length (invoked (Debounced string ∅ (Some 2%positive) 3%positive [(400%Z, "ab")]))
      <= length (call_args string (typing ++ [Fire 400 2%positive])))%nat.
Proof.
  split; [vm_compute; reflexivity |].
  apply (debounce_invocations string 300 (typing ++ [Fire 400 2%positive])).
  vm_compute; reflexivity.
Defined.

(* ===================================================================== *)
(** * Part VII: further properties of the schema *)
(* ===================================================================== *)

(** ** The timestamp triggers *)

(** UPDATE goes through the rows in place: a row that WHERE selects is
    replaced by its new version, any other row is kept. *)
Lemma update_rows_where triggers e T sets where_ todo :
  forall done final changed,
  update_rows triggers e T sets where_ done todo = inr (final, changed) ->
  exists todo',
    final = done ++ todo'
    ∧ Forall2 (fun old new =>
                 if where_ old then new_version triggers e T sets old = inr new
                 else new = old)
        todo todo'.
Proof.
  induction todo as [|r rest IH]; intros done final changed; simpl.
  - intros [= <- <-]. exists []. by rewrite app_nil_r.
  - destruct (where_ r) eqn:Hw.
    + destruct (new_version _ _ _ _ _) as [err|r'] eqn:Hnew; [done |].
      destruct (check_not_null T r'); [done |].
      destruct (check_unique T r' (done ++ rest)); [done |].
      destruct (update_rows _ _ _ _ _ _ _) as [err|[final0 changed0]] eqn:Hrec; [done |].
      intros [= <- <-]. destruct (IH _ _ _ Hrec) as (todo' & -> & HF).
      exists (r' :: todo'). rewrite <- app_assoc. split; [done |].
      constructor; [by rewrite Hw | done].
    + intros Hrec. destruct (IH _ _ _ Hrec) as (todo' & -> & HF).
      exists (r :: todo'). rewrite <- app_assoc. split; [done |].
      constructor; [by rewrite Hw | done].
Qed.

Lemma crm_trigger t T :
  find_table crm_schema t = Some T -> t <> "auth.user_roles" ->
  Exists (fun g => trg_table g = t) crm_triggers.
Proof.
  intros [HT <-]%find_table_Some Hne. unfold crm_schema in HT.
  repeat (apply elem_of_cons in HT as [->|HT];
          [first [done | apply (bool_decide_unpack _); vm_compute; exact I] |]).
  by apply elem_of_nil in HT.
Qed.

(** X16: the timestamp triggers.  In every table but auth.user_roles
    (the one table without a trigger), an accepted UPDATE leaves each row
    that WHERE selects with [updated_at] equal to the CURRENT_TIMESTAMP of
    the statement, whatever SET assigns, and leaves every other row of the
    table as it was, in the same place. *)
Theorem update_sets_updated_at (e : env) (t : string)
    (sets : list (string * (row -> value))) (where_ : row -> bool) (d d' : db) :
  t <> "auth.user_roles" ->
  crm_exec e (UPDATE t sets where_) d = (d', Done) ->
  Forall2 (fun old new =>
             if where_ old then get new "updated_at" = VInt (now e) else new = old)
          (rows_of d t) (rows_of d' t).
Proof.
  intros Hne. unfold crm_exec. simpl. unfold exec_update.
  destruct (find_table crm_schema t) as [T|] eqn:HT; [| done].
  destruct (decide (NoDup sets.*1)); [| done].
  destruct (list_find _ _) as [[? ?]|]; [done |].
  destruct (update_rows _ _ _ _ _ _ _) as [err|[final changed]] eqn:Hrows; [done |].
  destruct (check_child_fkeys _ _ _ _); [done |].
  destruct (check_parent_fkeys _ _ _ _); [done |].
  intros [= <-]. rewrite rows_of_set_rows_eq.
  destruct (update_rows_where _ _ _ _ _ _ _ _ _ Hrows) as (todo' & -> & HF).
  simpl. eapply Forall2_impl; [exact HF |]. intros old new. simpl.
  destruct (where_ old); [| done].
  unfold new_version. destruct (coerce_assigns T _) as [err|vals]; [done |].
  intros [= <-]. rewrite get_fire_before_update.
  apply find_table_Some in HT as HT'. destruct HT' as [_ ->].
  rewrite decide_True; [done |]. split; [| done]. by apply (crm_trigger t T).
Qed.

Lemma update_sets_updated_at_witness :
  "clients.companies" <> "auth.user_roles"
  /\ crm_exec (clock 104) rename_company (crm_run two_tenants empty_db)
     = ((crm_exec (clock 104) rename_company (crm_run two_tenants empty_db)).1, Done)
  /\ Forall2 (fun old new =>
                if uuid_is 10 old then get new "updated_at" = VInt (now (clock 104))
                else new = old)
       (rows_of (crm_run two_tenants empty_db) "clients.companies")
       (rows_of (crm_exec (clock 104) rename_company (crm_run two_tenants empty_db)).1
          "clients.companies").
Proof.
  split; [done |]. split; [vm_compute; reflexivity |].
  apply (update_sets_updated_at (clock 104) "clients.companies"
           [("name", fun _ : row => VStr "Gulf Fresh Foods")] (uuid_is 10)
           (crm_run two_tenants empty_db)); [done |].
  vm_compute; reflexivity.
Defined.

(** ** Foreign keys when rows are deleted and inserted *)

(** Two rows of a table that hold the same non-null value in a column
    whose non-null values are distinct are one row. *)
Lemma same_key_same_row c l r1 r2 :
  NoDup (keys c l) -> r1 ∈ l -> r2 ∈ l ->
  get r1 c = get r2 c -> get r1 c <> VNull -> r1 = r2.
Proof.
  intros Hnd H1 H2 Heq Hnn.
  assert (Hk : has_key c (get r1 c) l) by (apply has_key_elem; eauto).
  pose proof (key_held_once c (get r1 c) l Hnd Hnn Hk) as Hlen.
  assert (Hin1 : r1 ∈ filter (fun r => get r c = get r1 c) l)
    by (by apply list_elem_of_filter).
  assert (Hin2 : r2 ∈ filter (fun r => get r c = get r1 c) l)
    by (by apply list_elem_of_filter).
  destruct (filter (fun r => get r c = get r1 c) l) as [|x [|y rest]]; try done.
  apply list_elem_of_singleton in Hin1, Hin2. congruence.
Qed.

(** Every foreign key of the script points to a table of the script and
    to a column of it that is declared UNIQUE. *)
Lemma crm_fkey_target k :
  k ∈ foreign_keys crm_schema ->
  exists T c,
    find_table crm_schema (fk_ref_table k) = Some T
    ∧ find_column T (fk_ref_column k) = Some c
    ∧ is_unique c = true.
Proof.
  intros Hk%list_elem_of_In.
  assert (H : forallb (fun k =>
                match find_table crm_schema (fk_ref_table k) with
                | Some T =>
                    match find_column T (fk_ref_column k) with
                    | Some c => is_unique c
                    | None => false
                    end
                | None => false
                end) (foreign_keys crm_schema) = true) by (vm_compute; reflexivity).
  pose proof (proj1 (forallb_forall _ _) H k Hk) as Hb. cbv beta in Hb.
  destruct (find_table crm_schema (fk_ref_table k)) as [T|]; [| discriminate].
  destruct (find_column T (fk_ref_column k)) as [c|] eqn:Hc; [| discriminate].
  by exists T, c.
Qed.

(** X17: no row is deleted while another row refers to it (the foreign
    keys are declared without ON DELETE, which is NO ACTION).  In a state
    reached from the empty database, a DELETE that selects a row to which
    a row it leaves in place refers through one of the foreign keys is
    rejected with a foreign-key violation on the table, and the state
    stays as it was. *)
Theorem delete_referenced_rejected (trace : list (env * stmt)) (e : env) (k : fkey)
    (where_ : row -> bool) (parent child : row) :
  k ∈ foreign_keys crm_schema ->
  parent ∈ rows_of (crm_run trace empty_db) (fk_ref_table k) ->
  child ∈ rows_of (crm_run trace empty_db) (fk_table k) ->
  get child (fk_column k) = get parent (fk_ref_column k) ->
  get child (fk_column k) <> VNull ->
  where_ parent = true ->
  (fk_table k = fk_ref_table k -> where_ child = false) ->
  exists k',
    k' ∈ foreign_keys crm_schema ∧ fk_ref_table k' = fk_ref_table k
    ∧ crm_exec e (DELETE (fk_ref_table k) where_) (crm_run trace empty_db)
      = (crm_run trace empty_db, Failed (foreign_key_violation (fk_table k') (fk_column k'))).
Proof.
  intros Hk Hparent Hchild Href Hnn Hwp Hself.
  destruct (crm_fkey_target k Hk) as (T & c & HT & Hc & Hu).
  set (d := crm_run trace empty_db) in *.
  unfold crm_exec. simpl. unfold exec_delete. rewrite HT. cbv zeta.
  set (d' := set_rows d (fk_ref_table k) _).
  assert (Hfind : is_Some (list_find
            (fun k' => fk_ref_table k' = fk_ref_table k
                       ∧ Exists (fun r => dangling d' k' (get r (fk_ref_column k')))
                           (filter (fun r => where_ r) (rows_of d (fk_ref_table k))))
            (foreign_keys crm_schema))).
  { apply (list_find_elem_of _ _ k); [done |]. split; [done |].
    apply Exists_exists. exists parent. split.
    { apply list_elem_of_filter. split; [by rewrite Hwp | done]. }
    rewrite <- Href. split; [done |]. split.
    - intros (r & Hr & Hkey)%has_key_elem. unfold d' in Hr.
      rewrite rows_of_set_rows_eq in Hr.
      apply list_elem_of_filter in Hr as [Hnw Hr].
      assert (r = parent) as ->.
      { apply (same_key_same_row (fk_ref_column k) (rows_of d (fk_ref_table k)));
          [| done | done | congruence | congruence].
        by apply (crm_unique trace (fk_ref_table k) T (fk_ref_column k) c). }
      by rewrite Hwp in Hnw.
    - apply has_key_elem. exists child. split; [| done]. unfold d'.
      rewrite rows_of_set_rows.
      destruct (decide (fk_ref_table k = fk_table k)) as [Heq|]; [| done].
      apply list_elem_of_filter. split; [| by rewrite <- Heq in Hchild].
      rewrite Hself by done. by intros []. }
  destruct Hfind as [[i k'] Hfind].
  unfold check_parent_fkeys. rewrite Hfind. simpl.
  apply list_find_Some in Hfind as (Hi & [Hreft _] & _).
  exists k'. split; [by eapply list_elem_of_lookup_2 |]. done.
Qed.

Lemma delete_referenced_rejected_witness :
  company_tenant ∈ foreign_keys crm_schema
  /\ row_at (crm_run two_tenants empty_db) "tenants" 0
     ∈ rows_of (crm_run two_tenants empty_db) (fk_ref_table company_tenant)
  /\ row_at (crm_run two_tenants empty_db) "clients.companies" 0
     ∈ rows_of (crm_run two_tenants empty_db) (fk_table company_tenant)
  /\ get (row_at (crm_run two_tenants empty_db) "clients.companies" 0)
       (fk_column company_tenant)
     = get (row_at (crm_run two_tenants empty_db) "tenants" 0)
         (fk_ref_column company_tenant)
  /\ get (row_at (crm_run two_tenants empty_db) "clients.companies" 0)
       (fk_column company_tenant) <> VNull
  /\ uuid_is 1 (row_at (crm_run two_tenants empty_db) "tenants" 0) = true
  /\ exists k',
       k' ∈ foreign_keys crm_schema
       ∧ fk_ref_table k' = fk_ref_table company_tenant
       ∧ crm_exec (clock 200) (DELETE (fk_ref_table company_tenant) (uuid_is 1))
           (crm_run two_tenants empty_db)
         = (crm_run two_tenants empty_db,
            Failed (foreign_key_violation (fk_table k') (fk_column k'))).
Proof.
  assert (H1 : company_tenant ∈ foreign_keys crm_schema)
    by (apply (bool_decide_unpack _); vm_compute; exact I).
  assert (H2 : row_at (crm_run two_tenants empty_db) "tenants" 0
               ∈ rows_of (crm_run two_tenants empty_db) (fk_ref_table company_tenant))
    by (apply (list_elem_of_lookup_2 _ 0%nat); vm_compute; reflexivity).
  assert (H3 : row_at (crm_run two_tenants empty_db) "clients.companies" 0
               ∈ rows_of (crm_run two_tenants empty_db) (fk_table company_tenant))
    by (apply (list_elem_of_lookup_2 _ 0%nat); vm_compute; reflexivity).
  assert (H4 : get (row_at (crm_run two_tenants empty_db) "clients.companies" 0)
                 (fk_column company_tenant)
               = get (row_at (crm_run two_tenants empty_db) "tenants" 0)
                   (fk_ref_column company_tenant))
    by (vm_compute; reflexivity).
  assert (H5 : get (row_at (crm_run two_tenants empty_db) "clients.companies" 0)
                 (fk_column company_tenant) <> VNull)
    by (vm_compute; discriminate).
  assert (H6 : uuid_is 1 (row_at (crm_run two_tenants empty_db) "tenants" 0) = true)
    by (vm_compute; reflexivity).
  repeat (split; [assumption |]).
  apply (delete_referenced_rejected two_tenants (clock 200) company_tenant (uuid_is 1)
           (row_at (crm_run two_tenants empty_db) "tenants" 0)
           (row_at (crm_run two_tenants empty_db) "clients.companies" 0)
           H1 H2 H3 H4 H5 H6).
  intros Heq. vm_compute in Heq. discriminate.
Defined.

(** X18: rows of a table that no foreign key refers to (audit_logs,
    auth.user_roles, clients.company_addresses, deals.deal_activities,
    orders.order_items) can always be deleted: DELETE is accepted in every
    state and removes exactly the rows that WHERE selects. *)
Theorem delete_unreferenced_accepted (e : env) (t : string) (where_ : row -> bool)
    (d : db) :
  t ∈ tbl_name <$> crm_schema ->
  t ∉ fk_ref_table <$> foreign_keys crm_schema ->
  crm_exec e (DELETE t where_) d
  = (set_rows d t (filter (fun r => ¬ where_ r) (rows_of d t)), Done).
Proof.
  intros Ht Hno. unfold crm_exec. simpl. unfold exec_delete.
  destruct (find_table crm_schema t) as [T|] eqn:HT.
  - cbv zeta. unfold check_parent_fkeys.
    rewrite (proj2 (list_find_None _ _)); [done |].
    apply Forall_forall. intros k Hk [Hkt _]. apply Hno.
    apply list_elem_of_fmap. by exists k.
  - exfalso. apply list_elem_of_fmap in Ht as (T & -> & HT').
    unfold find_table in HT.
    pose proof (find_none _ _ HT T (proj1 (list_elem_of_In _ _) HT')) as Hf.
    simpl in Hf. by rewrite String.eqb_refl in Hf.
Qed.

Lemma delete_unreferenced_accepted_witness :
  ("audit_logs" ∈ tbl_name <$> crm_schema)
  /\ ("audit_logs" ∉ fk_ref_table <$> foreign_keys crm_schema)
  /\ crm_exec (clock 200) (DELETE "audit_logs" (fun _ => true))
       (crm_run one_audit_log empty_db)
     = (set_rows (crm_run one_audit_log empty_db) "audit_logs"
          (filter (fun r => ¬ (fun _ : row => true) r)
             (rows_of (crm_run one_audit_log empty_db) "audit_logs")),
        Done).
Proof.
  assert (H1 : "audit_logs" ∈ tbl_name <$> crm_schema)
    by (apply (bool_decide_unpack _); vm_compute; exact I).
  assert (H2 : "audit_logs" ∉ fk_ref_table <$> foreign_keys crm_schema)
    by (apply (bool_decide_unpack _); vm_compute; exact I).
  split; [exact H1 |]. split; [exact H2 |].
  exact (delete_unreferenced_accepted (clock 200) "audit_logs" (fun _ => true)
           (crm_run one_audit_log empty_db) H1 H2).
Defined.

(** Every foreign-key column of the script is a UUID column of its table. *)
Lemma crm_fkey_source k :
  k ∈ foreign_keys crm_schema ->
  exists T c,
    find_table crm_schema (fk_table k) = Some T
    ∧ find_column T (fk_column k) = Some c
    ∧ col_type c = UUID.
Proof.
  intros Hk%list_elem_of_In.
  assert (H : forallb (fun k =>
                match find_table crm_schema (fk_table k) with
                | Some T =>
                    match find_column T (fk_column k) with
                    | Some c => bool_decide (col_type c = UUID)
                    | None => false
                    end
                | None => false
                end) (foreign_keys crm_schema) = true) by (vm_compute; reflexivity).
  pose proof (proj1 (forallb_forall _ _) H k Hk) as Hb. cbv beta in Hb.
  destruct (find_table crm_schema (fk_table k)) as [T|]; [| discriminate].
  destruct (find_column T (fk_column k)) as [c|] eqn:Hc; [| discriminate].
  apply bool_decide_eq_true in Hb. by exists T, c.
Qed.

(** X19: a reference to a row that is not there cannot be inserted.  In
    any state, an INSERT that gives a foreign-key column a UUID that no
    row of the referenced (other) table holds is rejected, and no table
    changes. *)
Theorem insert_dangling_rejected (e : env) (k : fkey) (assigns : list (string * value))
    (u : N) (d : db) :
  k ∈ foreign_keys crm_schema ->
  fk_table k <> fk_ref_table k ->
  (fk_column k, VUuid u) ∈ assigns ->
  ¬ has_key (fk_ref_column k) (VUuid u) (rows_of d (fk_ref_table k)) ->
  exists err,
    (crm_exec e (INSERT (fk_table k) assigns) d).2 = Failed err
    ∧ forall t, rows_of (crm_exec e (INSERT (fk_table k) assigns) d).1 t = rows_of d t.
Proof.
  intros Hk Hself Hin Hnone.
  destruct (crm_exec e (INSERT (fk_table k) assigns) d) as [d' [|err]] eqn:Hex.
  2:{ exists err. split; [done |]. intros t.
      pose proof (exec_failed_rows crm_schema crm_triggers e
                    (INSERT (fk_table k) assigns) d err t) as H.
      unfold crm_exec in Hex. rewrite Hex in H. by apply H. }
  exfalso. unfold crm_exec in Hex. simpl in Hex. unfold exec_insert in Hex.
  destruct (crm_fkey_source k Hk) as (T & c & HT & Hc & Hty).
  rewrite HT in Hex.
  destruct (decide (NoDup assigns.*1)) as [Hnd|]; [| done].
  destruct (coerce_assigns T assigns) as [?|vals] eqn:Hco; [done |].
  cbv zeta in Hex.
  destruct (check_sequences _ _ _); [done |].
  destruct (check_not_null _ _); [done |].
  destruct (check_unique _ _ _); [done |].
  destruct (check_child_fkeys _ _ _ _) eqn:Hfk; [done |].
  pose proof (check_child_fkeys_None _ _ _ _ Hfk k _ Hk eq_refl
                (list_elem_of_here _ _)) as Hholds.
  assert (Hget : get (new_row e d T (list_to_map vals)) (fk_column k) = VUuid u).
  { rewrite (crm_new_row e d (fk_table k) T (fk_column k) c _ HT Hc).
    unfold column_value. apply find_column_Some in Hc as [_ Hname]. rewrite Hname.
    destruct (coerce_assigns_elem T assigns vals _ _ Hco Hin)
      as (col & v' & Hcol & Hv' & Hvals).
    simpl in Hv'. destruct (col_type col); try done. injection Hv' as <-.
    destruct (coerce_assigns_spec _ _ _ Hco) as [Hnames _].
    rewrite (elem_of_list_to_map_1 vals (fk_column k) (VUuid u)); [done | | done].
    by rewrite Hnames. }
  destruct Hholds as [Hnull|Hkey]; [congruence |].
  apply Hnone. rewrite Hget in Hkey.
  rewrite rows_of_set_rows_ne, rows_of_advance_sequences in Hkey by done. done.
Qed.

Lemma insert_dangling_rejected_witness :
  company_tenant ∈ foreign_keys crm_schema
  /\ fk_table company_tenant <> fk_ref_table company_tenant
  /\ ((fk_column company_tenant, VUuid 3)
      ∈ [("uuid", VUuid 12); ("name", VStr "Kuwait Wholesale Market");
         ("tenant_id", VUuid 3)])
  /\ ¬ has_key (fk_ref_column company_tenant) (VUuid 3)
         (rows_of (crm_run two_tenants empty_db) (fk_ref_table company_tenant))
  /\ exists err,
       (crm_exec (clock 200) (insert_company 12 "Kuwait Wholesale Market" 3)
          (crm_run two_tenants empty_db)).2 = Failed err
       ∧ forall t,
           rows_of (crm_exec (clock 200) (insert_company 12 "Kuwait Wholesale Market" 3)
                      (crm_run two_tenants empty_db)).1 t
           = rows_of (crm_run two_tenants empty_db) t.
Proof.
  assert (H1 : company_tenant ∈ foreign_keys crm_schema)
    by (apply (bool_decide_unpack _); vm_compute; exact I).
  assert (H2 : fk_table company_tenant <> fk_ref_table company_tenant)
    by (vm_compute; discriminate).
  assert (H3 : (fk_column company_tenant, VUuid 3)
               ∈ [("uuid", VUuid 12); ("name", VStr "Kuwait Wholesale Market");
                  ("tenant_id", VUuid 3)])
    by (apply (bool_decide_unpack _); vm_compute; exact I).
  assert (H4 : ¬ has_key (fk_ref_column company_tenant) (VUuid 3)
                   (rows_of (crm_run two_tenants empty_db) (fk_ref_table company_tenant)))
    by (apply (bool_decide_unpack _); vm_compute; exact I).
  repeat (split; [assumption |]).
  exact (insert_dangling_rejected (clock 200) company_tenant _ 3
           (crm_run two_tenants empty_db) H1 H2 H3 H4).
Defined.

(** ** Defaults and primary keys of all tables *)

(** The columns every table but auth.user_roles declares with a default. *)
Lemma crm_audit_columns T :
  T ∈ crm_schema -> tbl_name T <> "auth.user_roles" ->
  find_column T "uuid" = Some (Col "uuid" UUID [DEFAULT uuid_generate_v4; UNIQUE])
  ∧ find_column T "created_at"
    = Some (Col "created_at" TIMESTAMP [DEFAULT CURRENT_TIMESTAMP])
  ∧ find_column T "updated_at"
    = Some (Col "updated_at" TIMESTAMP [DEFAULT CURRENT_TIMESTAMP])
  ∧ find_column T "is_active"
    = Some (Col "is_active" BOOLEAN [DEFAULT (Lit (VBool true))]).
Proof.
  intros HT Hne. unfold crm_schema in HT.
  repeat (apply elem_of_cons in HT as [->|HT];
          [first [done | repeat split; reflexivity] |]).
  by apply elem_of_nil in HT.
Qed.

Lemma crm_id_column T :
  T ∈ crm_schema -> find_column T "id" = Some (Col "id" SERIAL [PRIMARY_KEY]).
Proof.
  intros HT. unfold crm_schema in HT.
  repeat (apply elem_of_cons in HT as [->|HT]; [reflexivity |]).
  by apply elem_of_nil in HT.
Qed.

(** X20: what an INSERT fills in.  In every table but auth.user_roles,
    the row appended by an accepted INSERT has, for each of these columns
    that the statement does not name: [id] the next value of the table's
    sequence, [uuid] a fresh [uuid_generate_v4()], [created_at] and
    [updated_at] the CURRENT_TIMESTAMP of the statement, and [is_active]
    TRUE. *)
Theorem insert_fills_defaults (e : env) (t : string) (assigns : list (string * value))
    (d d' : db) :
  t <> "auth.user_roles" ->
  crm_exec e (INSERT t assigns) d = (d', Done) ->
  exists r,
    rows_of d' t = rows_of d t ++ [r]
    ∧ ("id" ∉ assigns.*1 -> get r "id" = VInt (last_value d (seq_name t "id") + 1))
    ∧ ("uuid" ∉ assigns.*1 -> get r "uuid" = VUuid (random_uuid e))
    ∧ ("created_at" ∉ assigns.*1 -> get r "created_at" = VInt (now e))
    ∧ ("updated_at" ∉ assigns.*1 -> get r "updated_at" = VInt (now e))
    ∧ ("is_active" ∉ assigns.*1 -> get r "is_active" = VBool true).
Proof.
  intros Hne Hex. unfold crm_exec in Hex. simpl in Hex.
  apply insert_Done in Hex as (T & vals & HT & Hco & ->).
  apply find_table_Some in HT as HT'. destruct HT' as [HTin Hname].
  rewrite <- Hname in Hne.
  destruct (crm_audit_columns T HTin Hne) as (Huuid & Hcreated & Hupdated & Hactive).
  pose proof (crm_id_column T HTin) as Hid.
  eexists. split; [reflexivity |]. repeat split; intros Hom.
  - rewrite (crm_new_row e d t T "id" _ _ HT Hid).
    rewrite (column_value_omitted e d T assigns vals (Col "id" SERIAL [PRIMARY_KEY])
               Hco Hom).
    by rewrite Hname.
  - by rewrite (crm_default e d t T "uuid" _ assigns vals HT Huuid Hco Hom).
  - by rewrite (crm_default e d t T "created_at" _ assigns vals HT Hcreated Hco Hom).
  - by rewrite (crm_default e d t T "updated_at" _ assigns vals HT Hupdated Hco Hom).
  - by rewrite (crm_default e d t T "is_active" _ assigns vals HT Hactive Hco Hom).
Qed.

Lemma insert_fills_defaults_witness :
  "clients.companies" <> "auth.user_roles"
  /\ crm_exec (clock 104) (INSERT "clients.companies" company_with_defaults)
       (crm_run two_tenants empty_db)
     = ((crm_exec (clock 104) (INSERT "clients.companies" company_with_defaults)
           (crm_run two_tenants empty_db)).1, Done)
  /\ exists r,
       rows_of (crm_exec (clock 104) (INSERT "clients.companies" company_with_defaults)
                  (crm_run two_tenants empty_db)).1 "clients.companies"
       = rows_of (crm_run two_tenants empty_db) "clients.companies" ++ [r]
       ∧ ("id" ∉ company_with_defaults.*1 ->
          get r "id"
          = VInt (last_value (crm_run two_tenants empty_db)
                    (seq_name "clients.companies" "id") + 1))
       ∧ ("uuid" ∉ company_with_defaults.*1 ->
          get r "uuid" = VUuid (random_uuid (clock 104)))
       ∧ ("created_at" ∉ company_with_defaults.*1 ->
          get r "created_at" = VInt (now (clock 104)))
       ∧ ("updated_at" ∉ company_with_defaults.*1 ->
          get r "updated_at" = VInt (now (clock 104)))
       ∧ ("is_active" ∉ company_with_defaults.*1 -> get r "is_active" = VBool true).
Proof.
  split; [done |]. split; [vm_compute; reflexivity |].
  apply (insert_fills_defaults (clock 104) "clients.companies" company_with_defaults
           (crm_run two_tenants empty_db)); [done |].
  vm_compute; reflexivity.
Defined.

Lemma has_type_serial v :
  has_type SERIAL v ->
  v = VNull ∨ exists z, v = VInt z ∧ -2147483648 <= z <= 2147483647.
Proof.
  destruct v; unfold has_type; simpl; try done; [by left |].
  destruct (int4_range z) eqn:Hr; [| done]. intros _. right. exists z.
  split; [done |]. unfold int4_range in Hr. apply andb_prop in Hr as [? ?]. lia.
Qed.

(** X21: [id SERIAL PRIMARY KEY] in all twelve tables.  In every state
    reached from the empty database, each row of each table has a 32-bit
    integer [id], and no two rows of a table have the same [id]. *)
Theorem id_is_primary_key (trace : list (env * stmt)) :
  Forall (fun T =>
            Forall (fun r => exists z, get r "id" = VInt z
                                       ∧ -2147483648 <= z <= 2147483647)
                   (rows_of (crm_run trace empty_db) (tbl_name T))
            ∧ NoDup ((fun r => get r "id")
                       <$> rows_of (crm_run trace empty_db) (tbl_name T)))
         crm_schema.
Proof.
  apply Forall_forall. intros T HT.
  pose proof (crm_id_column T HT) as Hid.
  assert (Hfind : find_table crm_schema (tbl_name T) = Some T).
  { unfold crm_schema in HT.
    repeat (apply elem_of_cons in HT as [->|HT]; [reflexivity |]).
    by apply elem_of_nil in HT. }
  assert (Hrows : Forall (fun r => exists z, get r "id" = VInt z
                                             ∧ -2147483648 <= z <= 2147483647)
                    (rows_of (crm_run trace empty_db) (tbl_name T))).
  { apply Forall_forall. intros r Hr.
    destruct (crm_column trace (tbl_name T) T "id" _ r Hfind Hid Hr) as [Hnn Hty].
    apply has_type_serial in Hty as [Hnull|?]; [| done].
    exfalso. by apply Hnn. }
  split; [done |].
  rewrite <- keys_all_non_null.
  - by apply (crm_unique trace (tbl_name T) T "id" _ Hfind Hid).
  - eapply Forall_impl; [exact Hrows |]. intros r (z & Hz & _). by rewrite Hz.
Qed.
